(** * kgcnn.graph.geom: geometric graph-construction utilities

    A shallow embedding of [kgcnn/graph/geom.py] and the properties of its
    Coulomb-matrix decoder, rotation matrix, rigid alignment and periodic
    neighbour search.

    Numbers.  numpy's float64 arrays are modelled in exact arithmetic:
    finite values are real numbers ([R]); where the source can divide by
    zero, the IEEE special values are kept ([npfloat]: a real, [+inf],
    [-inf] or [nan]).  Rounding error is not modelled there, and a zero is
    the positive zero.  What holds in exact arithmetic only is stated as
    such.  The neighbour search is embedded a second time over binary64
    numbers ([F64]), where it can be run: rounding decides which pairs at
    exactly the cutoff are kept.

    Library calls.  [np.linalg.inv] is the exact inverse and raises on a
    zero determinant; LAPACK's rounded elimination agrees with that on a
    matrix with a zero row or column, and what is proved of singular
    lattices as such is stated for those.  [np.argsort] and
    [np.linalg.svd] are parameters of the functions that call them: the
    first is only asked to sort (its default algorithm does not fix the
    order of ties), of the second nothing is asked. *)

From Stdlib Require Import Floats.PrimFloat.
From Stdlib Require Floats.FloatOps Floats.SpecFloat Numbers.Cyclic.Int63.Uint63.
From Stdlib Require Import Reals Lra Lia Psatz ZArith List Permutation Sorted Bool.
From Stdlib Require Import RNsatz.
Import ListNotations.
Open Scope R_scope.

(** ** Python exceptions and the error monad *)

Inductive exn : Type :=
| LinAlgError   (* numpy.linalg.LinAlgError: Singular matrix *)
| TypeError     (* unsupported operand type(s) for +: 'NoneType' and 'float' *)
| ValueError.   (* shape mismatch in dot / cannot reshape array *)

Definition result (A : Type) : Type := (exn + A)%type.

Definition ret {A : Type} (a : A) : result A := inr a.
Definition raise {A : Type} (e : exn) : result A := inl e.
Definition bind {A B : Type} (c : result A) (k : A -> result B) : result B :=
  match c with
  | inl e => inl e
  | inr a => k a
  end.

Notation "x <- c ;; k" := (bind c (fun x => k))
  (at level 61, c at next level, right associativity).

(** ** Generic list helpers standing for numpy indexing *)

Definition zip_with {A B C : Type} (f : A -> B -> C) (l1 : list A) (l2 : list B) : list C :=
  map (fun p => f (fst p) (snd p)) (combine l1 l2).

(** [x[mask]] for a boolean mask of the same length. *)
Fixpoint mask_select {A : Type} (l : list A) (m : list bool) : list A :=
  match l, m with
  | x :: l', b :: m' => if b then x :: mask_select l' m' else mask_select l' m'
  | _, _ => []
  end.

(** [np.take_along_axis(x, idx)] on one row. *)
Definition take_along {A : Type} (d : A) (l : list A) (idx : list nat) : list A :=
  map (fun k => nth k l d) idx.

(** [np.arange(i, j, 1)] on integers: empty when [j <= i]. *)
Definition arange (i j : Z) : list Z :=
  map (fun n => (i + Z.of_nat n)%Z) (seq 0 (Z.to_nat (j - i))).

(** ** Sign and comparison on reals as the code branches on them *)

Definition Rsign (r : R) : comparison :=
  match total_order_T r 0 with
  | inleft (left _) => Lt
  | inleft (right _) => Eq
  | inright _ => Gt
  end.

Definition Rleb (x y : R) : bool := if Rle_dec x y then true else false.
Definition Rltb (x y : R) : bool := if Rlt_dec x y then true else false.

(** ** float64 with its special values *)

Inductive npfloat : Type :=
| Fin (r : R)
| PInf
| NInf
| NaN.

Definition is_finite (x : npfloat) : bool :=
  match x with Fin _ => true | _ => false end.

Definition fopp (x : npfloat) : npfloat :=
  match x with
  | Fin r => Fin (- r)
  | PInf => NInf
  | NInf => PInf
  | NaN => NaN
  end.

Definition fadd (x y : npfloat) : npfloat :=
  match x, y with
  | NaN, _ | _, NaN => NaN
  | Fin a, Fin b => Fin (a + b)
  | PInf, NInf | NInf, PInf => NaN
  | PInf, _ | _, PInf => PInf
  | NInf, _ | _, NInf => NInf
  end.

Definition fsub (x y : npfloat) : npfloat := fadd x (fopp y).

(** The infinity whose sign is [s] times the sign of [r]; [0 * inf] is nan. *)
Definition inf_signed (pos : bool) (r : R) : npfloat :=
  match Rsign r with
  | Gt => if pos then PInf else NInf
  | Lt => if pos then NInf else PInf
  | Eq => NaN
  end.

Definition fmul (x y : npfloat) : npfloat :=
  match x, y with
  | NaN, _ | _, NaN => NaN
  | Fin a, Fin b => Fin (a * b)
  | Fin a, PInf | PInf, Fin a => inf_signed true a
  | Fin a, NInf | NInf, Fin a => inf_signed false a
  | PInf, PInf | NInf, NInf => PInf
  | PInf, NInf | NInf, PInf => NInf
  end.

(** IEEE division: [x/0] is an infinity for [x <> 0] and nan for [x = 0]. *)
Definition fdiv (x y : npfloat) : npfloat :=
  match x, y with
  | NaN, _ | _, NaN => NaN
  | Fin a, Fin b =>
      match Rsign b with
      | Eq => inf_signed true a
      | _ => Fin (a / b)
      end
  | Fin _, PInf | Fin _, NInf => Fin 0
  | PInf, Fin b => match Rsign b with Lt => NInf | _ => PInf end
  | NInf, Fin b => match Rsign b with Lt => PInf | _ => NInf end
  | PInf, PInf | PInf, NInf | NInf, PInf | NInf, NInf => NaN
  end.

(** [x ** 2.0] *)
Definition fsq (x : npfloat) : npfloat := fmul x x.

(** [np.power(x, y)] for a positive exponent [y] that is not an integer
    (the decoder uses [y = 1/2.4]): nan on a negative base, 0 at 0. *)
Definition np_power (x : npfloat) (y : R) : npfloat :=
  match x with
  | Fin a =>
      match Rsign a with
      | Gt => Fin (Rpower a y)
      | Eq => Fin 0
      | Lt => NaN
      end
  | PInf | NInf => PInf
  | NaN => NaN
  end.

(** [np.round] rounds to the nearest integer and a tie to the even one. *)
Definition round_half_even (r : R) : Z :=
  let f := Zfloor r in
  match total_order_T (r - IZR f) (1 / 2) with
  | inleft (left _) => f
  | inleft (right _) => if Z.even f then f else (f + 1)%Z
  | inright _ => (f + 1)%Z
  end.

Definition np_round (x : npfloat) : npfloat :=
  match x with
  | Fin r => Fin (IZR (round_half_even r))
  | _ => x
  end.

(** Rounding a tie away from zero, the policy the decoder is compared with. *)
Definition round_half_away (r : R) : Z :=
  if Rle_dec 0 r then Zfloor (r + 1 / 2) else Zceil (r - 1 / 2).

(** Conversion to [dtype=np.int] (the alias of Python's int in the numpy
    releases the repository targets; a C long, 64 bit): truncation towards
    zero; a value that is not finite or out of range converts to the
    smallest integer, as the x86-64 conversion does. *)
Definition int_min : Z := (- 2 ^ 63)%Z.
Definition int_max : Z := (2 ^ 63 - 1)%Z.

Definition Ztrunc (r : R) : Z :=
  if Rle_dec 0 r then Zfloor r else Zceil r.

Definition astype_int (x : npfloat) : Z :=
  match x with
  | Fin r =>
      let t := Ztrunc r in
      if ((int_min <=? t) && (t <=? int_max))%Z then t else int_min
  | _ => int_min
  end.

(** ** coulomb_matrix_to_inverse_distance_proton *)

Definition matrix (A : Type) : Type := list (list A).

(** [coulomb_mat.shape[-1]] *)
Definition ncols {A : Type} (m : matrix A) : nat := length (hd [] m).

(** [m[indslie, indslie]]; on a matrix that is not square numpy raises or
    broadcasts, the model reads 0 out of range and is meant for the
    documented shape (N, N). *)
Definition diagonal (m : matrix R) : list R :=
  map (fun k => nth k (nth k m []) 0) (seq 0 (ncols m)).

(** [c[indslie, indslie] = 0] *)
Definition zero_diagonal (c : matrix npfloat) : matrix npfloat :=
  map (fun ir =>
         map (fun jx => if Nat.eqb (fst ir) (fst jx) then Fin 0 else snd jx)
             (combine (seq 0 (length (snd ir))) (snd ir)))
      (combine (seq 0 (length c)) c).

Definition coulomb_matrix_to_inverse_distance_proton
    (coulomb_mat : matrix R) (unit_conversion : R) : matrix npfloat * list Z :=
  let z := diagonal coulomb_mat in
  let z := map (fun x => np_power (Fin (2 * x)) (1 / 2.4)) z in
  (* a = z[None, :], b = z[:, None], zz[i][j] = a[0][j] * b[i][0] *)
  let zz := map (fun b => map (fun a => fmul a b) z) z in
  let c := zip_with (zip_with (fun x d => fdiv (Fin x) d)) coulomb_mat zz in
  let c := zero_diagonal c in
  let c := map (map (fun x => fdiv x (Fin unit_conversion))) c in
  let z := map (fun x => astype_int (np_round x)) z in
  (c, z).

(** A square N x N matrix, the shape the decoder is documented for. *)
Definition square {A : Type} (n : nat) (m : matrix A) : Prop :=
  length m = n /\ Forall (fun row => length row = n) m.

(** ** make_rotation_matrix *)

Definition fvec3 : Type := (npfloat * npfloat * npfloat)%type.
Definition fmat3 : Type := (fvec3 * fvec3 * fvec3)%type.

Definition vec3 : Type := (R * R * R)%type.
Definition mat3 : Type := (vec3 * vec3 * vec3)%type.

Definition make_rotation_matrix (vector : vec3) (angle : R) : result fmat3 :=
  let '(v0, v1, v2) := vector in
  let angle := angle / 180 * PI in
  let norm := sqrt (v0 * v0 + v1 * v1 + v2 * v2) in
  let d0 := fdiv (Fin v0) (Fin norm) in
  let d1 := fdiv (Fin v1) (Fin norm) in
  let d2 := fdiv (Fin v2) (Fin norm) in
  let c := Fin (cos angle) in
  let s := Fin (sin angle) in
  let omc := Fin (1 - cos angle) in
  let m00 := fadd (fmul (fsq d0) omc) c in
  let m11 := fadd (fmul (fsq d1) omc) c in
  let m22 := fadd (fmul (fsq d2) omc) c in
  let m01 := fsub (fmul (fmul d0 d1) omc) (fmul d2 s) in
  let m10 := fadd (fmul (fmul d0 d1) omc) (fmul d2 s) in
  let m02 := fadd (fmul (fmul d0 d2) omc) (fmul d1 s) in
  let m20 := fsub (fmul (fmul d0 d2) omc) (fmul d1 s) in
  let m12 := fsub (fmul (fmul d1 d2) omc) (fmul d0 s) in
  let m21 := fadd (fmul (fmul d1 d2) omc) (fmul d0 s) in
  ret ((m00, m01, m02), (m10, m11, m12), (m20, m21, m22)).

(** The matrix that holds nan everywhere. *)
Definition nan_matrix : fmat3 :=
  ((NaN, NaN, NaN), (NaN, NaN, NaN), (NaN, NaN, NaN)).

(** ** Vectors and 3 x 3 matrices over the reals *)

Definition ivec3 : Type := (Z * Z * Z)%type.

Definition vadd (u v : vec3) : vec3 :=
  let '(a, b, c) := u in let '(x, y, z) := v in (a + x, b + y, c + z).

Definition vsub (u v : vec3) : vec3 :=
  let '(a, b, c) := u in let '(x, y, z) := v in (a - x, b - y, c - z).

Definition vscale (k : R) (u : vec3) : vec3 :=
  let '(a, b, c) := u in (k * a, k * b, k * c).

Definition vdot (u v : vec3) : R :=
  let '(a, b, c) := u in let '(x, y, z) := v in a * x + b * y + c * z.

(** [np.sqrt(np.sum(np.square(v), axis=-1))] *)
Definition vnorm (u : vec3) : R :=
  let '(a, b, c) := u in sqrt (a * a + b * b + c * c).

Definition vzero : vec3 := (0, 0, 0).

Definition transpose (m : mat3) : mat3 :=
  let '((a, b, c), (d, e, f), (g, h, i)) := m in
  ((a, d, g), (b, e, h), (c, f, i)).

(** [np.dot(m, v)] *)
Definition mat_vec (m : mat3) (v : vec3) : vec3 :=
  let '(r0, r1, r2) := m in (vdot r0 v, vdot r1 v, vdot r2 v).

(** [np.dot(v, m)]: the combination of the rows of [m] with weights [v]. *)
Definition vec_mat (v : vec3) (m : mat3) : vec3 :=
  let '(a, b, c) := v in
  let '(r0, r1, r2) := m in
  vadd (vadd (vscale a r0) (vscale b r1)) (vscale c r2).

(** [np.dot(m, n)] *)
Definition mat_mul (m n : mat3) : mat3 :=
  let '(r0, r1, r2) := m in (vec_mat r0 n, vec_mat r1 n, vec_mat r2 n).

Definition mat_add (m n : mat3) : mat3 :=
  let '(r0, r1, r2) := m in
  let '(s0, s1, s2) := n in (vadd r0 s0, vadd r1 s1, vadd r2 s2).

Definition mat_zero : mat3 := (vzero, vzero, vzero).

(** Outer product [u v^T]. *)
Definition outer (u v : vec3) : mat3 :=
  let '(a, b, c) := u in (vscale a v, vscale b v, vscale c v).

(** [np.linalg.det] *)
Definition det3 (m : mat3) : R :=
  let '((a, b, c), (d, e, f), (g, h, i)) := m in
  a * (e * i - f * h) - b * (d * i - f * g) + c * (d * h - e * g).

Definition adjugate (m : mat3) : mat3 :=
  let '((a, b, c), (d, e, f), (g, h, i)) := m in
  ((e * i - f * h, c * h - b * i, b * f - c * e),
   (f * g - d * i, a * i - c * g, c * d - a * f),
   (d * h - e * g, b * g - a * h, a * e - b * d)).

(** [np.linalg.inv]: raises on a singular matrix, else the inverse. *)
Definition inv3 (m : mat3) : result mat3 :=
  if Req_dec_T (det3 m) 0 then raise LinAlgError
  else
    let '(r0, r1, r2) := adjugate m in
    ret (vscale (/ det3 m) r0, vscale (/ det3 m) r1, vscale (/ det3 m) r2).

(** ** rigid_transform *)

(** What the function prints. *)
Inductive msg : Type :=
| WarnDet (d : R)     (* "Warning: det(R)<0, det(R)=", d *)
| Correcting.         (* "Correcting R..." *)

Definition vsum (l : list vec3) : vec3 := fold_right vadd vzero l.

(** [np.mean] over the points (of a cloud with at least one point; numpy
    gives nan for an empty one). *)
Definition centroid (a : list vec3) : vec3 := vscale (/ INR (length a)) (vsum a).

(** [np.dot(am, np.transpose(bm))] for the 3 x N arrays [am], [bm], kept
    here as the lists of their N columns. *)
Definition cross_covariance (am bm : list vec3) : result mat3 :=
  if Nat.eqb (length am) (length bm)
  then ret (fold_right mat_add mat_zero (zip_with outer am bm))
  else raise ValueError.

(** [vt[-1, :] *= -1] *)
Definition negate_last_row (vt : mat3) : mat3 :=
  let '(r0, r1, r2) := vt in (r0, r1, vscale (-1) r2).

Definition rigid_transform
    (svd : mat3 -> mat3 * vec3 * mat3)
    (a b : list vec3) (correct_reflection : bool)
  : result (list msg * (list vec3 * mat3 * vec3)) :=
  let centroid_a := centroid a in
  let centroid_b := centroid b in
  let am := map (fun p => vsub p centroid_a) a in
  let bm := map (fun p => vsub p centroid_b) b in
  h <- cross_covariance am bm ;;
  let '(u, s, vt) := svd h in
  let r := mat_mul (transpose vt) (transpose u) in
  let d := det3 r in
  let '(out, r) :=
    if Rltb d 0 then
      if correct_reflection
      then ([WarnDet d; Correcting],
            mat_mul (transpose (negate_last_row vt)) (transpose u))
      else ([WarnDet d], r)
    else ([], r) in
  let bout := map (fun p => vadd (mat_vec r p) centroid_b) am in
  let t := vsub centroid_b (mat_vec r centroid_a) in
  ret (out, (bout, r, t)).

(** ** range_neighbour_lattice *)

Definition ivec_R (k : ivec3) : vec3 :=
  let '(x, y, z) := k in (IZR x, IZR y, IZR z).

Definition ivec_opp (k : ivec3) : ivec3 :=
  let '(x, y, z) := k in ((- x)%Z, (- y)%Z, (- z)%Z).

Definition ivec_zero : ivec3 := (0%Z, 0%Z, 0%Z).

Definition ivec_eqb (k l : ivec3) : bool :=
  let '(x, y, z) := k in
  let '(a, b, c) := l in
  (Z.eqb x a && Z.eqb y b && Z.eqb z c)%bool.

(** The nested [mesh_grid_list]: [np.meshgrid] with its default 'xy'
    indexing gives arrays of shape (len y, len x, len z); transposing the
    stack and reshaping to (-1, 3) walks z slowest, then x, then y. *)
Definition mesh_grid_list (bound_left bound_right : ivec3) : list ivec3 :=
  let '(l0, l1, l2) := bound_left in
  let '(r0, r1, r2) := bound_right in
  let xs := arange l0 (r0 + 1) in
  let ys := arange l1 (r1 + 1) in
  let zs := arange l2 (r2 + 1) in
  flat_map (fun z => flat_map (fun x => map (fun y => (x, y, z)) ys) xs) zs.

(** The nested [remove_self_loops]: [x[m]] with [m] the negated identity
    mask, reshaped to (n, n-1, ...), for [x] of shape (n, n, ...) as at its
    three call sites.  For n = 0 the new shape has the entry -1 next to a
    zero and numpy refuses the reshape. *)
Definition remove_self_loops {A : Type} (x : matrix A) : result (matrix A) :=
  match x with
  | [] => raise ValueError
  | _ =>
      ret (map (fun ir =>
                  mask_select (snd ir)
                    (map (fun j => negb (Nat.eqb (fst ir) j)) (seq 0 (length x))))
               (combine (seq 0 (length x)) x))
  end.

(** [max_distance + max_radius_cell]: Python raises on [None + float]. *)
Definition add_max_distance (max_distance : option R) (x : R) : result R :=
  match max_distance with
  | Some d => ret (d + x)
  | None => raise TypeError
  end.

(** [max_radius_cell]: the largest distance of a lattice vector from the
    centre of the cell, [np.sum(lattice_row, axis=0) / 2]. *)
Definition max_radius_cell (lattice_row : mat3) : R :=
  let '(r0, r1, r2) := lattice_row in
  let center_unit_cell := vscale (/ 2) (vadd (vadd r0 r1) r2) in
  Rmax (Rmax (vnorm (vsub r0 center_unit_cell))
             (vnorm (vsub r1 center_unit_cell)))
       (vnorm (vsub r2 center_unit_cell)).

(** [np.sum(np.abs(m), axis=1)] *)
Definition abs_row_sums (m : mat3) : vec3 :=
  let '((a, b, c), (d, e, f), (g, h, i)) := m in
  (Rabs a + Rabs b + Rabs c, Rabs d + Rabs e + Rabs f, Rabs g + Rabs h + Rabs i).

(** [np.ceil(v).astype("int")] *)
Definition ceil_vec (v : vec3) : ivec3 :=
  let '(a, b, c) := v in (Zceil a, Zceil b, Zceil c).

(** The three parallel output arrays [out_indices, out_images, out_dist].
    The image array holds integral values (as floats, after the
    concatenation with the zero array of the centre cell). *)
Definition neighbours : Type := (list (nat * nat) * list ivec3 * list R)%type.

Definition range_neighbour_lattice
    (argsort : list R -> list nat)
    (coordinates : list vec3) (lattice : mat3)
    (max_distance : option R) (self_loops sort_distance : bool)
  : result neighbours :=
  let lattice_col := transpose lattice in
  let lattice_row := lattice in
  let n := length coordinates in
  let node_index := seq 0 n in
  let max_radius := max_radius_cell lattice_row in
  (* bounding box of the real space unit cell in index space *)
  inv <- inv3 lattice_col ;;
  reach <- add_max_distance max_distance max_radius ;;
  let bounding_box_index := ceil_vec (vscale reach (abs_row_sums inv)) in
  let bounding_grid :=
    mesh_grid_list (ivec_opp bounding_box_index) bounding_box_index in
  let bounding_grid :=
    mask_select bounding_grid
      (map (fun k => negb (ivec_eqb k ivec_zero)) bounding_grid) in
  let bounding_grid_real :=
    map (fun k => vec_mat (ivec_R k) lattice_row) bounding_grid in
  let dist_centers := map vnorm bounding_grid_real in
  let mask_centers := map (fun d => Rleb d reach) dist_centers in
  let images := mask_select bounding_grid mask_centers in
  let shifts := mask_select bounding_grid_real mask_centers in
  let num_images := length images in
  (* (N*C) x 3 arrays *)
  let coord_images :=
    flat_map (fun x => map (fun s => vadd x s) shifts) coordinates in
  let images := flat_map (fun _ => images) coordinates in
  let indices := flat_map (fun i => repeat i num_images) node_index in
  (* centre cell *)
  let center_indices :=
    map (fun i => map (fun j => (i, j)) node_index) node_index in
  let center_dist :=
    map (fun xi => map (fun xj => vsub xj xi) coordinates) coordinates in
  let center_image :=
    map (fun _ => map (fun _ => ivec_zero) coordinates) coordinates in
  center <-
    (if self_loops then ret (center_indices, center_image, center_dist)
     else
       ci <- remove_self_loops center_indices ;;
       cm <- remove_self_loops center_image ;;
       cd <- remove_self_loops center_dist ;;
       ret (ci, cm, cd)) ;;
  let '(center_indices, center_image, center_dist) := center in
  (* arrays of N x (N*C) *)
  let dist := map (fun xi => map (fun c => vsub c xi) coord_images) coordinates in
  let dist_indices := map (fun i => map (fun j => (i, j)) indices) node_index in
  let dist_images := map (fun _ => images) node_index in
  (* centre image in front *)
  let dist_indices := zip_with (@app _) center_indices dist_indices in
  let dist_images := zip_with (@app _) center_image dist_images in
  let dist := zip_with (@app _) center_dist dist in
  let dist := map (map vnorm) dist in
  let arg_sort := map argsort dist in
  let dist_sort :=
    if sort_distance then zip_with (take_along 0) dist arg_sort else dist in
  let dist_indices_sort :=
    if sort_distance then zip_with (take_along (0%nat, 0%nat)) dist_indices arg_sort
    else dist_indices in
  let dist_images_sort :=
    if sort_distance then zip_with (take_along ivec_zero) dist_images arg_sort
    else dist_images in
  d <- match max_distance with Some d => ret d | None => raise TypeError end ;;
  let mask := map (map (fun x => Rleb x d)) dist_sort in
  let out_dist := concat (zip_with mask_select dist_sort mask) in
  let out_images := concat (zip_with mask_select dist_images_sort mask) in
  let out_indices := concat (zip_with mask_select dist_indices_sort mask) in
  ret (out_indices, out_images, out_dist).

(** The output read as one entry per neighbour. *)
Definition entry : Type := (nat * nat * ivec3 * R)%type.

Definition entries (out : neighbours) : list entry :=
  let '(idx, img, dst) := out in combine (combine idx img) dst.

Definition e_center (e : entry) : nat := fst (fst (fst e)).
Definition e_neighbour (e : entry) : nat := snd (fst (fst e)).
Definition e_image (e : entry) : ivec3 := snd (fst e).
Definition e_dist (e : entry) : R := snd e.

(** ** A sort to run the search with

    [np.argsort] is left open above (its default quicksort does not fix the
    order of ties); this insertion sort is one instance. *)

Fixpoint insert_index (l : list R) (k : nat) (acc : list nat) : list nat :=
  match acc with
  | [] => [k]
  | j :: acc' =>
      if Rleb (nth k l 0) (nth j l 0) then k :: acc
      else j :: insert_index l k acc'
  end.

Definition insertion_argsort (l : list R) : list nat :=
  fold_right (insert_index l) [] (seq 0 (length l)).

(** What is asked of [np.argsort]: a permutation of the positions that
    puts the values in non-decreasing order. *)
Definition argsort_spec (argsort : list R -> list nat) : Prop :=
  forall l : list R,
    Permutation (argsort l) (seq 0 (length l)) /\
    Sorted Rle (take_along 0 l (argsort l)).

(** ** Auxiliary notions and example inputs *)

(** The charge recovered from the diagonal entry [k], before rounding:
    the value of [z] after [np.power] in the decoder. *)
Definition recovered_charge (coulomb_mat : matrix R) (k : nat) : npfloat :=
  np_power (Fin (2 * nth k (nth k coulomb_mat []) 0)) (1 / 2.4).

(** A Coulomb matrix with a zero on the diagonal. *)
Definition coulomb_with_zero : matrix R := [[0; 1]; [1; 1 / 2]].

(** A 1 x 1 Coulomb matrix whose recovered charge is 2.5. *)
Definition coulomb_tie : matrix R := [[Rpower (5 / 2) 2.4 / 2]].

(** The identity, also the unit cubic lattice. *)
Definition mat_id : mat3 := ((1, 0, 0), (0, 1, 0), (0, 0, 1)).

(** [np.linalg.svd] is left open in [rigid_transform].  To run an example:
    on a diagonal matrix with a non-negative, decreasing diagonal the
    decomposition is the identity on both sides. *)
Definition svd_diagonal (h : mat3) : mat3 * vec3 * mat3 :=
  let '((a, _, _), (_, e, _), (_, _, i)) := h in (mat_id, (a, e, i), mat_id).

(** A flat cell of volume 10^-3: the unit square with a third vector of
    length 10^-3. *)
Definition flat_lattice : mat3 := ((1, 0, 0), (0, 1, 0), (0, 0, / 1000)).

(** A lattice with a zero row or a zero column: one lattice vector is the
    zero vector, or one coordinate is zero in all three vectors.  On
    these the elimination of [np.linalg.inv] meets a pivot that is exactly
    zero, whatever the rounding. *)
Definition zero_row_or_column (lattice : mat3) : Prop :=
  let '((a, b, c), (d, e, f), (g, h, i)) := lattice in
  (a = 0 /\ b = 0 /\ c = 0) \/ (d = 0 /\ e = 0 /\ f = 0) \/
  (g = 0 /\ h = 0 /\ i = 0) \/
  (a = 0 /\ d = 0 /\ g = 0) \/ (b = 0 /\ e = 0 /\ h = 0) \/
  (c = 0 /\ f = 0 /\ i = 0).

(** Two lattice vectors and a zero vector. *)
Definition missing_vector_lattice : mat3 := ((1, 0, 0), (0, 1, 0), (0, 0, 0)).

(** Three lattice vectors in the plane z = 0. *)
Definition planar_lattice : mat3 := ((1, 0, 0), (1, 1, 0), (2, 1, 0)).

(** ** The neighbour list, entry by entry

    A description of the output of [range_neighbour_lattice] as a list of
    entries, one row per central node; [range_neighbour_lattice_rows]
    below proves that the three arrays of the code hold exactly these. *)

(** The nodes with their positions: [(i, coordinates[i])]. *)
Definition indexed (coordinates : list vec3) : list (nat * vec3) :=
  combine (seq 0 (length coordinates)) coordinates.

(** [max_distance + max_radius_cell] *)
Definition lattice_reach (lattice : mat3) (d : R) : R := d + max_radius_cell lattice.

(** [bounding_box_index] *)
Definition bounding_box (lattice inv : mat3) (d : R) : ivec3 :=
  ceil_vec (vscale (lattice_reach lattice d) (abs_row_sums inv)).

(** The periodic images kept after the coarse prune, in grid order. *)
Definition lattice_images (lattice inv : mat3) (d : R) : list ivec3 :=
  let bbox := bounding_box lattice inv d in
  filter (fun k => Rleb (vnorm (vec_mat (ivec_R k) lattice)) (lattice_reach lattice d))
    (filter (fun k => negb (ivec_eqb k ivec_zero))
       (mesh_grid_list (ivec_opp bbox) bbox)).

(** The nodes of the centre cell paired with the central node [i]: all of
    them with [self_loops], all but [i] itself without. *)
Definition center_kept (coordinates : list vec3) (self_loops : bool) (i : nat)
  : list (nat * vec3) :=
  filter (fun jx => self_loops || negb (Nat.eqb i (fst jx))) (indexed coordinates).

(** Candidates of the centre cell for the central node [i] at [xi]. *)
Definition center_candidates (self_loops : bool) (coordinates : list vec3)
    (i : nat) (xi : vec3) : list entry :=
  map (fun jx => (i, fst jx, ivec_zero, vnorm (vsub (snd jx) xi)))
      (center_kept coordinates self_loops i).

(** Candidates in the periodic images: node major, image minor. *)
Definition image_candidates (lattice : mat3) (images : list ivec3)
    (coordinates : list vec3) (i : nat) (xi : vec3) : list entry :=
  flat_map (fun jx =>
              map (fun k => (i, fst jx, k,
                             vnorm (vsub (vadd (snd jx) (vec_mat (ivec_R k) lattice)) xi)))
                  images)
           (indexed coordinates).

Definition candidates (self_loops : bool) (lattice : mat3) (images : list ivec3)
    (coordinates : list vec3) (i : nat) (xi : vec3) : list entry :=
  center_candidates self_loops coordinates i xi ++
  image_candidates lattice images coordinates i xi.

Definition entry_zero : entry := (0%nat, 0%nat, ivec_zero, 0).

(** One row: sorted if asked, then cut at [d]. *)
Definition row_sorted (argsort : list R -> list nat) (sort_distance : bool)
    (cands : list entry) : list entry :=
  if sort_distance
  then take_along entry_zero cands (argsort (map e_dist cands))
  else cands.

Definition row_output (argsort : list R -> list nat) (sort_distance : bool)
    (d : R) (cands : list entry) : list entry :=
  filter (fun e => Rleb (e_dist e) d) (row_sorted argsort sort_distance cands).

Definition neighbour_rows (argsort : list R -> list nat)
    (coordinates : list vec3) (lattice inv : mat3) (d : R)
    (self_loops sort_distance : bool) : list (list entry) :=
  map (fun ix =>
         row_output argsort sort_distance d
           (candidates self_loops lattice (lattice_images lattice inv d)
              coordinates (fst ix) (snd ix)))
      (indexed coordinates).

(** The three parallel arrays that hold the entries [l]. *)
Definition of_entries (l : list entry) : neighbours :=
  (map (fun e : entry => fst (fst e)) l, map e_image l, map e_dist l).

(** A same-cell self pair: [i == j] in the central image. *)
Definition is_self_loop (e : entry) : bool :=
  Nat.eqb (e_center e) (e_neighbour e) && ivec_eqb (e_image e) ivec_zero.

(** The candidates within the cutoff, row by row, before any sorting. *)
Definition within_cutoff (coordinates : list vec3) (lattice inv : mat3) (d : R)
    (self_loops : bool) : list entry :=
  flat_map (fun ix =>
              filter (fun e => Rleb (e_dist e) d)
                (candidates self_loops lattice (lattice_images lattice inv d)
                   coordinates (fst ix) (snd ix)))
           (indexed coordinates).

(** ** The simple cubic lattice *)

Definition cubic_lattice (a : R) : mat3 := ((a, 0, 0), (0, a, 0), (0, 0, a)).

(** The six face images, in the order of the grid. *)
Definition face_images : list ivec3 :=
  [(0, 0, -1); (-1, 0, 0); (0, -1, 0); (0, 1, 0); (1, 0, 0); (0, 0, 1)]%Z.

Definition face_neighbours (a : R) : list entry :=
  map (fun k => (0%nat, 0%nat, k, a)) face_images.

(** Squared length of an image in units of the lattice constant. *)
Definition norm_sq (k : ivec3) : Z :=
  let '(x, y, z) := k in (x * x + y * y + z * z)%Z.

(** ** Real matrices as arrays of float64 *)

Definition lift_vec (v : vec3) : fvec3 :=
  let '(a, b, c) := v in (Fin a, Fin b, Fin c).

Definition lift_mat (m : mat3) : fmat3 :=
  let '(r0, r1, r2) := m in (lift_vec r0, lift_vec r1, lift_vec r2).

(** The entries [make_rotation_matrix] computes from the normalised axis
    [d] and the angle [theta] in radians. *)
Definition rotation_entries (d : vec3) (theta : R) : mat3 :=
  let '(d0, d1, d2) := d in
  let c := cos theta in
  let s := sin theta in
  ((d0 * d0 * (1 - c) + c, d0 * d1 * (1 - c) - d2 * s, d0 * d2 * (1 - c) + d1 * s),
   (d0 * d1 * (1 - c) + d2 * s, d1 * d1 * (1 - c) + c, d1 * d2 * (1 - c) - d0 * s),
   (d0 * d2 * (1 - c) - d1 * s, d1 * d2 * (1 - c) + d0 * s, d2 * d2 * (1 - c) + c)).

(** [vector / norm] *)
Definition direction (vector : vec3) : vec3 :=
  let '(v0, v1, v2) := vector in
  (v0 / vnorm vector, v1 / vnorm vector, v2 / vnorm vector).

(** The Coulomb matrix of two atoms of charge 1 at inverse distance 1/2:
    the diagonal is 1^2.4 / 2. *)
Definition coulomb_h2 : matrix R :=
  [[Rpower 1 2.4 / 2; 1 / 2]; [1 / 2; Rpower 1 2.4 / 2]].

(** ** rotate_to_principle_axis

    For clouds in three dimensions (the function takes any dimension p;
    the matrices here are 3 x 3).  [np.linalg.svd] is a parameter, as in
    [rigid_transform]. *)

(** [np.dot(sm.T, sm)] for the N x 3 array [sm], given by its rows. *)
Definition scatter_matrix (sm : list vec3) : mat3 :=
  fold_right mat_add mat_zero (map (fun p => outer p p) sm).

Definition rotate_to_principle_axis
    (svd : mat3 -> mat3 * vec3 * mat3) (coord : list vec3) : mat3 * list vec3 :=
  let centroid_c := centroid coord in
  let sm := map (fun p => vsub p centroid_c) coord in
  let zzt := scatter_matrix sm in
  let '(u, s, vh) := svd zzt in
  (* row k of np.dot(sm, vh.T) is vh applied to row k of sm *)
  let rotated := map (fun p => mat_vec vh p) sm in
  let rot_shift := map (fun p => vadd p centroid_c) rotated in
  (vh, rot_shift).

(** An orthogonal matrix: its transpose is its inverse. *)
Definition orthogonal (m : mat3) : Prop :=
  mat_mul m (transpose m) = mat_id /\ mat_mul (transpose m) m = mat_id.

(** What a singular value decomposition guarantees of its two factors. *)
Definition svd_orthogonal (svd : mat3 -> mat3 * vec3 * mat3) : Prop :=
  forall h : mat3, let '(u, s, vt) := svd h in orthogonal u /\ orthogonal vt.

(** Example clouds: two points on a line parallel to the x axis, for which
    the matrix handed to the decomposition is diagonal. *)
Definition cloud_a : list vec3 := [(1, 0, 0); (-1, 0, 0)].
Definition cloud_b : list vec3 := [(3, 1, 0); (1, 1, 0)].
Definition cloud_c : list vec3 := [(1, 2, 3); (3, 2, 3)].

(** The pair a neighbour entry stands for: central node, neighbour node and
    periodic image. *)
Definition e_key (e : entry) : nat * nat * ivec3 := fst e.

(** The displacement from the atom at [xi] to the image [k] of the atom at
    [xj]. *)
Definition displacement (lattice : mat3) (xi xj : vec3) (k : ivec3) : vec3 :=
  vsub (vadd xj (vec_mat (ivec_R k) lattice)) xi.

(** Two atoms in a cubic cell of constant [a], close to opposite faces. *)
Definition face_pair (a : R) : list vec3 := [(0.05 * a, 0, 0); (0.95 * a, 0, 0)].

(** ** coordinates_from_distance_matrix

    For one distance matrix of shape (N, N), as a list of rows.
    [np.linalg.svd] is a parameter. *)

(** The exceptions this function raises before the decomposition. *)
Inductive dm_exn : Type :=
| ZeroDivisionError   (* float division by zero: 1 / 2 / dim_in *)
| IndexError.         (* index out of bounds: di2[..., use_center] *)

(** [np.sum] of a row *)
Definition rsum (l : list R) : R := fold_right Rplus 0 l.

(** [m[..., j]] *)
Definition column (j : nat) (m : matrix R) : list R :=
  map (fun row => nth j row 0) m.

(** Python's index into an axis of length [n]: negative indices count from
    the end. *)
Definition py_index (n : nat) (c : Z) : option nat :=
  if ((0 <=? c) && (c <? Z.of_nat n))%Z then Some (Z.to_nat c)
  else if ((- Z.of_nat n <=? c) && (c <? 0))%Z then Some (Z.to_nat (Z.of_nat n + c))
  else None.

(** [(a[None, :] + a[:, None] - di2) / 2] *)
Definition double_center (a : list R) (di2 : matrix R) : matrix R :=
  zip_with (fun da row => zip_with (fun db x => (db + da - x) / 2) a row) a di2.

(** The matrix [mat_m] handed to the decomposition. *)
Definition mat_m (distance : matrix R) (use_center : option Z) : dm_exn + matrix R :=
  let dim_in := ncols distance in
  let di2 := map (map (fun x => x * x)) distance in
  match use_center with
  | None =>
      if Nat.eqb dim_in 0 then inl ZeroDivisionError
      else
        let row_sums := map rsum di2 in
        let di02 :=
          map (fun s => 1 / 2 / INR dim_in / INR dim_in *
                        (2 * INR dim_in * s - rsum row_sums)) row_sums in
        inr (double_center di02 di2)
  | Some c =>
      match py_index dim_in c with
      | Some j => inr (double_center (column j di2) di2)
      | None => inl IndexError
      end
  end.

(** [np.diag(s)] *)
Definition np_diag (s : list R) : matrix R :=
  map (fun i => map (fun j => if Nat.eqb i j then nth i s 0 else 0)
                    (seq 0 (length s)))
      (seq 0 (length s)).

(** [np.matmul(a, b)] for matrices of matching shapes. *)
Definition matmul (a b : matrix R) : matrix R :=
  map (fun row =>
         map (fun j => rsum (zip_with Rmult row (column j b))) (seq 0 (ncols b)))
      a.

Definition coordinates_from_distance_matrix
    (svd : matrix R -> matrix R * list R * matrix R)
    (distance : matrix R) (use_center : option Z) (dim : nat)
  : dm_exn + matrix R :=
  match mat_m distance use_center with
  | inl e => inl e
  | inr m =>
      let '(u, s, v) := svd m in
      let vecs := matmul u (map (map sqrt) (np_diag s)) in
      inr (map (firstn dim) vecs)
  end.

(** The distance matrix of a cloud: [D[i][j] = |r_i - r_j|]. *)
Definition distance_matrix (x : list vec3) : matrix R :=
  map (fun xa => map (fun xb => vnorm (vsub xa xb)) x) x.

(** Euclidean distance between two rows of coordinates. *)
Definition row_distance (p q : list R) : R :=
  sqrt (rsum (zip_with (fun a b => (a - b) * (a - b)) p q)).

(** A decomposition [u diag(s) u^T] of the N x N matrix [m] with singular
    values that are not negative and vanish from position [dim] on: what
    the decomposition gives for the matrix of a cloud of rank at most
    [dim]. *)
Definition decomposes (n dim : nat) (m u : matrix R) (s : list R) : Prop :=
  square n u /\ length s = n /\
  (forall k, (k < n)%nat -> 0 <= nth k s 0) /\
  (forall k, (dim <= k < n)%nat -> nth k s 0 = 0) /\
  (forall a b, (a < n)%nat -> (b < n)%nat ->
     rsum (map (fun k => nth k (nth a u []) 0 * nth k s 0 * nth k (nth b u []) 0)
               (seq 0 n)) =
     nth b (nth a m []) 0).

(** The point the matrix [mat_m] is centred on: the centroid of the cloud,
    or the atom [use_center]. *)
Definition center_point (x : list vec3) (use_center : option Z) : option vec3 :=
  match use_center with
  | None => if Nat.eqb (length x) 0 then None else Some (centroid x)
  | Some c => option_map (fun j => nth j x vzero) (py_index (length x) c)
  end.

(** Example: two atoms at distance 2, centred on the first; the matrix
    handed to the decomposition is [[0, 0], [0, 4]]. *)
Definition two_atoms : list vec3 := [(0, 0, 0); (2, 0, 0)].

Definition svd_two_atoms (m : matrix R) : matrix R * list R * matrix R :=
  ([[0; 1]; [1; 0]], [4; 0], [[0; 1]; [1; 0]]).

Definition two_atoms_mat : matrix R :=
  double_center
    (column 0 (map (map (fun d => d * d)) (distance_matrix two_atoms)))
    (map (map (fun d => d * d)) (distance_matrix two_atoms)).

(** ** The neighbour search in float64

    The same lines of [range_neighbour_lattice] over binary64 numbers, to
    see what rounding does at the cutoff.  Every operation of the source is
    one rounded operation here; a sum over an axis of length three adds
    from left to right, and so does the product with the lattice.
    [np.linalg.inv] (LAPACK's elimination) and [np.argsort] are parameters.
    The integers of the image grid are unbounded; numpy's int64 differs
    only when the bounding box does not fit, on an infinite or NaN box. *)

Module F64.

Definition vec3 : Type := (PrimFloat.float * PrimFloat.float * PrimFloat.float)%type.
Definition mat3 : Type := (vec3 * vec3 * vec3)%type.

(** An int64 of the image grid read as a float64. *)
Definition of_int (z : Z) : PrimFloat.float :=
  if (z <? 0)%Z then PrimFloat.opp (PrimFloat.of_uint63 (Uint63.of_Z (- z)))
  else PrimFloat.of_uint63 (Uint63.of_Z z).

Definition ivec_F (k : ivec3) : vec3 :=
  let '(x, y, z) := k in (of_int x, of_int y, of_int z).

Definition vadd (u v : vec3) : vec3 :=
  let '(a, b, c) := u in
  let '(x, y, z) := v in
  (PrimFloat.add a x, PrimFloat.add b y, PrimFloat.add c z).

Definition vsub (u v : vec3) : vec3 :=
  let '(a, b, c) := u in
  let '(x, y, z) := v in
  (PrimFloat.sub a x, PrimFloat.sub b y, PrimFloat.sub c z).

(** [np.sqrt(np.sum(np.square(u), axis=-1))] *)
Definition vnorm (u : vec3) : PrimFloat.float :=
  let '(a, b, c) := u in
  PrimFloat.sqrt
    (PrimFloat.add (PrimFloat.add (PrimFloat.mul a a) (PrimFloat.mul b b))
       (PrimFloat.mul c c)).

Definition transpose (m : mat3) : mat3 :=
  let '((a, b, c), (d, e, f), (g, h, i)) := m in
  ((a, d, g), (b, e, h), (c, f, i)).

(** [np.dot(v, m)] for a row vector. *)
Definition vec_mat (v : vec3) (m : mat3) : vec3 :=
  let '(x, y, z) := v in
  let '((a, b, c), (d, e, f), (g, h, i)) := m in
  let dot3 p q r :=
    PrimFloat.add (PrimFloat.add (PrimFloat.mul x p) (PrimFloat.mul y q))
      (PrimFloat.mul z r) in
  (dot3 a d g, dot3 b e h, dot3 c f i).

(** [np.amax] of two values: a NaN wins. *)
Definition fmax (x y : PrimFloat.float) : PrimFloat.float :=
  if PrimFloat.is_nan x then x
  else if PrimFloat.is_nan y then y
  else if PrimFloat.ltb x y then y else x.

Definition max_radius_cell (lattice_row : mat3) : PrimFloat.float :=
  let '(r0, r1, r2) := lattice_row in
  let '(s0, s1, s2) := vadd (vadd r0 r1) r2 in
  let center_unit_cell :=
    (PrimFloat.div s0 2%float, PrimFloat.div s1 2%float, PrimFloat.div s2 2%float) in
  fmax (fmax (vnorm (vsub r0 center_unit_cell))
             (vnorm (vsub r1 center_unit_cell)))
       (vnorm (vsub r2 center_unit_cell)).

(** [np.sum(np.abs(m), axis=1)] *)
Definition abs_row_sums (m : mat3) : vec3 :=
  let '((a, b, c), (d, e, f), (g, h, i)) := m in
  let sum3 p q r :=
    PrimFloat.add (PrimFloat.add (PrimFloat.abs p) (PrimFloat.abs q))
      (PrimFloat.abs r) in
  (sum3 a b c, sum3 d e f, sum3 g h i).

(** [np.ceil(x).astype("int")] for one value: the least integer not below
    [x]; what does not fit int64 (also NaN and the infinities) becomes the
    least int64. *)
Definition ceil_int (x : PrimFloat.float) : Z :=
  match FloatOps.Prim2SF x with
  | SpecFloat.S754_zero _ => 0%Z
  | SpecFloat.S754_finite s m e =>
      let n := if s then Z.neg m else Z.pos m in
      let c := if (0 <=? e)%Z then (n * 2 ^ e)%Z else (- ((- n) / 2 ^ (- e)))%Z in
      if ((int_min <=? c) && (c <=? int_max))%Z then c else int_min
  | _ => int_min
  end.

Definition ceil_vec (v : vec3) : ivec3 :=
  let '(a, b, c) := v in (ceil_int a, ceil_int b, ceil_int c).

Definition add_max_distance (max_distance : option PrimFloat.float) (x : PrimFloat.float) : result PrimFloat.float :=
  match max_distance with
  | Some d => ret (PrimFloat.add d x)
  | None => raise TypeError
  end.

Definition neighbours : Type := (list (nat * nat) * list ivec3 * list PrimFloat.float)%type.

Definition range_neighbour_lattice
    (inv : mat3 -> result mat3) (argsort : list PrimFloat.float -> list nat)
    (coordinates : list vec3) (lattice : mat3)
    (max_distance : option PrimFloat.float) (self_loops sort_distance : bool)
  : result neighbours :=
  let lattice_col := transpose lattice in
  let lattice_row := lattice in
  let n := length coordinates in
  let node_index := seq 0 n in
  let max_radius := max_radius_cell lattice_row in
  (* bounding box of the real space unit cell in index space *)
  inverse <- inv lattice_col ;;
  reach <- add_max_distance max_distance max_radius ;;
  let '(b0, b1, b2) := abs_row_sums inverse in
  let bounding_box_index :=
    ceil_vec (PrimFloat.mul b0 reach, PrimFloat.mul b1 reach, PrimFloat.mul b2 reach) in
  let bounding_grid :=
    mesh_grid_list (ivec_opp bounding_box_index) bounding_box_index in
  let bounding_grid :=
    mask_select bounding_grid
      (map (fun k => negb (ivec_eqb k ivec_zero)) bounding_grid) in
  let bounding_grid_real :=
    map (fun k => vec_mat (ivec_F k) lattice_row) bounding_grid in
  let dist_centers := map vnorm bounding_grid_real in
  let mask_centers := map (fun d => PrimFloat.leb d reach) dist_centers in
  let images := mask_select bounding_grid mask_centers in
  let shifts := mask_select bounding_grid_real mask_centers in
  let num_images := length images in
  (* (N*C) x 3 arrays *)
  let coord_images :=
    flat_map (fun x => map (fun s => vadd x s) shifts) coordinates in
  let images := flat_map (fun _ => images) coordinates in
  let indices := flat_map (fun i => repeat i num_images) node_index in
  (* centre cell *)
  let center_indices :=
    map (fun i => map (fun j => (i, j)) node_index) node_index in
  let center_dist :=
    map (fun xi => map (fun xj => vsub xj xi) coordinates) coordinates in
  let center_image :=
    map (fun _ => map (fun _ => ivec_zero) coordinates) coordinates in
  center <-
    (if self_loops then ret (center_indices, center_image, center_dist)
     else
       ci <- remove_self_loops center_indices ;;
       cm <- remove_self_loops center_image ;;
       cd <- remove_self_loops center_dist ;;
       ret (ci, cm, cd)) ;;
  let '(center_indices, center_image, center_dist) := center in
  (* arrays of N x (N*C) *)
  let dist := map (fun xi => map (fun c => vsub c xi) coord_images) coordinates in
  let dist_indices := map (fun i => map (fun j => (i, j)) indices) node_index in
  let dist_images := map (fun _ => images) node_index in
  (* centre image in front *)
  let dist_indices := zip_with (@app _) center_indices dist_indices in
  let dist_images := zip_with (@app _) center_image dist_images in
  let dist := zip_with (@app _) center_dist dist in
  let dist := map (map vnorm) dist in
  let arg_sort := map argsort dist in
  let dist_sort :=
    if sort_distance then zip_with (take_along PrimFloat.zero) dist arg_sort else dist in
  let dist_indices_sort :=
    if sort_distance then zip_with (take_along (0%nat, 0%nat)) dist_indices arg_sort
    else dist_indices in
  let dist_images_sort :=
    if sort_distance then zip_with (take_along ivec_zero) dist_images arg_sort
    else dist_images in
  d <- match max_distance with Some d => ret d | None => raise TypeError end ;;
  let mask := map (map (fun x => PrimFloat.leb x d)) dist_sort in
  let out_dist := concat (zip_with mask_select dist_sort mask) in
  let out_images := concat (zip_with mask_select dist_images_sort mask) in
  let out_indices := concat (zip_with mask_select dist_indices_sort mask) in
  ret (out_indices, out_images, out_dist).

(** One entry per neighbour: (i, j, image, distance). *)
Definition entry : Type := (nat * nat * ivec3 * PrimFloat.float)%type.

Definition entries (out : neighbours) : list entry :=
  let '(idx, img, dst) := out in combine (combine idx img) dst.

(** A sort to run the search with, as in exact arithmetic. *)
Fixpoint insert_index (l : list PrimFloat.float) (k : nat) (acc : list nat) : list nat :=
  match acc with
  | [] => [k]
  | j :: acc' =>
      if PrimFloat.leb (nth k l PrimFloat.zero) (nth j l PrimFloat.zero) then k :: acc
      else j :: insert_index l k acc'
  end.

Definition insertion_argsort (l : list PrimFloat.float) : list nat :=
  fold_right (insert_index l) [] (seq 0 (length l)).

(** [np.linalg.inv] on a diagonal matrix: nothing is eliminated, the
    pivots are the diagonal entries (a zero pivot is the error) and the
    unit vectors are divided by them. *)
Definition inv_diagonal (m : mat3) : result mat3 :=
  let '((a, _, _), (_, e, _), (_, _, i)) := m in
  if (PrimFloat.eqb a 0%float || PrimFloat.eqb e 0%float || PrimFloat.eqb i 0%float)%bool
  then raise LinAlgError
  else ret ((PrimFloat.div 1%float a, 0%float, 0%float),
            (0%float, PrimFloat.div 1%float e, 0%float),
            (0%float, 0%float, PrimFloat.div 1%float i)).

Definition cubic_lattice (a : PrimFloat.float) : mat3 :=
  ((a, 0%float, 0%float), (0%float, a, 0%float), (0%float, 0%float, a)).

(** One atom at x = 1.23 (the binary64 number nearest to it). *)
Definition off_origin : list vec3 := [(0x1.3ae147ae147aep+0%float, 0%float, 0%float)].

End F64.

(** * Properties *)

(** ** The array helpers on small inputs *)

Example arange_example : arange (-1) 2 = [-1; 0; 1]%Z /\ arange 1 0 = [].
Proof. split; reflexivity. Qed.

Example mesh_grid_list_order :
  mesh_grid_list (0, 0, 0)%Z (1, 1, 0)%Z =
  [(0, 0, 0); (0, 1, 0); (1, 0, 0); (1, 1, 0)]%Z /\
  mesh_grid_list (0, 0, 0)%Z (0, 1, 1)%Z =
  [(0, 0, 0); (0, 1, 0); (0, 0, 1); (0, 1, 1)]%Z.
Proof. split; reflexivity. Qed.

Example remove_self_loops_example :
  remove_self_loops [[1; 2; 3]; [4; 5; 6]; [7; 8; 9]]%nat =
  ret [[2; 3]; [4; 6]; [7; 8]]%nat /\
  remove_self_loops (@nil (list nat)) = raise ValueError.
Proof. split; reflexivity. Qed.

Example mask_select_example :
  mask_select [10; 20; 30]%nat [true; false; true] = [10; 30]%nat.
Proof. reflexivity. Qed.

(** ** Signs *)

Lemma Rsign_zero : Rsign 0 = Eq.
Proof.
  unfold Rsign. destruct (total_order_T 0 0) as [[H | H] | H]; try reflexivity; lra.
Qed.

Lemma Rsign_pos (r : R) : 0 < r -> Rsign r = Gt.
Proof.
  intros Hr. unfold Rsign.
  destruct (total_order_T r 0) as [[H | H] | H]; try reflexivity; lra.
Qed.

Lemma Rleb_true (x y : R) : Rleb x y = true <-> x <= y.
Proof. unfold Rleb. destruct (Rle_dec x y); split; intros; try easy. Qed.

Lemma Rleb_false (x y : R) : Rleb x y = false <-> y < x.
Proof.
  unfold Rleb. destruct (Rle_dec x y); split; intros; try easy; lra.
Qed.

(** ** make_rotation_matrix *)

Lemma vnorm_zero_inv (v : vec3) : vnorm v = 0 -> v = vzero.
Proof.
  destruct v as [[a b] c]. unfold vnorm, vzero. intros H.
  apply sqrt_eq_0 in H; [| nra].
  assert (a = 0) by nra. assert (b = 0) by nra. assert (c = 0) by nra.
  subst. reflexivity.
Qed.

Lemma fdiv_zero_zero : fdiv (Fin 0) (Fin 0) = NaN.
Proof. unfold fdiv, inf_signed. now rewrite Rsign_zero. Qed.

Lemma make_rotation_matrix_zero (angle : R) :
  make_rotation_matrix vzero angle = ret nan_matrix.
Proof.
  unfold make_rotation_matrix, vzero.
  replace (0 * 0 + 0 * 0 + 0 * 0) with 0 by ring.
  rewrite sqrt_0, fdiv_zero_zero. reflexivity.
Qed.

(** C8 (as the code has it): for an axis of zero norm the function does
    not fail; for every angle it returns the 3 x 3 matrix whose nine
    entries are all nan. *)
Theorem make_rotation_matrix_zero_axis (vector : vec3) (angle : R) :
  vnorm vector = 0 ->
  make_rotation_matrix vector angle = ret nan_matrix.
Proof.
  intros H. apply vnorm_zero_inv in H. subst vector.
  apply make_rotation_matrix_zero.
Qed.

Lemma make_rotation_matrix_zero_axis_witness :
  vnorm (0, 0, 0) = 0 /\ make_rotation_matrix (0, 0, 0) 90 = ret nan_matrix.
Proof.
  assert (H : vnorm (0, 0, 0) = 0).
  { unfold vnorm. replace (0 * 0 + 0 * 0 + 0 * 0) with 0 by ring. apply sqrt_0. }
  split; [exact H | exact (make_rotation_matrix_zero_axis (0, 0, 0) 90 H)].
Defined.

(** C8 fails as stated: with the zero axis and 90 degrees the call returns
    (it raises nothing), and what it returns holds nan. *)
Lemma make_rotation_matrix_zero_axis_returns_nan :
  make_rotation_matrix (0, 0, 0) 90 = inr nan_matrix /\
  (forall e : exn, make_rotation_matrix (0, 0, 0) 90 <> inl e).
Proof.
  pose proof (make_rotation_matrix_zero 90) as H. unfold vzero in H.
  split; [exact H |]. intros e He. rewrite H in He. discriminate He.
Qed.

(** ** coulomb_matrix_to_inverse_distance_proton *)

Lemma nth_zip_with {A B C : Type} (f : A -> B -> C) (l1 : list A) (l2 : list B)
    (i : nat) (da : A) (db : B) (dc : C) :
  (i < length l1)%nat -> (i < length l2)%nat ->
  nth i (zip_with f l1 l2) dc = f (nth i l1 da) (nth i l2 db).
Proof.
  unfold zip_with. revert l2 i.
  induction l1 as [| x l1 IH]; intros [| y l2] [| i] H1 H2; simpl in *; try lia.
  - reflexivity.
  - apply IH; lia.
Qed.

Lemma length_zip_with {A B C : Type} (f : A -> B -> C) (l1 : list A) (l2 : list B) :
  length (zip_with f l1 l2) = Nat.min (length l1) (length l2).
Proof. unfold zip_with. now rewrite length_map, length_combine. Qed.

Lemma nth_map_seq {A : Type} (f : nat -> A) (n i : nat) (d : A) :
  (i < n)%nat -> nth i (map f (seq 0 n)) d = f i.
Proof.
  intros Hi. rewrite (nth_indep _ d (f 0%nat)) by now rewrite length_map, length_seq.
  rewrite map_nth, seq_nth by assumption. reflexivity.
Qed.

Lemma nth_map_in {A B : Type} (f : A -> B) (l : list A) (i : nat) (da : A) (db : B) :
  (i < length l)%nat -> nth i (map f l) db = f (nth i l da).
Proof.
  intros Hi. rewrite (nth_indep _ db (f da)) by now rewrite length_map.
  apply map_nth.
Qed.

Lemma nth_combine_seq {A : Type} (l : list A) (i : nat) (d : A) :
  (i < length l)%nat ->
  nth i (combine (seq 0 (length l)) l) (0%nat, d) = (i, nth i l d).
Proof.
  intros Hi. rewrite combine_nth by now rewrite length_seq.
  now rewrite seq_nth.
Qed.

Lemma square_row {A : Type} (n : nat) (m : matrix A) (i : nat) :
  square n m -> (i < n)%nat -> length (nth i m []) = n.
Proof.
  intros [Hl Hr] Hi. rewrite Forall_forall in Hr.
  apply Hr, nth_In. lia.
Qed.

Lemma square_ncols {A : Type} (n : nat) (m : matrix A) :
  square n m -> ncols m = n.
Proof.
  intros [Hl Hr]. unfold ncols. destruct m as [| r m]; simpl in *.
  - easy.
  - now inversion Hr.
Qed.

Lemma recovered_charges (n : nat) (C : matrix R) :
  square n C ->
  map (fun x => np_power (Fin (2 * x)) (1 / 2.4)) (diagonal C) =
  map (recovered_charge C) (seq 0 n).
Proof.
  intros Hsq. unfold diagonal. rewrite (square_ncols n C Hsq), map_map.
  reflexivity.
Qed.

Lemma decoder_charge (n : nat) (C : matrix R) (uc : R) (i : nat) :
  square n C -> (i < n)%nat ->
  nth i (snd (coulomb_matrix_to_inverse_distance_proton C uc)) 0%Z =
  astype_int (np_round (recovered_charge C i)).
Proof.
  intros Hsq Hi. unfold coulomb_matrix_to_inverse_distance_proton.
  cbv zeta. cbn [fst snd].
  rewrite (recovered_charges n C Hsq), map_map.
  now rewrite nth_map_seq.
Qed.

Lemma decoder_entry (n : nat) (C : matrix R) (uc : R) (i j : nat) :
  square n C -> (i < n)%nat -> (j < n)%nat ->
  nth j (nth i (fst (coulomb_matrix_to_inverse_distance_proton C uc)) []) NaN =
  fdiv (if Nat.eqb i j then Fin 0
        else fdiv (Fin (nth j (nth i C []) 0))
                  (fmul (recovered_charge C j) (recovered_charge C i)))
       (Fin uc).
Proof.
  intros Hsq Hi Hj. pose proof Hsq as [Hlen Hrows].
  unfold coulomb_matrix_to_inverse_distance_proton.
  cbv zeta. cbn [fst snd].
  rewrite (recovered_charges n C Hsq).
  set (zl := map (recovered_charge C) (seq 0 n)).
  set (zz := map (fun b => map (fun a => fmul a b) zl) zl).
  set (c0 := zip_with (zip_with (fun x d => fdiv (Fin x) d)) C zz).
  assert (Hzl : length zl = n) by (unfold zl; now rewrite length_map, length_seq).
  assert (Hzz : length zz = n) by (unfold zz; now rewrite length_map).
  assert (Hc0 : length c0 = n).
  { unfold c0. rewrite length_zip_with. lia. }
  assert (Hrow : nth i c0 [] =
                 zip_with (fun x d => fdiv (Fin x) d) (nth i C [])
                          (map (fun a => fmul a (recovered_charge C i)) zl)).
  { unfold c0. rewrite (nth_zip_with _ _ _ _ [] []) by lia.
    unfold zz. rewrite (nth_map_in _ _ _ NaN) by lia.
    replace (nth i zl NaN) with (recovered_charge C i); [reflexivity |].
    unfold zl. now rewrite nth_map_seq. }
  assert (Hrl : length (nth i c0 []) = n).
  { rewrite Hrow, length_zip_with, !length_map.
    rewrite (square_row n C i Hsq Hi). fold zl. lia. }
  assert (Hzd : nth i (zero_diagonal c0) [] =
                map (fun jx => if Nat.eqb i (fst jx) then Fin 0 else snd jx)
                    (combine (seq 0 n) (nth i c0 []))).
  { unfold zero_diagonal.
    rewrite (nth_map_in _ _ _ (0%nat, [])) by (rewrite length_combine, length_seq; lia).
    rewrite nth_combine_seq by lia. cbn [fst snd]. now rewrite Hrl. }
  rewrite (nth_map_in _ _ _ [])
    by (unfold zero_diagonal; rewrite length_map, length_combine, length_seq; lia).
  rewrite Hzd.
  rewrite (nth_map_in _ _ _ NaN)
    by (rewrite length_map, length_combine, length_seq; lia).
  f_equal.
  rewrite (nth_map_in _ _ _ (0%nat, NaN)) by (rewrite length_combine, length_seq; lia).
  rewrite combine_nth by (rewrite length_seq; lia).
  rewrite seq_nth by lia. cbn [fst snd plus].
  destruct (Nat.eqb i j); [reflexivity |].
  rewrite Hrow.
  rewrite (nth_zip_with _ _ _ _ 0 NaN).
  2:{ rewrite (square_row n C i Hsq Hi). lia. }
  2:{ rewrite length_map. lia. }
  rewrite (nth_map_in _ _ _ NaN) by lia.
  unfold zl. now rewrite nth_map_seq.
Qed.

Lemma recovered_charge_zero (C : matrix R) (i : nat) :
  nth i (nth i C []) 0 = 0 -> recovered_charge C i = Fin 0.
Proof.
  intros H. unfold recovered_charge, np_power. rewrite H.
  replace (2 * 0) with 0 by ring. now rewrite Rsign_zero.
Qed.

Lemma recovered_charge_cases (C : matrix R) (j : nat) :
  (exists r, recovered_charge C j = Fin r) \/ recovered_charge C j = NaN.
Proof.
  unfold recovered_charge, np_power.
  destruct (Rsign _); eauto.
Qed.

Lemma inf_signed_not_finite (p : bool) (r : R) : is_finite (inf_signed p r) = false.
Proof. unfold inf_signed. destruct (Rsign r), p; reflexivity. Qed.

Lemma fdiv_not_finite (x y : npfloat) :
  is_finite x = false -> is_finite (fdiv x y) = false.
Proof.
  destruct x; simpl; try discriminate; intros _;
    destruct y; simpl; try reflexivity; destruct (Rsign r); reflexivity.
Qed.

Lemma fdiv_by_zero_not_finite (x : R) (y : npfloat) :
  y = Fin 0 \/ y = NaN -> is_finite (fdiv (Fin x) y) = false.
Proof.
  intros [-> | ->]; simpl; [| reflexivity].
  rewrite Rsign_zero. apply inf_signed_not_finite.
Qed.

Lemma fmul_zero_charge (C : matrix R) (j : nat) :
  (fmul (recovered_charge C j) (Fin 0) = Fin 0 \/
   fmul (recovered_charge C j) (Fin 0) = NaN) /\
  (fmul (Fin 0) (recovered_charge C j) = Fin 0 \/
   fmul (Fin 0) (recovered_charge C j) = NaN).
Proof.
  destruct (recovered_charge_cases C j) as [[r ->] | ->]; simpl.
  - replace (r * 0) with 0 by ring. replace (0 * r) with 0 by ring. auto.
  - auto.
Qed.

Lemma round_half_even_IZR (k : Z) : round_half_even (IZR k) = k.
Proof.
  unfold round_half_even. rewrite ZfloorZ.
  destruct (total_order_T (IZR k - IZR k) (1 / 2)) as [[H | H] | H]; try reflexivity; lra.
Qed.

Lemma Ztrunc_IZR (k : Z) : Ztrunc (IZR k) = k.
Proof.
  unfold Ztrunc, Zceil. destruct (Rle_dec 0 (IZR k)).
  - apply ZfloorZ.
  - rewrite ZfloorNZ. lia.
Qed.

Lemma astype_int_round (r : R) :
  (int_min <= round_half_even r <= int_max)%Z ->
  astype_int (np_round (Fin r)) = round_half_even r.
Proof.
  intros [H1 H2]. unfold astype_int, np_round. rewrite Ztrunc_IZR.
  apply Z.leb_le in H1, H2. now rewrite H1, H2.
Qed.

(** C4 (as the code has it): a zero diagonal entry at [i] gives the charge
    0 and a zero on the diagonal of the inverse-distance matrix, while
    every other entry of row [i] and of column [i] is nan or an infinity:
    the division by the zero product is not post-processed. *)
Theorem coulomb_zero_diagonal_entry
    (n : nat) (C : matrix R) (unit_conversion : R) (i : nat) :
  square n C -> (i < n)%nat -> unit_conversion <> 0 ->
  nth i (nth i C []) 0 = 0 ->
  let (inv_dist, z) := coulomb_matrix_to_inverse_distance_proton C unit_conversion in
  nth i z 0%Z = 0%Z /\
  nth i (nth i inv_dist []) NaN = Fin 0 /\
  forall j : nat, (j < n)%nat -> j <> i ->
    is_finite (nth j (nth i inv_dist []) NaN) = false /\
    is_finite (nth i (nth j inv_dist []) NaN) = false.
Proof.
  intros Hsq Hi Huc Hz.
  pose proof (decoder_charge n C unit_conversion i Hsq Hi) as Hc.
  pose proof (fun a b => decoder_entry n C unit_conversion a b Hsq) as He.
  destruct (coulomb_matrix_to_inverse_distance_proton C unit_conversion) as [inv_dist z].
  simpl in Hc, He. split; [| split].
  - rewrite Hc, (recovered_charge_zero C i Hz).
    replace 0 with (IZR 0) by reflexivity.
    rewrite astype_int_round; rewrite round_half_even_IZR; [reflexivity |].
    unfold int_min, int_max. lia.
  - rewrite (He i i Hi Hi), Nat.eqb_refl. simpl.
    assert (Hs : Rsign unit_conversion <> Eq).
    { unfold Rsign. destruct (total_order_T unit_conversion 0) as [[H | H] | H];
        try discriminate. contradiction. }
    destruct (Rsign unit_conversion); try contradiction; f_equal; field; assumption.
  - intros j Hj Hji.
    pose proof (fmul_zero_charge C j) as [Hm1 Hm2].
    split.
    + rewrite (He i j Hi Hj).
      destruct (Nat.eqb_spec i j) as [-> | _]; [contradiction |].
      apply fdiv_not_finite. rewrite (recovered_charge_zero C i Hz).
      apply fdiv_by_zero_not_finite. exact Hm1.
    + rewrite (He j i Hj Hi).
      destruct (Nat.eqb_spec j i) as [-> | _]; [contradiction |].
      apply fdiv_not_finite. rewrite (recovered_charge_zero C i Hz).
      apply fdiv_by_zero_not_finite. exact Hm2.
Qed.

Lemma square_intro {A : Type} (n : nat) (m : matrix A) :
  length m = n -> forallb (fun row => Nat.eqb (length row) n) m = true -> square n m.
Proof.
  intros Hl Hr. split; [exact Hl |].
  rewrite forallb_forall in Hr. apply Forall_forall. intros row Hin.
  now apply Nat.eqb_eq, Hr.
Qed.

Lemma coulomb_with_zero_square : square 2 coulomb_with_zero.
Proof. apply square_intro; reflexivity. Qed.

Lemma coulomb_zero_diagonal_entry_witness :
  let (inv_dist, z) := coulomb_matrix_to_inverse_distance_proton coulomb_with_zero 1 in
  nth 0 z 0%Z = 0%Z /\
  nth 0 (nth 0 inv_dist []) NaN = Fin 0 /\
  forall j : nat, (j < 2)%nat -> j <> 0%nat ->
    is_finite (nth j (nth 0 inv_dist []) NaN) = false /\
    is_finite (nth 0 (nth j inv_dist []) NaN) = false.
Proof.
  apply (coulomb_zero_diagonal_entry 2 coulomb_with_zero 1 0).
  - exact coulomb_with_zero_square.
  - lia.
  - lra.
  - reflexivity.
Defined.

(** C4 fails as stated: in the decoded matrix of [[0, 1], [1, 1/2]] the
    entry (0, 1), in the row of the zero diagonal entry, is +inf. *)
Lemma coulomb_zero_diagonal_gives_inf :
  nth 0 (nth 0 coulomb_with_zero []) 0 = 0 /\
  nth 1 (nth 0 (fst (coulomb_matrix_to_inverse_distance_proton coulomb_with_zero 1)) [])
      NaN = PInf /\
  PInf <> Fin 0.
Proof.
  split; [reflexivity |]. split; [| discriminate].
  rewrite (decoder_entry 2 coulomb_with_zero 1 0 1 coulomb_with_zero_square) by lia.
  cbn [Nat.eqb]. rewrite (recovered_charge_zero coulomb_with_zero 0) by reflexivity.
  assert (H1 : exists r, recovered_charge coulomb_with_zero 1 = Fin r).
  { unfold recovered_charge, np_power. cbn [nth coulomb_with_zero].
    rewrite Rsign_pos by lra. eauto. }
  destruct H1 as [r ->].
  cbn [fmul fdiv nth coulomb_with_zero].
  replace (r * 0) with 0 by ring.
  rewrite Rsign_zero. unfold inf_signed.
  rewrite (Rsign_pos 1) by lra. cbn [fdiv].
  now rewrite (Rsign_pos 1) by lra.
Qed.

(** ** Rounding of the recovered charge *)

Lemma round_half_even_near (r : R) : Rabs (IZR (round_half_even r) - r) <= 1 / 2.
Proof.
  unfold round_half_even. pose proof (Zfloor_bound r) as [H1 H2].
  destruct (total_order_T (r - IZR (Zfloor r)) (1 / 2)) as [[H | H] | H].
  - apply Rabs_le. lra.
  - destruct (Z.even (Zfloor r)); [| rewrite plus_IZR]; apply Rabs_le; lra.
  - rewrite plus_IZR. apply Rabs_le. lra.
Qed.

Lemma round_half_even_tie (k : Z) :
  round_half_even (IZR k + 1 / 2) = if Z.even k then k else (k + 1)%Z.
Proof.
  unfold round_half_even.
  assert (Hf : Zfloor (IZR k + 1 / 2) = k) by (apply Zfloor_eq; lra).
  rewrite Hf.
  destruct (total_order_T (IZR k + 1 / 2 - IZR k) (1 / 2)) as [[H | H] | H];
    try lra. reflexivity.
Qed.

(** C6 (as the code has it): the decoder rounds the recovered charge with
    [np.round], to a nearest integer, and a charge that lies halfway
    between two integers goes to the even one of the two. *)
Theorem coulomb_charge_rounds_half_to_even
    (n : nat) (C : matrix R) (unit_conversion : R) (i : nat) (r : R) :
  square n C -> (i < n)%nat ->
  recovered_charge C i = Fin r ->
  (int_min <= round_half_even r <= int_max)%Z ->
  let z := nth i (snd (coulomb_matrix_to_inverse_distance_proton C unit_conversion)) 0%Z in
  Rabs (IZR z - r) <= 1 / 2 /\
  forall k : Z, r = IZR k + 1 / 2 -> z = if Z.even k then k else (k + 1)%Z.
Proof.
  intros Hsq Hi Hr Hrange. cbv zeta.
  rewrite (decoder_charge n C unit_conversion i Hsq Hi), Hr.
  rewrite (astype_int_round r Hrange). split.
  - apply round_half_even_near.
  - intros k ->. apply round_half_even_tie.
Qed.

Lemma coulomb_tie_square : square 1 coulomb_tie.
Proof. apply square_intro; reflexivity. Qed.

Lemma coulomb_tie_charge : recovered_charge coulomb_tie 0 = Fin (5 / 2).
Proof.
  unfold recovered_charge, np_power. cbn [nth coulomb_tie].
  replace (2 * (Rpower (5 / 2) 2.4 / 2)) with (Rpower (5 / 2) 2.4) by field.
  rewrite Rsign_pos by (unfold Rpower; apply exp_pos).
  rewrite Rpower_mult. replace (2.4 * (1 / 2.4)) with 1 by lra.
  rewrite Rpower_1 by lra. reflexivity.
Qed.

Lemma round_half_even_5_2 : round_half_even (5 / 2) = 2%Z.
Proof.
  replace (5 / 2) with (IZR 2 + 1 / 2) by (simpl; lra).
  now rewrite round_half_even_tie.
Qed.

Lemma coulomb_charge_rounds_half_to_even_witness :
  let z := nth 0 (snd (coulomb_matrix_to_inverse_distance_proton coulomb_tie 1)) 0%Z in
  Rabs (IZR z - 5 / 2) <= 1 / 2 /\
  forall k : Z, 5 / 2 = IZR k + 1 / 2 -> z = if Z.even k then k else (k + 1)%Z.
Proof.
  apply (coulomb_charge_rounds_half_to_even 1 coulomb_tie 1 0 (5 / 2)).
  - exact coulomb_tie_square.
  - lia.
  - exact coulomb_tie_charge.
  - rewrite round_half_even_5_2. unfold int_min, int_max. lia.
Defined.

(** C6 fails as stated: the diagonal entry 2.5^2.4 / 2 recovers the charge
    2.5 exactly, halfway between 2 and 3; the decoder returns 2, while
    rounding away from zero gives 3. *)
Lemma coulomb_charge_tie_not_away_from_zero :
  recovered_charge coulomb_tie 0 = Fin (5 / 2) /\
  snd (coulomb_matrix_to_inverse_distance_proton coulomb_tie 1) = [2%Z] /\
  round_half_away (5 / 2) = 3%Z.
Proof.
  split; [exact coulomb_tie_charge |]. split.
  - pose proof (decoder_charge 1 coulomb_tie 1 0 coulomb_tie_square (Nat.lt_0_1)) as H.
    rewrite coulomb_tie_charge, astype_int_round in H
      by (rewrite round_half_even_5_2; unfold int_min, int_max; lia).
    rewrite round_half_even_5_2 in H.
    remember (snd (coulomb_matrix_to_inverse_distance_proton coulomb_tie 1)) as z eqn:Hz.
    assert (Hl : length z = 1%nat).
    { subst z. unfold coulomb_matrix_to_inverse_distance_proton. cbv zeta.
      cbn [snd]. now rewrite !length_map. }
    destruct z as [| a [| b z]]; simpl in Hl; try discriminate.
    simpl in H. now subst a.
  - unfold round_half_away. destruct (Rle_dec 0 (5 / 2)) as [_ | Hn]; [| lra].
    apply Zfloor_eq. simpl. lra.
Qed.

(** ** rigid_transform *)

Lemma rigid_point (r : mat3) (p ca cb : vec3) :
  vadd (mat_vec r (vsub p ca)) cb = vadd (mat_vec r p) (vsub cb (mat_vec r ca)).
Proof.
  destruct r as [[[[a b] c] [[d e] f]] [[g h] i]].
  destruct p as [[px py] pz], ca as [[x y] z], cb as [[u v] w].
  unfold vadd, vsub, mat_vec, vdot. f_equal; [f_equal |]; ring.
Qed.

Lemma cross_covariance_same_length (am bm : list vec3) :
  length am = length bm -> exists h, cross_covariance am bm = ret h.
Proof.
  intros H. unfold cross_covariance. rewrite H, Nat.eqb_refl. eauto.
Qed.

(** C7: the aligned cloud returned by [rigid_transform] is the returned
    rotation applied to each point of A plus the returned translation,
    and the translation is centroid(B) - R centroid(A); this holds
    whatever decomposition [np.linalg.svd] returns. *)
Theorem rigid_transform_is_affine
    (svd : mat3 -> mat3 * vec3 * mat3) (a b : list vec3) (correct_reflection : bool) :
  (1 <= length a)%nat -> length a = length b ->
  exists (out : list msg) (r : mat3) (t : vec3),
    rigid_transform svd a b correct_reflection =
      ret (out, (map (fun p => vadd (mat_vec r p) t) a, r, t)) /\
    t = vsub (centroid b) (mat_vec r (centroid a)).
Proof.
  intros _ Hlen. unfold rigid_transform.
  destruct (cross_covariance_same_length
              (map (fun p => vsub p (centroid a)) a)
              (map (fun p => vsub p (centroid b)) b)) as [h Hh].
  { now rewrite !length_map. }
  rewrite Hh. cbn [bind ret].
  destruct (svd h) as [[u s] vt].
  set (r1 := mat_mul (transpose vt) (transpose u)).
  set (r2 := mat_mul (transpose (negate_last_row vt)) (transpose u)).
  assert (Hmap : forall r : mat3,
             map (fun p => vadd (mat_vec r p) (centroid b))
                 (map (fun p => vsub p (centroid a)) a) =
             map (fun p => vadd (mat_vec r p)
                             (vsub (centroid b) (mat_vec r (centroid a)))) a).
  { intros r. rewrite map_map. apply map_ext. intros p. apply rigid_point. }
  destruct (Rltb (det3 r1) 0); [destruct correct_reflection |].
  - exists [WarnDet (det3 r1); Correcting], r2, (vsub (centroid b) (mat_vec r2 (centroid a))).
    rewrite Hmap. split; reflexivity.
  - exists [WarnDet (det3 r1)], r1, (vsub (centroid b) (mat_vec r1 (centroid a))).
    rewrite Hmap. split; reflexivity.
  - exists [], r1, (vsub (centroid b) (mat_vec r1 (centroid a))).
    rewrite Hmap. split; reflexivity.
Qed.

Lemma rigid_transform_is_affine_witness :
  exists (out : list msg) (r : mat3) (t : vec3),
    rigid_transform svd_diagonal [(1, 0, 0); (-1, 0, 0)] [(1, 0, 0); (-1, 0, 0)] true =
      ret (out, (map (fun p => vadd (mat_vec r p) t) [(1, 0, 0); (-1, 0, 0)], r, t)) /\
    t = vsub (centroid [(1, 0, 0); (-1, 0, 0)]) (mat_vec r (centroid [(1, 0, 0); (-1, 0, 0)])).
Proof.
  apply (rigid_transform_is_affine svd_diagonal
           [(1, 0, 0); (-1, 0, 0)] [(1, 0, 0); (-1, 0, 0)] true).
  - simpl. lia.
  - reflexivity.
Defined.

(** ** range_neighbour_lattice: when it raises *)

Lemma det3_transpose (m : mat3) : det3 (transpose m) = det3 m.
Proof.
  destruct m as [[[[a b] c] [[d e] f]] [[g h] i]]. unfold det3, transpose. ring.
Qed.

Lemma inv3_singular (m : mat3) : det3 m = 0 -> inv3 m = raise LinAlgError.
Proof.
  intros H. unfold inv3. destruct (Req_dec_T (det3 m) 0); [reflexivity | contradiction].
Qed.

Lemma inv3_regular (m : mat3) : det3 m <> 0 -> exists inv, inv3 m = ret inv.
Proof.
  intros H. unfold inv3. destruct (Req_dec_T (det3 m) 0); [contradiction |].
  destruct (adjugate m) as [[r0 r1] r2]. eauto.
Qed.

Lemma range_neighbour_lattice_singular
    (argsort : list R -> list nat) (coordinates : list vec3) (lattice : mat3)
    (max_distance : option R) (self_loops sort_distance : bool) :
  det3 lattice = 0 ->
  range_neighbour_lattice argsort coordinates lattice max_distance
    self_loops sort_distance = raise LinAlgError.
Proof.
  intros H. unfold range_neighbour_lattice.
  rewrite inv3_singular by now rewrite det3_transpose. reflexivity.
Qed.

Lemma range_neighbour_lattice_none
    (argsort : list R -> list nat) (coordinates : list vec3) (lattice : mat3)
    (self_loops sort_distance : bool) :
  det3 lattice <> 0 ->
  range_neighbour_lattice argsort coordinates lattice None
    self_loops sort_distance = raise TypeError.
Proof.
  intros H. unfold range_neighbour_lattice.
  destruct (inv3_regular (transpose lattice)) as [inv ->];
    [now rewrite det3_transpose |]. reflexivity.
Qed.

Lemma range_neighbour_lattice_returns
    (argsort : list R -> list nat) (coordinates : list vec3) (lattice : mat3)
    (d : R) (self_loops sort_distance : bool) :
  det3 lattice <> 0 ->
  coordinates <> [] \/ self_loops = true ->
  exists out,
    range_neighbour_lattice argsort coordinates lattice (Some d)
      self_loops sort_distance = ret out.
Proof.
  intros H Hn. unfold range_neighbour_lattice.
  destruct (inv3_regular (transpose lattice)) as [inv ->];
    [now rewrite det3_transpose |].
  cbn [bind ret add_max_distance].
  destruct self_loops.
  - cbn [bind ret]. eauto.
  - destruct Hn as [Hn | Hn]; [| discriminate].
    destruct coordinates as [| x coordinates]; [contradiction |].
    cbn [bind ret remove_self_loops length seq map]. eauto.
Qed.

(** C2, at the code: with [max_distance=None] the call never returns a
    neighbour list.  On an invertible lattice the sum
    [max_distance + max_radius_cell] raises TypeError; on a singular one
    the inverse has raised before. *)
Theorem range_neighbour_lattice_none_raises
    (argsort : list R -> list nat) (coordinates : list vec3) (lattice : mat3)
    (self_loops sort_distance : bool) :
  range_neighbour_lattice argsort coordinates lattice None
    self_loops sort_distance =
  raise (if Req_dec_T (det3 lattice) 0 then LinAlgError else TypeError).
Proof.
  destruct (Req_dec_T (det3 lattice) 0) as [H | H].
  - now apply range_neighbour_lattice_singular.
  - now apply range_neighbour_lattice_none.
Qed.

Lemma zero_row_or_column_det (lattice : mat3) :
  zero_row_or_column lattice -> det3 lattice = 0.
Proof.
  destruct lattice as [[[[a b] c] [[d e] f]] [[g h] i]].
  unfold zero_row_or_column, det3.
  intros [(-> & -> & ->) | [(-> & -> & ->) | [(-> & -> & ->) |
         [(-> & -> & ->) | [(-> & -> & ->) | (-> & -> & ->)]]]]]; ring.
Qed.

(** C3 (as the code has it): the search has no test of its own for a
    degenerate lattice.  When a lattice vector is zero, or one coordinate
    is zero in all three lattice vectors, the call fails with numpy's
    LinAlgError, raised by [np.linalg.inv], for every list of coordinates,
    every [max_distance] (also None) and both flags. *)
Theorem range_neighbour_lattice_degenerate
    (argsort : list R -> list nat) (coordinates : list vec3) (lattice : mat3)
    (max_distance : option R) (self_loops sort_distance : bool) :
  zero_row_or_column lattice ->
  range_neighbour_lattice argsort coordinates lattice max_distance
    self_loops sort_distance = raise LinAlgError.
Proof.
  intros H. apply range_neighbour_lattice_singular.
  now apply zero_row_or_column_det.
Qed.

Lemma range_neighbour_lattice_degenerate_witness :
  range_neighbour_lattice insertion_argsort [(0, 0, 0)] planar_lattice (Some 4)
    false true = raise LinAlgError.
Proof.
  apply (range_neighbour_lattice_degenerate insertion_argsort [(0, 0, 0)]
           planar_lattice (Some 4) false true).
  unfold zero_row_or_column, planar_lattice. do 5 right. repeat split; reflexivity.
Defined.

Lemma flat_lattice_det : det3 flat_lattice = / 1000.
Proof. unfold det3, flat_lattice. field. Qed.

(** C3 fails as stated: on a lattice with a zero vector the error is
    numpy's LinAlgError, there is no error of the search's own; and on a
    flat cell of volume 10^-3 the search raises nothing and returns a
    neighbour list. *)
Lemma range_neighbour_lattice_degenerate_unguarded :
  range_neighbour_lattice insertion_argsort [(0, 0, 0)] missing_vector_lattice
    (Some 4) false true = inl LinAlgError /\
  det3 flat_lattice = / 1000 /\
  exists out,
    range_neighbour_lattice insertion_argsort [(0, 0, 0)] flat_lattice (Some 4)
      false true = inr out.
Proof.
  split; [| split; [exact flat_lattice_det |]].
  - apply range_neighbour_lattice_singular.
    unfold det3, missing_vector_lattice. ring.
  - apply range_neighbour_lattice_returns.
    + rewrite flat_lattice_det. lra.
    + left. discriminate.
Qed.

(** ** Lists as numpy uses them *)

Lemma mask_select_map {A B : Type} (f : A -> B) (g : A -> bool) (l : list A) :
  mask_select (map f l) (map g l) = map f (filter g l).
Proof.
  induction l as [| x l IH]; simpl; [reflexivity |].
  destruct (g x); simpl; now rewrite IH.
Qed.

Lemma mask_select_filter {A : Type} (g : A -> bool) (l : list A) :
  mask_select l (map g l) = filter g l.
Proof.
  rewrite <- (map_id l) at 1. rewrite mask_select_map. apply map_id.
Qed.

Lemma take_along_map {A B : Type} (f : A -> B) (d : A) (l : list A) (idx : list nat) :
  take_along (f d) (map f l) idx = map f (take_along d l idx).
Proof.
  unfold take_along. rewrite map_map. apply map_ext. intros k. apply map_nth.
Qed.

Lemma zip_with_map {A B C D : Type} (f : B -> C -> D) (g : A -> B) (h : A -> C)
    (l : list A) :
  zip_with f (map g l) (map h l) = map (fun x => f (g x) (h x)) l.
Proof.
  unfold zip_with. induction l as [| x l IH]; simpl; [reflexivity |].
  now rewrite IH.
Qed.

Lemma combine_map_same {A B C : Type} (f : A -> B) (g : A -> C) (l : list A) :
  combine (map f l) (map g l) = map (fun x => (f x, g x)) l.
Proof. induction l as [| x l IH]; simpl; [reflexivity |]. now rewrite IH. Qed.

Lemma map_flat_map {A B C : Type} (f : B -> C) (g : A -> list B) (l : list A) :
  map f (flat_map g l) = flat_map (fun x => map f (g x)) l.
Proof.
  induction l as [| x l IH]; simpl; [reflexivity |].
  now rewrite map_app, IH.
Qed.

Lemma flat_map_map_in {A B C : Type} (f : A -> B) (g : B -> list C) (l : list A) :
  flat_map g (map f l) = flat_map (fun x => g (f x)) l.
Proof.
  induction l as [| x l IH]; simpl; [reflexivity |]. now rewrite IH.
Qed.

Lemma map_const_repeat {A B : Type} (c : B) (l : list A) :
  map (fun _ => c) l = repeat c (length l).
Proof. induction l as [| x l IH]; simpl; [reflexivity |]. now rewrite IH. Qed.

Lemma map_repeat {A B : Type} (f : A -> B) (x : A) (n : nat) :
  map f (repeat x n) = repeat (f x) n.
Proof. induction n as [| n IH]; simpl; [reflexivity |]. now rewrite IH. Qed.

Lemma combine_fst {A B : Type} (l1 : list A) (l2 : list B) :
  length l1 = length l2 -> map fst (combine l1 l2) = l1.
Proof.
  revert l2. induction l1 as [| x l1 IH]; intros [| y l2] H; simpl in *;
    try discriminate; [reflexivity |]. f_equal. apply IH. lia.
Qed.

Lemma combine_snd {A B : Type} (l1 : list A) (l2 : list B) :
  length l1 = length l2 -> map snd (combine l1 l2) = l2.
Proof.
  revert l2. induction l1 as [| x l1 IH]; intros [| y l2] H; simpl in *;
    try discriminate; [reflexivity |]. f_equal. apply IH. lia.
Qed.

Lemma indexed_fst (coordinates : list vec3) :
  map fst (indexed coordinates) = seq 0 (length coordinates).
Proof. apply combine_fst. apply length_seq. Qed.

Lemma indexed_snd (coordinates : list vec3) :
  map snd (indexed coordinates) = coordinates.
Proof. apply combine_snd. apply length_seq. Qed.

Lemma length_indexed (coordinates : list vec3) :
  length (indexed coordinates) = length coordinates.
Proof. unfold indexed. rewrite length_combine, length_seq. lia. Qed.

(** A map over the node indices, or over the positions, is a map over
    the indexed nodes. *)
Lemma map_nodes {A : Type} (f : nat -> A) (coordinates : list vec3) :
  map f (seq 0 (length coordinates)) = map (fun ix => f (fst ix)) (indexed coordinates).
Proof. now rewrite <- indexed_fst, map_map. Qed.

Lemma map_positions {A : Type} (f : vec3 -> A) (coordinates : list vec3) :
  map f coordinates = map (fun ix => f (snd ix)) (indexed coordinates).
Proof. now rewrite <- (indexed_snd coordinates) at 1; rewrite map_map. Qed.

Lemma flat_map_nodes {A : Type} (f : nat -> list A) (coordinates : list vec3) :
  flat_map f (seq 0 (length coordinates)) =
  flat_map (fun ix => f (fst ix)) (indexed coordinates).
Proof. now rewrite <- indexed_fst, flat_map_map_in. Qed.

Lemma flat_map_positions {A : Type} (f : vec3 -> list A) (coordinates : list vec3) :
  flat_map f coordinates = flat_map (fun ix => f (snd ix)) (indexed coordinates).
Proof. now rewrite <- (indexed_snd coordinates) at 1; rewrite flat_map_map_in. Qed.

Lemma entry_eta (e : entry) : (fst (fst e), snd (fst e), snd e) = e.
Proof. now destruct e as [[ij k] d]. Qed.

(** ** From the arrays of the code to rows of entries *)

Lemma take_along_proj {A B : Type} (f : A -> B) (d : A) (d' : B) (l : list A)
    (idx : list nat) :
  f d = d' -> take_along d' (map f l) idx = map f (take_along d l idx).
Proof. intros <-. apply take_along_map. Qed.

Lemma prune_images (lattice : mat3) (reach : R) (grid : list ivec3) :
  mask_select grid
    (map (fun x => Rleb x reach)
       (map vnorm (map (fun k => vec_mat (ivec_R k) lattice) grid))) =
  filter (fun k => Rleb (vnorm (vec_mat (ivec_R k) lattice)) reach) grid.
Proof. rewrite !map_map. apply mask_select_filter. Qed.

Lemma prune_shifts (lattice : mat3) (reach : R) (grid : list ivec3) :
  mask_select (map (fun k => vec_mat (ivec_R k) lattice) grid)
    (map (fun x => Rleb x reach)
       (map vnorm (map (fun k => vec_mat (ivec_R k) lattice) grid))) =
  map (fun k => vec_mat (ivec_R k) lattice)
    (filter (fun k => Rleb (vnorm (vec_mat (ivec_R k) lattice)) reach) grid).
Proof. rewrite !map_map. apply mask_select_map. Qed.

Section Rows.

Variable coordinates : list vec3.

Let P := indexed coordinates.
Let n := length coordinates.

(** the centre arrays over the indexed nodes *)

Lemma center_indices_form :
  map (fun i => map (fun j => (i, j)) (seq 0 n)) (seq 0 n) =
  map (fun ix => map (fun jx => (fst ix, fst jx)) P) P.
Proof.
  unfold n, P. rewrite map_nodes. apply map_ext. intros ix.
  now rewrite map_nodes.
Qed.

Lemma center_image_form :
  map (fun _ : vec3 => map (fun _ : vec3 => ivec_zero) coordinates) coordinates =
  map (fun ix : nat * vec3 => map (fun _ : nat * vec3 => ivec_zero) P) P.
Proof.
  unfold P. rewrite map_positions. apply map_ext. intros ix.
  now rewrite map_positions.
Qed.

Lemma center_dist_form :
  map (fun xi => map (fun xj => vsub xj xi) coordinates) coordinates =
  map (fun ix => map (fun jx => vsub (snd jx) (snd ix)) P) P.
Proof.
  unfold P. rewrite map_positions. apply map_ext. intros ix.
  now rewrite map_positions.
Qed.

Lemma remove_self_loops_rows {A : Type} (g : nat * vec3 -> nat * vec3 -> A) :
  coordinates <> [] ->
  remove_self_loops (map (fun ix => map (g ix) P) P) =
  ret (map (fun ix =>
              map (g ix) (filter (fun jx => negb (Nat.eqb (fst ix) (fst jx))) P))
           P).
Proof.
  intros Hne. unfold remove_self_loops.
  assert (HP : length P = n) by apply length_indexed.
  destruct (map (fun ix => map (g ix) P) P) eqn:E.
  - apply (f_equal (@length _)) in E. rewrite length_map, HP in E.
    unfold n in E. destruct coordinates; [contradiction | discriminate].
  - rewrite <- E. clear E. f_equal.
    rewrite length_map, HP. unfold n.
    rewrite <- (indexed_fst coordinates). fold P.
    rewrite combine_map_same, map_map. apply map_ext. intros ix. cbn [fst snd].
    rewrite map_map. apply mask_select_map.
Qed.

Lemma center_arrays (self_loops : bool) :
  coordinates <> [] \/ self_loops = true ->
  (if self_loops
   then ret (map (fun i => map (fun j => (i, j)) (seq 0 n)) (seq 0 n),
             map (fun _ : vec3 => map (fun _ : vec3 => ivec_zero) coordinates) coordinates,
             map (fun xi => map (fun xj => vsub xj xi) coordinates) coordinates)
   else
     ci <- remove_self_loops
             (map (fun i => map (fun j => (i, j)) (seq 0 n)) (seq 0 n)) ;;
     cm <- remove_self_loops
             (map (fun _ : vec3 => map (fun _ : vec3 => ivec_zero) coordinates)
                  coordinates) ;;
     cd <- remove_self_loops
             (map (fun xi => map (fun xj => vsub xj xi) coordinates) coordinates) ;;
     ret (ci, cm, cd)) =
  ret (map (fun ix => map (fun jx => (fst ix, fst jx)) (center_kept coordinates self_loops (fst ix))) P,
       map (fun ix => map (fun _ => ivec_zero) (center_kept coordinates self_loops (fst ix))) P,
       map (fun ix => map (fun jx => vsub (snd jx) (snd ix)) (center_kept coordinates self_loops (fst ix))) P).
Proof.
  intros Hne. rewrite center_indices_form, center_image_form, center_dist_form.
  unfold center_kept. fold P. destruct self_loops; cbn [orb].
  - assert (Hf : forall ix : nat * vec3, filter (fun _ : nat * vec3 => true) P = P)
      by (intros; apply filter_true).
    f_equal. f_equal; [f_equal |]; apply map_ext; intros ix; now rewrite Hf.
  - destruct Hne as [Hne | Hne]; [| discriminate].
    rewrite !remove_self_loops_rows by assumption. reflexivity.
Qed.

(** the image arrays over the indexed nodes *)

Variable lattice : mat3.
Variable imgs : list ivec3.

Lemma image_indices_form :
  map (fun i =>
         map (fun j => (i, j))
             (flat_map (fun i0 => repeat i0 (length imgs)) (seq 0 n)))
      (seq 0 n) =
  map (fun ix => flat_map (fun jx => map (fun _ => (fst ix, fst jx)) imgs) P) P.
Proof.
  unfold n, P. rewrite map_nodes. apply map_ext. intros ix.
  rewrite map_flat_map, flat_map_nodes. apply flat_map_ext. intros jx.
  now rewrite map_repeat, map_const_repeat.
Qed.

Lemma image_images_form :
  map (fun _ : nat => flat_map (fun _ : vec3 => imgs) coordinates) (seq 0 n) =
  map (fun ix : nat * vec3 =>
         flat_map (fun jx : nat * vec3 => map (fun k => k) imgs) P) P.
Proof.
  unfold n, P. rewrite map_nodes. apply map_ext. intros ix.
  rewrite flat_map_positions. apply flat_map_ext. intros jx.
  now rewrite map_id.
Qed.

Lemma image_dist_form :
  map (fun xi =>
         map (fun c => vsub c xi)
             (flat_map (fun x => map (fun s => vadd x s)
                                    (map (fun k => vec_mat (ivec_R k) lattice) imgs))
                       coordinates))
      coordinates =
  map (fun ix =>
         flat_map (fun jx =>
                     map (fun k => vsub (vadd (snd jx) (vec_mat (ivec_R k) lattice))
                                        (snd ix)) imgs) P) P.
Proof.
  unfold P. rewrite map_positions. apply map_ext. intros ix.
  rewrite map_flat_map, flat_map_positions. apply flat_map_ext. intros jx.
  now rewrite !map_map.
Qed.

(** the three concatenated arrays are the projections of the candidates *)

Variable self_loops : bool.

Let cands (ix : nat * vec3) : list entry :=
  candidates self_loops lattice imgs coordinates (fst ix) (snd ix).

Lemma candidates_indices :
  zip_with (@app _)
    (map (fun ix => map (fun jx => (fst ix, fst jx)) (center_kept coordinates self_loops (fst ix))) P)
    (map (fun ix => flat_map (fun jx => map (fun _ => (fst ix, fst jx)) imgs) P) P) =
  map (fun ix => map (fun e : entry => fst (fst e)) (cands ix)) P.
Proof.
  rewrite zip_with_map. apply map_ext. intros ix.
  unfold cands, candidates, center_candidates, image_candidates. fold P.
  rewrite map_app, map_map, map_flat_map. f_equal.
  apply flat_map_ext. intros jx. now rewrite map_map.
Qed.

Lemma candidates_images :
  zip_with (@app _)
    (map (fun ix => map (fun _ => ivec_zero) (center_kept coordinates self_loops (fst ix))) P)
    (map (fun ix : nat * vec3 =>
            flat_map (fun jx : nat * vec3 => map (fun k => k) imgs) P) P) =
  map (fun ix => map e_image (cands ix)) P.
Proof.
  rewrite zip_with_map. apply map_ext. intros ix.
  unfold cands, candidates, center_candidates, image_candidates. fold P.
  rewrite map_app, map_map, map_flat_map. f_equal.
  apply flat_map_ext. intros jx. now rewrite map_map.
Qed.

Lemma candidates_dist :
  map (map vnorm)
    (zip_with (@app _)
       (map (fun ix => map (fun jx => vsub (snd jx) (snd ix)) (center_kept coordinates self_loops (fst ix))) P)
       (map (fun ix =>
               flat_map (fun jx =>
                           map (fun k => vsub (vadd (snd jx) (vec_mat (ivec_R k) lattice))
                                              (snd ix)) imgs) P) P)) =
  map (fun ix => map e_dist (cands ix)) P.
Proof.
  rewrite zip_with_map, map_map. apply map_ext. intros ix.
  unfold cands, candidates, center_candidates, image_candidates. fold P.
  rewrite !map_app, !map_map, !map_flat_map. f_equal.
  apply flat_map_ext. intros jx. now rewrite !map_map.
Qed.

End Rows.

Lemma select_rows (argsort : list R -> list nat) (sort_distance : bool) (d : R)
    {X : Type} (P : list X) (cands : X -> list entry) :
  let dist_indices := map (fun ix => map (fun e : entry => fst (fst e)) (cands ix)) P in
  let dist_images := map (fun ix => map e_image (cands ix)) P in
  let dist := map (fun ix => map e_dist (cands ix)) P in
  let arg_sort := map argsort dist in
  let dist_sort :=
    if sort_distance then zip_with (take_along 0) dist arg_sort else dist in
  let dist_indices_sort :=
    if sort_distance then zip_with (take_along (0%nat, 0%nat)) dist_indices arg_sort
    else dist_indices in
  let dist_images_sort :=
    if sort_distance then zip_with (take_along ivec_zero) dist_images arg_sort
    else dist_images in
  let mask := map (map (fun x => Rleb x d)) dist_sort in
  let l := concat (map (fun ix => row_output argsort sort_distance d (cands ix)) P) in
  (concat (zip_with mask_select dist_indices_sort mask),
   concat (zip_with mask_select dist_images_sort mask),
   concat (zip_with mask_select dist_sort mask)) =
  (map (fun e : entry => fst (fst e)) l, map e_image l, map e_dist l).
Proof.
  cbv zeta.
  set (sorted := fun ix => row_sorted argsort sort_distance (cands ix)).
  assert (Hd : (if sort_distance
                then zip_with (take_along 0) (map (fun ix => map e_dist (cands ix)) P)
                       (map argsort (map (fun ix => map e_dist (cands ix)) P))
                else map (fun ix => map e_dist (cands ix)) P) =
               map (fun ix => map e_dist (sorted ix)) P).
  { unfold sorted, row_sorted. destruct sort_distance; [| reflexivity].
    rewrite map_map, zip_with_map. apply map_ext. intros ix.
    now apply take_along_proj. }
  assert (Hi : (if sort_distance
                then zip_with (take_along (0%nat, 0%nat))
                       (map (fun ix => map (fun e : entry => fst (fst e)) (cands ix)) P)
                       (map argsort (map (fun ix => map e_dist (cands ix)) P))
                else map (fun ix => map (fun e : entry => fst (fst e)) (cands ix)) P) =
               map (fun ix => map (fun e : entry => fst (fst e)) (sorted ix)) P).
  { unfold sorted, row_sorted. destruct sort_distance; [| reflexivity].
    rewrite map_map, zip_with_map. apply map_ext. intros ix.
    now apply take_along_proj. }
  assert (Hm : (if sort_distance
                then zip_with (take_along ivec_zero)
                       (map (fun ix => map e_image (cands ix)) P)
                       (map argsort (map (fun ix => map e_dist (cands ix)) P))
                else map (fun ix => map e_image (cands ix)) P) =
               map (fun ix => map e_image (sorted ix)) P).
  { unfold sorted, row_sorted. destruct sort_distance; [| reflexivity].
    rewrite map_map, zip_with_map. apply map_ext. intros ix.
    now apply take_along_proj. }
  rewrite Hd, Hi, Hm. rewrite (map_map _ (map (fun x => Rleb x d))).
  rewrite !zip_with_map, !concat_map, !map_map.
  unfold row_output. fold sorted.
  f_equal; [f_equal |]; f_equal; apply map_ext; intros ix;
    rewrite map_map; apply mask_select_map.
Qed.

Lemma range_neighbour_lattice_rows
    (argsort : list R -> list nat) (coordinates : list vec3) (lattice inv : mat3)
    (d : R) (self_loops sort_distance : bool) :
  inv3 (transpose lattice) = ret inv ->
  coordinates <> [] \/ self_loops = true ->
  range_neighbour_lattice argsort coordinates lattice (Some d)
    self_loops sort_distance =
  ret (let l := concat (neighbour_rows argsort coordinates lattice inv d
                          self_loops sort_distance) in
       (map (fun e : entry => fst (fst e)) l, map e_image l, map e_dist l)).
Proof.
  intros Hinv Hne. unfold range_neighbour_lattice. rewrite Hinv.
  cbn [bind ret add_max_distance]. cbv zeta.
  rewrite !mask_select_filter, !prune_shifts, !prune_images.
  fold (lattice_reach lattice d). fold (bounding_box lattice inv d).
  fold (lattice_images lattice inv d).
  rewrite (center_arrays coordinates self_loops Hne).
  cbn [bind ret].
  rewrite !image_indices_form, !image_images_form, !image_dist_form.
  rewrite (candidates_indices coordinates lattice).
  rewrite (candidates_images coordinates lattice).
  rewrite !candidates_dist.
  unfold neighbour_rows. f_equal.
  apply (select_rows argsort sort_distance d (indexed coordinates)
           (fun ix => candidates self_loops lattice (lattice_images lattice inv d)
                        coordinates (fst ix) (snd ix))).
Qed.

(** ** Sorting the rows *)

Lemma entries_of_entries (l : list entry) : entries (of_entries l) = l.
Proof.
  unfold entries, of_entries. rewrite !combine_map_same.
  transitivity (map (fun e : entry => e) l); [| apply map_id].
  apply map_ext. intros e. apply entry_eta.
Qed.

Lemma map_nth_all {A : Type} (d : A) (l : list A) :
  map (fun k => nth k l d) (seq 0 (length l)) = l.
Proof.
  induction l as [| x l IH]; simpl; [reflexivity |].
  f_equal. rewrite <- seq_shift, map_map. exact IH.
Qed.

Lemma take_along_permutation {A : Type} (d : A) (l : list A) (idx : list nat) :
  Permutation idx (seq 0 (length l)) -> Permutation (take_along d l idx) l.
Proof.
  intros H. unfold take_along.
  apply (Permutation_map (fun k => nth k l d)) in H.
  now rewrite map_nth_all in H.
Qed.

Lemma filter_permutation {A : Type} (f : A -> bool) (l l' : list A) :
  Permutation l l' -> Permutation (filter f l) (filter f l').
Proof.
  induction 1 as [| x l l' _ IH | x y l | l l' l'' _ IH1 _ IH2]; simpl.
  - constructor.
  - destruct (f x); [now constructor | assumption].
  - destruct (f x), (f y); try reflexivity. constructor.
  - now transitivity (filter f l').
Qed.

Lemma strongly_sorted_filter {A : Type} (R : A -> A -> Prop) (f : A -> bool) (l : list A) :
  StronglySorted R l -> StronglySorted R (filter f l).
Proof.
  induction 1 as [| x l Hs IH Hx]; simpl; [constructor |].
  destruct (f x); [| assumption]. constructor; [assumption |].
  rewrite Forall_forall in *. intros y Hy. apply filter_In in Hy. now apply Hx.
Qed.

Lemma strongly_sorted_map {A B : Type} (R : B -> B -> Prop) (g : A -> B) (l : list A) :
  StronglySorted R (map g l) <-> StronglySorted (fun x y => R (g x) (g y)) l.
Proof.
  induction l as [| x l IH]; simpl; split; intros H; try constructor;
    inversion H; subst; try (now apply IH).
  - rewrite Forall_forall in *. intros y Hy. now apply H3, in_map.
  - rewrite Forall_forall in *. intros y Hy. apply in_map_iff in Hy as [z [<- Hz]].
    now apply H3.
Qed.

Lemma Rle_transitive : Relations_1.Transitive Rle.
Proof. intros x y z. apply Rle_trans. Qed.

Lemma sorted_dist_filter (f : entry -> bool) (l : list entry) :
  Sorted Rle (map e_dist l) -> Sorted Rle (map e_dist (filter f l)).
Proof.
  intros H. apply StronglySorted_Sorted, strongly_sorted_map, strongly_sorted_filter.
  apply strongly_sorted_map. apply Sorted_StronglySorted; [| exact H].
  exact Rle_transitive.
Qed.

Section Sorting.

Variable argsort : list R -> list nat.
Hypothesis argsort_ok : argsort_spec argsort.

Lemma row_sorted_permutation (sort_distance : bool) (cands : list entry) :
  Permutation (row_sorted argsort sort_distance cands) cands.
Proof.
  unfold row_sorted. destruct sort_distance; [| reflexivity].
  apply take_along_permutation.
  destruct (argsort_ok (map e_dist cands)) as [Hp _].
  now rewrite length_map in Hp.
Qed.

Lemma row_sorted_sorted (cands : list entry) :
  Sorted Rle (map e_dist (row_sorted argsort true cands)).
Proof.
  unfold row_sorted.
  rewrite <- (take_along_proj e_dist entry_zero 0) by reflexivity.
  apply argsort_ok.
Qed.

Lemma row_output_permutation (sort_distance : bool) (d : R) (cands : list entry) :
  Permutation (row_output argsort sort_distance d cands)
              (filter (fun e => Rleb (e_dist e) d) cands).
Proof. apply filter_permutation, row_sorted_permutation. Qed.

Lemma row_output_in (sort_distance : bool) (d : R) (cands : list entry) (e : entry) :
  In e (row_output argsort sort_distance d cands) <-> In e cands /\ e_dist e <= d.
Proof.
  split.
  - intros H.
    apply (Permutation_in _ (row_output_permutation sort_distance d cands)) in H.
    apply filter_In in H as [H1 H2]. split; [exact H1 | now apply Rleb_true].
  - intros [H1 H2].
    apply (Permutation_in _
             (Permutation_sym (row_output_permutation sort_distance d cands))).
    apply filter_In. split; [exact H1 | now apply Rleb_true].
Qed.

Lemma row_output_sorted (d : R) (cands : list entry) :
  Sorted Rle (map e_dist (row_output argsort true d cands)).
Proof. apply sorted_dist_filter, row_sorted_sorted. Qed.

End Sorting.

(** ** The candidates of a row *)

Lemma center_candidates_in (self_loops : bool) (coordinates : list vec3)
    (i : nat) (xi : vec3) (e : entry) :
  In e (center_candidates self_loops coordinates i xi) <->
  exists j xj, In (j, xj) (indexed coordinates) /\
               (self_loops = true \/ i <> j) /\
               e = (i, j, ivec_zero, vnorm (vsub xj xi)).
Proof.
  unfold center_candidates, center_kept. rewrite in_map_iff. split.
  - intros [[j xj] [<- Hin]]. apply filter_In in Hin as [Hin Hk]. cbn [fst snd] in *.
    exists j, xj. split; [assumption |]. split; [| reflexivity].
    destruct self_loops; [now left | right].
    cbn in Hk. now apply Nat.eqb_neq, negb_true_iff.
  - intros (j & xj & Hin & Hk & ->). exists (j, xj). split; [reflexivity |].
    apply filter_In. split; [assumption |]. cbn [fst].
    destruct Hk as [-> | Hk]; [reflexivity |].
    apply Nat.eqb_neq in Hk. rewrite Hk. now destruct self_loops.
Qed.

Lemma image_candidates_in (lattice : mat3) (images : list ivec3)
    (coordinates : list vec3) (i : nat) (xi : vec3) (e : entry) :
  In e (image_candidates lattice images coordinates i xi) <->
  exists j xj k, In (j, xj) (indexed coordinates) /\ In k images /\
                 e = (i, j, k, vnorm (vsub (vadd xj (vec_mat (ivec_R k) lattice)) xi)).
Proof.
  unfold image_candidates. rewrite in_flat_map. split.
  - intros [[j xj] [Hin He]]. apply in_map_iff in He as [k [<- Hk]].
    now exists j, xj, k.
  - intros (j & xj & k & Hin & Hk & ->). exists (j, xj). split; [assumption |].
    apply in_map_iff. now exists k.
Qed.

Lemma candidates_center (self_loops : bool) (lattice : mat3) (images : list ivec3)
    (coordinates : list vec3) (i : nat) (xi : vec3) :
  Forall (fun e => e_center e = i)
         (candidates self_loops lattice images coordinates i xi).
Proof.
  apply Forall_forall. intros e He. unfold candidates in He.
  apply in_app_or in He as [He | He].
  - apply center_candidates_in in He as (j & xj & _ & _ & ->). reflexivity.
  - apply image_candidates_in in He as (j & xj & k & _ & _ & ->). reflexivity.
Qed.

Lemma combine_seq_nth_error {A : Type} (l : list A) (s i : nat) (p : nat * A) :
  nth_error (combine (seq s (length l)) l) i = Some p <->
  fst p = (s + i)%nat /\ nth_error l i = Some (snd p).
Proof.
  revert s i. induction l as [| x l IH]; intros s [| i]; simpl.
  - split; [discriminate | intros [_ H]; discriminate].
  - split; [discriminate | intros [_ H]; discriminate].
  - destruct p as [j y]. cbn [fst snd]. split.
    + intros [= <- <-]. split; [lia | reflexivity].
    + intros [-> [= ->]]. do 2 f_equal. lia.
  - rewrite IH. replace (S s + i)%nat with (s + S i)%nat by lia. reflexivity.
Qed.

Lemma indexed_nth_error (coordinates : list vec3) (i : nat) (ix : nat * vec3) :
  nth_error (indexed coordinates) i = Some ix <->
  fst ix = i /\ nth_error coordinates i = Some (snd ix).
Proof. unfold indexed. now rewrite combine_seq_nth_error. Qed.

Lemma indexed_in (coordinates : list vec3) (i : nat) (xi : vec3) :
  In (i, xi) (indexed coordinates) <-> nth_error coordinates i = Some xi.
Proof.
  split.
  - intros H. apply In_nth_error in H as [k Hk].
    apply indexed_nth_error in Hk as [Hk1 Hk2]. cbn [fst snd] in *. now subst k.
  - intros H. apply (nth_error_In _ i). apply indexed_nth_error. now split.
Qed.

(** C10: the output is the concatenation of one group per central node, in
    the order of the nodes; every entry of group [i] has central node [i];
    with [sort_distance] the distances of a group are in non-decreasing
    order, also after the cut at [max_distance]. *)
Theorem range_neighbour_lattice_grouped_sorted
    (argsort : list R -> list nat) (coordinates : list vec3) (lattice : mat3)
    (d : R) (self_loops sort_distance : bool) :
  argsort_spec argsort ->
  det3 lattice <> 0 ->
  coordinates <> [] \/ self_loops = true ->
  exists rows : list (list entry),
    range_neighbour_lattice argsort coordinates lattice (Some d)
      self_loops sort_distance = ret (of_entries (concat rows)) /\
    length rows = length coordinates /\
    forall (i : nat) (row : list entry),
      nth_error rows i = Some row ->
      Forall (fun e => e_center e = i) row /\
      (sort_distance = true -> Sorted Rle (map e_dist row)).
Proof.
  intros Hsort Hdet Hne.
  destruct (inv3_regular (transpose lattice)) as [inv Hinv];
    [now rewrite det3_transpose |].
  exists (neighbour_rows argsort coordinates lattice inv d self_loops sort_distance).
  split; [| split].
  - now apply range_neighbour_lattice_rows.
  - unfold neighbour_rows. now rewrite length_map, length_indexed.
  - intros i row Hrow. unfold neighbour_rows in Hrow.
    rewrite nth_error_map in Hrow.
    destruct (nth_error (indexed coordinates) i) as [ix |] eqn:Hix; [| discriminate].
    injection Hrow as <-.
    apply indexed_nth_error in Hix as [<- _]. split.
    + apply Forall_forall. intros e He.
      apply (row_output_in argsort Hsort) in He as [He _].
      pose proof (candidates_center self_loops lattice
                    (lattice_images lattice inv d) coordinates (fst ix) (snd ix)) as Hc.
      rewrite Forall_forall in Hc. now apply Hc.
    + intros ->. now apply row_output_sorted.
Qed.

(** ** The insertion sort is an argsort *)

Lemma insert_index_permutation (l : list R) (k : nat) (acc : list nat) :
  Permutation (insert_index l k acc) (k :: acc).
Proof.
  induction acc as [| j acc IH]; simpl; [reflexivity |].
  destruct (Rleb (nth k l 0) (nth j l 0)); [reflexivity |].
  rewrite IH. apply perm_swap.
Qed.

Lemma insert_index_sorted (l : list R) (k : nat) (acc : list nat) :
  Sorted Rle (take_along 0 l acc) ->
  Sorted Rle (take_along 0 l (insert_index l k acc)).
Proof.
  unfold take_along. induction acc as [| j acc IH]; simpl; intros H.
  - repeat constructor.
  - destruct (Rleb (nth k l 0) (nth j l 0)) eqn:E; simpl.
    + constructor; [exact H |]. constructor. now apply Rleb_true.
    + apply Rleb_false in E. inversion H as [| ? ? Hs Hh]; subst.
      constructor; [now apply IH |].
      destruct acc as [| i acc]; simpl.
      * constructor. lra.
      * destruct (Rleb (nth k l 0) (nth i l 0)); simpl; constructor.
        -- lra.
        -- now inversion Hh.
Qed.

Lemma insertion_argsort_ok : argsort_spec insertion_argsort.
Proof.
  intros l. unfold insertion_argsort. generalize (seq 0 (length l)) as ks.
  induction ks as [| k ks [IH1 IH2]]; simpl.
  - split; [reflexivity | constructor].
  - split.
    + rewrite insert_index_permutation. now constructor.
    + now apply insert_index_sorted.
Qed.

Lemma range_neighbour_lattice_grouped_sorted_witness :
  exists rows : list (list entry),
    range_neighbour_lattice insertion_argsort [(0, 0, 0)] mat_id (Some 4)
      false true = ret (of_entries (concat rows)) /\
    length rows = length [(0, 0, 0)] /\
    forall (i : nat) (row : list entry),
      nth_error rows i = Some row ->
      Forall (fun e => e_center e = i) row /\
      (true = true -> Sorted Rle (map e_dist row)).
Proof.
  apply (range_neighbour_lattice_grouped_sorted insertion_argsort
           [(0, 0, 0)] mat_id 4 false true).
  - exact insertion_argsort_ok.
  - unfold det3, mat_id. lra.
  - left. discriminate.
Defined.

(** ** Symmetry of the neighbour relation *)

Lemma vnorm_vsub_sym (u v : vec3) : vnorm (vsub u v) = vnorm (vsub v u).
Proof.
  destruct u as [[a b] c], v as [[x y] z]. unfold vnorm, vsub. f_equal. ring.
Qed.

Lemma vnorm_image_sym (lattice : mat3) (k : ivec3) (xi xj : vec3) :
  vnorm (vsub (vadd xi (vec_mat (ivec_R (ivec_opp k)) lattice)) xj) =
  vnorm (vsub (vadd xj (vec_mat (ivec_R k) lattice)) xi).
Proof.
  destruct lattice as [[[[a b] c] [[d e] f]] [[g h] i]].
  destruct k as [[k0 k1] k2], xi as [[x y] z], xj as [[u v] w].
  cbv [vnorm vsub vadd vec_mat vscale ivec_R ivec_opp].
  rewrite !opp_IZR. f_equal. ring.
Qed.

Lemma vnorm_image_opp (lattice : mat3) (k : ivec3) :
  vnorm (vec_mat (ivec_R (ivec_opp k)) lattice) = vnorm (vec_mat (ivec_R k) lattice).
Proof.
  destruct lattice as [[[[a b] c] [[d e] f]] [[g h] i]].
  destruct k as [[k0 k1] k2].
  cbv [vnorm vadd vec_mat vscale ivec_R ivec_opp].
  rewrite !opp_IZR. f_equal. ring.
Qed.

Lemma arange_in (i j x : Z) : In x (arange i j) <-> (i <= x < j)%Z.
Proof.
  unfold arange. rewrite in_map_iff. split.
  - intros [n [<- Hn]]. apply in_seq in Hn. lia.
  - intros H. exists (Z.to_nat (x - i)). split; [lia |]. apply in_seq. lia.
Qed.

Lemma mesh_grid_list_in (bl br k : ivec3) :
  In k (mesh_grid_list bl br) <->
  (fst (fst bl) <= fst (fst k) <= fst (fst br))%Z /\
  (snd (fst bl) <= snd (fst k) <= snd (fst br))%Z /\
  (snd bl <= snd k <= snd br)%Z.
Proof.
  destruct bl as [[l0 l1] l2], br as [[r0 r1] r2], k as [[x y] z].
  unfold mesh_grid_list. cbn [fst snd]. rewrite in_flat_map. split.
  - intros [z' [Hz H]]. apply in_flat_map in H as [x' [Hx H]].
    apply in_map_iff in H as [y' [[= -> -> ->] Hy]].
    apply arange_in in Hx, Hy, Hz. lia.
  - intros (Hx & Hy & Hz). exists z. split; [apply arange_in; lia |].
    apply in_flat_map. exists x. split; [apply arange_in; lia |].
    apply in_map_iff. exists y. split; [reflexivity | apply arange_in; lia].
Qed.

Lemma ivec_eqb_eq (k l : ivec3) : ivec_eqb k l = true <-> k = l.
Proof.
  destruct k as [[x y] z], l as [[a b] c]. unfold ivec_eqb.
  rewrite !andb_true_iff, !Z.eqb_eq. split.
  - intros [[-> ->] ->]. reflexivity.
  - intros [= -> -> ->]. auto.
Qed.

Lemma ivec_opp_involutive (k : ivec3) : ivec_opp (ivec_opp k) = k.
Proof. destruct k as [[x y] z]. unfold ivec_opp. now rewrite !Z.opp_involutive. Qed.

Lemma lattice_images_in (lattice inv : mat3) (d : R) (k : ivec3) :
  In k (lattice_images lattice inv d) <->
  In k (mesh_grid_list (ivec_opp (bounding_box lattice inv d))
                       (bounding_box lattice inv d)) /\
  k <> ivec_zero /\
  vnorm (vec_mat (ivec_R k) lattice) <= lattice_reach lattice d.
Proof.
  unfold lattice_images. cbv zeta. rewrite !filter_In, Rleb_true, negb_true_iff.
  rewrite <- not_true_iff_false, ivec_eqb_eq. tauto.
Qed.

Lemma lattice_images_opp (lattice inv : mat3) (d : R) (k : ivec3) :
  In k (lattice_images lattice inv d) -> In (ivec_opp k) (lattice_images lattice inv d).
Proof.
  rewrite !lattice_images_in. intros (Hg & Hz & Hn). split; [| split].
  - apply mesh_grid_list_in in Hg. apply mesh_grid_list_in.
    destruct (bounding_box lattice inv d) as [[b0 b1] b2], k as [[x y] z].
    cbn [ivec_opp fst snd] in *. lia.
  - intros H. apply Hz. rewrite <- (ivec_opp_involutive k), H. reflexivity.
  - now rewrite vnorm_image_opp.
Qed.

Lemma neighbour_rows_in
    (argsort : list R -> list nat) (coordinates : list vec3) (lattice inv : mat3)
    (d : R) (self_loops sort_distance : bool) (e : entry) :
  argsort_spec argsort ->
  In e (concat (neighbour_rows argsort coordinates lattice inv d
                  self_loops sort_distance)) <->
  exists i xi,
    In (i, xi) (indexed coordinates) /\
    In e (candidates self_loops lattice (lattice_images lattice inv d) coordinates i xi) /\
    e_dist e <= d.
Proof.
  intros Hsort. rewrite in_concat. unfold neighbour_rows. split.
  - intros [row [Hrow He]]. apply in_map_iff in Hrow as [[i xi] [<- Hix]].
    apply (row_output_in argsort Hsort) in He. now exists i, xi.
  - intros (i & xi & Hix & He). eexists. split.
    + apply in_map_iff. exists (i, xi). split; [reflexivity | exact Hix].
    + now apply (row_output_in argsort Hsort).
Qed.

(** C5, in exact arithmetic: on an invertible lattice with a numeric
    cutoff, every entry (i, j, image) of the output has its mirror entry
    (j, i, -image) in the same output, with the same distance. *)
Theorem range_neighbour_lattice_symmetric
    (argsort : list R -> list nat) (coordinates : list vec3) (lattice : mat3)
    (d : R) (self_loops sort_distance : bool) :
  argsort_spec argsort ->
  det3 lattice <> 0 ->
  coordinates <> [] \/ self_loops = true ->
  exists out : neighbours,
    range_neighbour_lattice argsort coordinates lattice (Some d)
      self_loops sort_distance = ret out /\
    forall (i j : nat) (image : ivec3) (dist : R),
      In (i, j, image, dist) (entries out) ->
      In (j, i, ivec_opp image, dist) (entries out).
Proof.
  intros Hsort Hdet Hne.
  destruct (inv3_regular (transpose lattice)) as [inv Hinv];
    [now rewrite det3_transpose |].
  eexists. split; [apply range_neighbour_lattice_rows; eassumption |].
  cbv zeta. fold (of_entries (concat (neighbour_rows argsort coordinates lattice inv d
                                        self_loops sort_distance))).
  rewrite entries_of_entries.
  intros i j image dist He.
  apply (neighbour_rows_in argsort _ _ _ _ _ _ _ Hsort) in He
    as (i' & xi & Hix & He & Hd).
  apply (neighbour_rows_in argsort _ _ _ _ _ _ _ Hsort).
  unfold candidates in He. apply in_app_or in He as [He | He].
  - apply center_candidates_in in He as (j' & xj & Hjx & Hk & [= -> -> -> ->]).
    exists j', xj. split; [exact Hjx |]. split.
    + unfold candidates. apply in_or_app. left.
      apply center_candidates_in. exists i', xi. split; [exact Hix |]. split.
      * destruct Hk as [Hk | Hk]; [now left | right; congruence].
      * cbn [ivec_opp ivec_zero]. now rewrite vnorm_vsub_sym.
    + unfold e_dist in *. cbn [snd] in *. exact Hd.
  - apply image_candidates_in in He as (j' & xj & k & Hjx & Hk & [= -> -> -> ->]).
    exists j', xj. split; [exact Hjx |]. split.
    + unfold candidates. apply in_or_app. right.
      apply image_candidates_in. exists i', xi, (ivec_opp k).
      split; [exact Hix |]. split; [now apply lattice_images_opp |].
      now rewrite vnorm_image_sym.
    + unfold e_dist in *. cbn [snd] in *. exact Hd.
Qed.

Lemma range_neighbour_lattice_symmetric_witness :
  exists out : neighbours,
    range_neighbour_lattice insertion_argsort [(0, 0, 0)] mat_id (Some 4)
      false true = ret out /\
    forall (i j : nat) (image : ivec3) (dist : R),
      In (i, j, image, dist) (entries out) ->
      In (j, i, ivec_opp image, dist) (entries out).
Proof.
  apply (range_neighbour_lattice_symmetric insertion_argsort
           [(0, 0, 0)] mat_id 4 false true).
  - exact insertion_argsort_ok.
  - unfold det3, mat_id. lra.
  - left. discriminate.
Defined.

(** C5 fails as stated in float64.  One atom at x = 1.23 in the cubic
    cell of constant 3, with [max_distance = 3]: the displacement to the
    image (-1, 0, 0) is computed as (1.23 - 3) - 1.23 = -3 and the entry is
    kept at distance 3; the displacement to the mirror image (1, 0, 0) is
    computed as (1.23 + 3) - 1.23 = 3.0000000000000004 and the entry is
    dropped.  The output has five entries, not six. *)
Lemma range_neighbour_lattice_mirror_dropped :
  exists out : F64.neighbours,
    F64.range_neighbour_lattice F64.inv_diagonal F64.insertion_argsort
      F64.off_origin (F64.cubic_lattice 3) (Some 3%float) false true = ret out /\
    length (F64.entries out) = 5%nat /\
    In (0%nat, 0%nat, (-1, 0, 0)%Z, 3%float) (F64.entries out) /\
    forall dist, ~ In (0%nat, 0%nat, ivec_opp (-1, 0, 0)%Z, dist) (F64.entries out).
Proof.
  exists ([(0, 0); (0, 0); (0, 0); (0, 0); (0, 0)]%nat,
          [(0, 0, -1); (-1, 0, 0); (0, -1, 0); (0, 1, 0); (0, 0, 1)]%Z,
          [3; 3; 3; 3; 3]%float).
  split; [vm_compute; reflexivity |].
  split; [reflexivity |].
  split; [right; left; reflexivity |].
  intros dist H. cbn in H.
  repeat (destruct H as [H | H]; [discriminate H |]). exact H.
Qed.

(** ** Self loops *)

Lemma permutation_flat_map {A B : Type} (f g : A -> list B) (l : list A) :
  (forall x, In x l -> Permutation (f x) (g x)) ->
  Permutation (flat_map f l) (flat_map g l).
Proof.
  induction l as [| x l IH]; simpl; intros H; [constructor |].
  apply Permutation_app; [apply H; now left |]. apply IH. intros y Hy. apply H. now right.
Qed.

Lemma filter_flat_map {A B : Type} (p : B -> bool) (f : A -> list B) (l : list A) :
  filter p (flat_map f l) = flat_map (fun x => filter p (f x)) l.
Proof.
  induction l as [| x l IH]; simpl; [reflexivity |]. now rewrite filter_app, IH.
Qed.

Lemma filter_none {A : Type} (p : A -> bool) (l : list A) :
  (forall x, In x l -> p x = false) -> filter p l = [].
Proof.
  induction l as [| x l IH]; simpl; intros H; [reflexivity |].
  rewrite (H x) by now left. apply IH. intros y Hy. apply H. now right.
Qed.

Lemma filter_every {A : Type} (p : A -> bool) (l : list A) :
  (forall x, In x l -> p x = true) -> filter p l = l.
Proof.
  induction l as [| x l IH]; simpl; intros H; [reflexivity |].
  rewrite (H x) by now left. f_equal. apply IH. intros y Hy. apply H. now right.
Qed.

Lemma filter_swap {A : Type} (p q : A -> bool) (l : list A) :
  filter p (filter q l) = filter q (filter p l).
Proof.
  induction l as [| x l IH]; simpl; [reflexivity |].
  destruct (p x) eqn:Hp, (q x) eqn:Hq; simpl; rewrite ?Hp, ?Hq, IH; reflexivity.
Qed.

Lemma flat_map_support {A B : Type} (p : A -> bool) (g : A -> list B) (l : list A) :
  (forall x, In x l -> p x = false -> g x = []) ->
  flat_map g l = flat_map g (filter p l).
Proof.
  induction l as [| x l IH]; simpl; intros H; [reflexivity |].
  rewrite IH by (intros y Hy; apply H; now right).
  destruct (p x) eqn:Hp; simpl; [reflexivity |].
  now rewrite (H x) by auto.
Qed.

Lemma combine_seq_filter_index {A : Type} (l : list A) (s i : nat) (x : A) :
  nth_error l i = Some x ->
  filter (fun jx => Nat.eqb (s + i) (fst jx)) (combine (seq s (length l)) l) =
  [((s + i)%nat, x)].
Proof.
  revert s i. induction l as [| y l IH]; intros s [| i] H; simpl in *; try discriminate.
  - injection H as ->. rewrite Nat.add_0_r, Nat.eqb_refl. f_equal.
    apply filter_none. intros [j z] Hj. cbn [fst].
    apply in_combine_l, in_seq in Hj. apply Nat.eqb_neq. lia.
  - destruct (Nat.eqb_spec (s + S i) s) as [E | _]; [lia |].
    replace (s + S i)%nat with (S s + i)%nat by lia. now apply IH.
Qed.

Lemma indexed_filter_index (coordinates : list vec3) (i : nat) (xi : vec3) :
  nth_error coordinates i = Some xi ->
  filter (fun jx => Nat.eqb i (fst jx)) (indexed coordinates) = [(i, xi)].
Proof. intros H. exact (combine_seq_filter_index coordinates 0 i xi H). Qed.

Lemma vnorm_nonneg (v : vec3) : 0 <= vnorm v.
Proof. destruct v as [[a b] c]. apply sqrt_pos. Qed.

Lemma vnorm_vsub_self (v : vec3) : vnorm (vsub v v) = 0.
Proof.
  destruct v as [[a b] c]. unfold vnorm, vsub.
  replace ((a - a) * (a - a) + (b - b) * (b - b) + (c - c) * (c - c)) with 0 by ring.
  apply sqrt_0.
Qed.

Lemma candidates_dist_nonneg (self_loops : bool) (lattice : mat3) (images : list ivec3)
    (coordinates : list vec3) (i : nat) (xi : vec3) (e : entry) :
  In e (candidates self_loops lattice images coordinates i xi) -> 0 <= e_dist e.
Proof.
  intros He. unfold candidates in He. apply in_app_or in He as [He | He].
  - apply center_candidates_in in He as (j & xj & _ & _ & ->). apply vnorm_nonneg.
  - apply image_candidates_in in He as (j & xj & k & _ & _ & ->). apply vnorm_nonneg.
Qed.

Section Unsorted.

Variable argsort : list R -> list nat.
Hypothesis argsort_ok : argsort_spec argsort.

Variables (coordinates : list vec3) (lattice inv : mat3) (d : R).

Lemma neighbour_rows_permutation (self_loops sort_distance : bool) :
  Permutation
    (concat (neighbour_rows argsort coordinates lattice inv d self_loops sort_distance))
    (within_cutoff coordinates lattice inv d self_loops).
Proof.
  unfold neighbour_rows, within_cutoff. rewrite <- flat_map_concat_map.
  apply permutation_flat_map. intros ix _.
  now apply row_output_permutation.
Qed.

End Unsorted.

Section WithinCutoff.

Variables (coordinates : list vec3) (lattice inv : mat3) (d : R).

Let imgs := lattice_images lattice inv d.

Lemma image_candidates_not_self (i : nat) (xi : vec3) (e : entry) :
  In e (image_candidates lattice imgs coordinates i xi) -> is_self_loop e = false.
Proof.
  intros He. apply image_candidates_in in He as (j & xj & k & _ & Hk & ->).
  apply lattice_images_in in Hk as (_ & Hz & _).
  unfold is_self_loop. cbn [e_center e_neighbour e_image fst snd].
  apply andb_false_iff. right. apply not_true_iff_false.
  now rewrite ivec_eqb_eq.
Qed.

Lemma center_candidates_not_self (i : nat) (xi : vec3) (e : entry) :
  In e (center_candidates false coordinates i xi) -> is_self_loop e = false.
Proof.
  intros He. apply center_candidates_in in He as (j & xj & _ & Hk & ->).
  destruct Hk as [Hk | Hk]; [discriminate |].
  unfold is_self_loop. cbn [e_center e_neighbour e_image fst snd].
  apply Nat.eqb_neq in Hk. now rewrite Hk.
Qed.

Lemma within_cutoff_no_self (e : entry) :
  In e (within_cutoff coordinates lattice inv d false) -> is_self_loop e = false.
Proof.
  unfold within_cutoff. rewrite in_flat_map. intros [[i xi] [_ He]].
  apply filter_In in He as [He _]. unfold candidates in He.
  apply in_app_or in He as [He | He].
  - now apply center_candidates_not_self in He.
  - now apply image_candidates_not_self in He.
Qed.

Lemma center_candidates_drop_self (i : nat) (xi : vec3) :
  filter (fun e => negb (is_self_loop e)) (center_candidates true coordinates i xi) =
  center_candidates false coordinates i xi.
Proof.
  unfold center_candidates, center_kept. rewrite filter_map_swap. f_equal.
  cbn [orb]. rewrite filter_true. apply filter_ext. intros [j xj].
  unfold is_self_loop. cbn [e_center e_neighbour e_image fst snd].
  now rewrite andb_true_r.
Qed.

Lemma candidates_drop_self (i : nat) (xi : vec3) :
  filter (fun e => negb (is_self_loop e)) (candidates true lattice imgs coordinates i xi) =
  candidates false lattice imgs coordinates i xi.
Proof.
  unfold candidates. rewrite filter_app, center_candidates_drop_self. f_equal.
  apply filter_every. intros e He.
  now rewrite (image_candidates_not_self i xi e He).
Qed.

Lemma within_cutoff_drop_self :
  filter (fun e => negb (is_self_loop e)) (within_cutoff coordinates lattice inv d true) =
  within_cutoff coordinates lattice inv d false.
Proof.
  unfold within_cutoff. rewrite filter_flat_map. apply flat_map_ext. intros [i xi].
  cbn [fst snd]. rewrite filter_swap. fold imgs. now rewrite candidates_drop_self.
Qed.

(** the self pairs of node [i] among the candidates within the cutoff *)
Lemma within_cutoff_self (i : nat) (xi : vec3) :
  nth_error coordinates i = Some xi -> 0 <= d ->
  filter (fun e => Nat.eqb (e_center e) i && is_self_loop e)
         (within_cutoff coordinates lattice inv d true) =
  [(i, i, ivec_zero, 0)].
Proof.
  intros Hi Hd. unfold within_cutoff. rewrite filter_flat_map. fold imgs.
  rewrite (flat_map_support (fun jx => Nat.eqb i (fst jx))).
  2:{ intros [j xj] _ Hj. cbn [fst snd] in *. apply filter_none. intros e He.
      apply filter_In in He as [He _].
      pose proof (candidates_center true lattice imgs coordinates j xj) as Hc.
      rewrite Forall_forall in Hc. rewrite (Hc e He).
      rewrite Nat.eqb_sym, Hj. reflexivity. }
  rewrite (indexed_filter_index coordinates i xi Hi). cbn [flat_map fst snd].
  rewrite app_nil_r. unfold candidates. rewrite !filter_app.
  rewrite (filter_none _ (filter _ (image_candidates lattice imgs coordinates i xi))).
  2:{ intros e He. apply filter_In in He as [He _].
      rewrite (image_candidates_not_self i xi e He). apply andb_false_r. }
  rewrite app_nil_r. unfold center_candidates, center_kept. cbn [orb].
  rewrite filter_true, !filter_map_swap.
  cbn [e_center e_neighbour e_image e_dist fst snd is_self_loop].
  rewrite (filter_ext _ (fun jx : nat * vec3 => Nat.eqb i (fst jx))).
  2:{ intros [j xj]. cbn [fst snd]. unfold is_self_loop.
      cbn [e_center e_neighbour e_image fst snd].
      now rewrite Nat.eqb_refl, andb_true_r. }
  rewrite filter_swap, (indexed_filter_index coordinates i xi Hi).
  cbn [filter fst snd]. rewrite vnorm_vsub_self.
  assert (Hk : Rleb 0 d = true) by now apply Rleb_true.
  rewrite Hk. cbn [map fst snd]. now rewrite vnorm_vsub_self.
Qed.

End WithinCutoff.

(** ** The bounding box misses no image within the cutoff *)

Lemma inv3_correct (m inv : mat3) (v : vec3) :
  inv3 m = ret inv -> mat_vec inv (mat_vec m v) = v.
Proof.
  unfold inv3. destruct (Req_dec_T (det3 m) 0) as [| Hdet]; [discriminate |].
  destruct m as [[[[a b] c] [[d e] f]] [[g h] i]], v as [[x y] z].
  cbv [adjugate vscale det3 ret] in *. intros [= <-].
  cbv [mat_vec vdot]. f_equal; [f_equal |]; field; exact Hdet.
Qed.

Lemma mat_vec_transpose (m : mat3) (v : vec3) :
  mat_vec (transpose m) v = vec_mat v m.
Proof.
  destruct m as [[[[a b] c] [[d e] f]] [[g h] i]], v as [[x y] z].
  cbv [mat_vec transpose vdot vec_mat vadd vscale]. f_equal; [f_equal |]; ring.
Qed.

Lemma Rabs_le_sqrt (x s : R) : x * x <= s -> Rabs x <= sqrt s.
Proof.
  intros H. rewrite <- sqrt_Rsqr_abs. apply sqrt_le_1_alt. exact H.
Qed.

Lemma vdot_bound (a b c : R) (v : vec3) :
  Rabs (vdot (a, b, c) v) <= vnorm v * (Rabs a + Rabs b + Rabs c).
Proof.
  destruct v as [[x y] z]. unfold vdot, vnorm.
  set (n := sqrt (x * x + y * y + z * z)).
  assert (Hx : Rabs x <= n) by (apply Rabs_le_sqrt; nra).
  assert (Hy : Rabs y <= n) by (apply Rabs_le_sqrt; nra).
  assert (Hz : Rabs z <= n) by (apply Rabs_le_sqrt; nra).
  pose proof (Rabs_pos a). pose proof (Rabs_pos b). pose proof (Rabs_pos c).
  pose proof (Rabs_pos x). pose proof (Rabs_pos y). pose proof (Rabs_pos z).
  eapply Rle_trans; [apply Rabs_triang |].
  eapply Rle_trans; [apply Rplus_le_compat_r, Rabs_triang |].
  rewrite !Rabs_mult. nra.
Qed.

Lemma Zceil_upper (x : R) : x <= IZR (Zceil x).
Proof.
  unfold Zceil. rewrite opp_IZR. pose proof (Zfloor_bound (- x)). lra.
Qed.

Lemma Zceil_abs_bound (k : Z) (x : R) :
  Rabs (IZR k) <= x -> (- Zceil x <= k <= Zceil x)%Z.
Proof.
  intros H. pose proof (Zceil_upper x) as Hx.
  assert (H1 : IZR k <= IZR (Zceil x)).
  { eapply Rle_trans; [apply Rle_abs |]. lra. }
  assert (H2 : IZR (- k) <= IZR (Zceil x)).
  { rewrite opp_IZR. eapply Rle_trans; [apply Rle_abs |]. rewrite Rabs_Ropp. lra. }
  apply le_IZR in H1, H2. lia.
Qed.

Lemma max_radius_cell_nonneg (lattice : mat3) : 0 <= max_radius_cell lattice.
Proof.
  destruct lattice as [[r0 r1] r2]. unfold max_radius_cell.
  eapply Rle_trans; [| apply Rmax_r]. apply vnorm_nonneg.
Qed.

Lemma lattice_images_complete (lattice inv : mat3) (d : R) (k : ivec3) :
  inv3 (transpose lattice) = ret inv ->
  k <> ivec_zero ->
  vnorm (vec_mat (ivec_R k) lattice) <= d ->
  In k (lattice_images lattice inv d).
Proof.
  intros Hinv Hk Hd. apply lattice_images_in.
  pose proof (max_radius_cell_nonneg lattice) as Hr.
  assert (Hreach : vnorm (vec_mat (ivec_R k) lattice) <= lattice_reach lattice d)
    by (unfold lattice_reach; lra).
  split; [| split; assumption].
  pose proof (inv3_correct _ _ (ivec_R k) Hinv) as Hc.
  rewrite mat_vec_transpose in Hc.
  remember (vec_mat (ivec_R k) lattice) as v eqn:Ev. clear Ev.
  pose proof (vnorm_nonneg v) as Hv.
  apply mesh_grid_list_in. unfold bounding_box.
  destruct inv as [[[[a b] c] [[e f] g]] [[h i] j]], k as [[k0 k1] k2].
  cbv [mat_vec vdot ivec_R] in Hc. injection Hc as H0 H1 H2.
  pose proof (vdot_bound a b c v) as B0.
  pose proof (vdot_bound e f g v) as B1.
  pose proof (vdot_bound h i j v) as B2.
  cbv [vdot] in B0, B1, B2.
  rewrite H0 in B0. rewrite H1 in B1. rewrite H2 in B2.
  pose proof (Rabs_pos a). pose proof (Rabs_pos b). pose proof (Rabs_pos c).
  pose proof (Rabs_pos e). pose proof (Rabs_pos f). pose proof (Rabs_pos g).
  pose proof (Rabs_pos h). pose proof (Rabs_pos i). pose proof (Rabs_pos j).
  cbv [abs_row_sums vscale ceil_vec ivec_opp fst snd].
  repeat split; apply Zceil_abs_bound; nra.
Qed.

Lemma vnorm_shift_back (x s : vec3) : vnorm (vsub (vadd x s) x) = vnorm s.
Proof.
  destruct x as [[a b] c], s as [[u v] w]. unfold vnorm, vsub, vadd. f_equal. ring.
Qed.

Lemma within_cutoff_image_pair (coordinates : list vec3) (lattice inv : mat3) (d : R)
    (self_loops : bool) (i : nat) (xi : vec3) (k : ivec3) :
  inv3 (transpose lattice) = ret inv ->
  nth_error coordinates i = Some xi ->
  k <> ivec_zero ->
  vnorm (vec_mat (ivec_R k) lattice) <= d ->
  In (i, i, k, vnorm (vec_mat (ivec_R k) lattice))
     (within_cutoff coordinates lattice inv d self_loops).
Proof.
  intros Hinv Hi Hk Hd. unfold within_cutoff. apply in_flat_map.
  exists (i, xi). split; [now apply indexed_in |]. cbn [fst snd].
  apply filter_In. split.
  - unfold candidates. apply in_or_app. right. apply image_candidates_in.
    exists i, xi, k. split; [now apply indexed_in |].
    split; [now apply lattice_images_complete |].
    now rewrite vnorm_shift_back.
  - now apply Rleb_true.
Qed.

(** The two outputs of the search, with and without [self_loops], on an
    input on which both calls return. *)
Lemma self_loops_outputs
    (argsort : list R -> list nat) (coordinates : list vec3) (lattice : mat3)
    (d : R) (sort_distance : bool) :
  argsort_spec argsort ->
  det3 lattice <> 0 ->
  coordinates <> [] ->
  0 <= d ->
  exists without_loops with_loops : neighbours,
    range_neighbour_lattice argsort coordinates lattice (Some d)
      false sort_distance = ret without_loops /\
    range_neighbour_lattice argsort coordinates lattice (Some d)
      true sort_distance = ret with_loops /\
    (forall e, In e (entries without_loops) -> is_self_loop e = false) /\
    (forall i, (i < length coordinates)%nat ->
       filter (fun e => Nat.eqb (e_center e) i && is_self_loop e) (entries with_loops) =
       [(i, i, ivec_zero, 0)]) /\
    Permutation (filter (fun e => negb (is_self_loop e)) (entries with_loops))
                (entries without_loops) /\
    (forall i k, (i < length coordinates)%nat -> k <> ivec_zero ->
       vnorm (vec_mat (ivec_R k) lattice) <= d ->
       In (i, i, k, vnorm (vec_mat (ivec_R k) lattice)) (entries without_loops) /\
       In (i, i, k, vnorm (vec_mat (ivec_R k) lattice)) (entries with_loops)).
Proof.
  intros Hsort Hdet Hne Hd.
  destruct (inv3_regular (transpose lattice)) as [inv Hinv];
    [now rewrite det3_transpose |].
  exists (of_entries (concat (neighbour_rows argsort coordinates lattice inv d
                                false sort_distance))),
         (of_entries (concat (neighbour_rows argsort coordinates lattice inv d
                                true sort_distance))).
  rewrite !entries_of_entries.
  pose proof (neighbour_rows_permutation argsort Hsort coordinates lattice inv d
                false sort_distance) as Pf.
  pose proof (neighbour_rows_permutation argsort Hsort coordinates lattice inv d
                true sort_distance) as Pt.
  split; [apply range_neighbour_lattice_rows; auto |].
  split; [apply range_neighbour_lattice_rows; auto |].
  split; [| split; [| split]].
  - intros e He. apply (Permutation_in _ Pf) in He.
    now apply within_cutoff_no_self in He.
  - intros i Hi.
    destruct (nth_error coordinates i) as [xi |] eqn:Hxi;
      [| apply nth_error_None in Hxi; lia].
    apply Permutation_length_1_inv.
    rewrite <- (within_cutoff_self coordinates lattice inv d i xi Hxi Hd).
    symmetry. now apply filter_permutation.
  - rewrite (filter_permutation _ _ _ Pt), within_cutoff_drop_self. now symmetry.
  - intros i k Hi Hk Hdist.
    destruct (nth_error coordinates i) as [xi |] eqn:Hxi;
      [| apply nth_error_None in Hxi; lia].
    split.
    + apply (Permutation_in _ (Permutation_sym Pf)).
      now apply (within_cutoff_image_pair _ _ _ _ _ _ xi).
    + apply (Permutation_in _ (Permutation_sym Pt)).
      now apply (within_cutoff_image_pair _ _ _ _ _ _ xi).
Qed.

Lemma mat_id_det : det3 mat_id <> 0.
Proof. unfold det3, mat_id. lra. Qed.

(** C9, in exact arithmetic and for a cutoff that is not negative:
    without [self_loops] the output has no entry (i, i, (0,0,0)); with it,
    each node [i] has exactly one such entry, of distance 0; the two
    outputs hold the same other entries; and every pair (i, i, image) with
    a non-zero image within the cutoff is in both.  Stated of the outputs
    of the two calls, for every input on which they return. *)
Theorem range_neighbour_lattice_self_loops
    (argsort : list R -> list nat) (coordinates : list vec3) (lattice : mat3)
    (d : R) (sort_distance : bool) (without_loops with_loops : neighbours) :
  argsort_spec argsort ->
  0 <= d ->
  range_neighbour_lattice argsort coordinates lattice (Some d)
    false sort_distance = ret without_loops ->
  range_neighbour_lattice argsort coordinates lattice (Some d)
    true sort_distance = ret with_loops ->
  (forall e, In e (entries without_loops) -> is_self_loop e = false) /\
  (forall i, (i < length coordinates)%nat ->
     filter (fun e => Nat.eqb (e_center e) i && is_self_loop e) (entries with_loops) =
     [(i, i, ivec_zero, 0)]) /\
  Permutation (filter (fun e => negb (is_self_loop e)) (entries with_loops))
              (entries without_loops) /\
  (forall i k, (i < length coordinates)%nat -> k <> ivec_zero ->
     vnorm (vec_mat (ivec_R k) lattice) <= d ->
     In (i, i, k, vnorm (vec_mat (ivec_R k) lattice)) (entries without_loops) /\
     In (i, i, k, vnorm (vec_mat (ivec_R k) lattice)) (entries with_loops)).
Proof.
  intros Hsort Hd Hwithout Hwith.
  destruct (Req_dec_T (det3 lattice) 0) as [Hdet | Hdet].
  { rewrite range_neighbour_lattice_singular in Hwith by assumption. discriminate. }
  assert (Hne : coordinates <> []).
  { intros ->. unfold range_neighbour_lattice in Hwithout.
    destruct (inv3_regular (transpose lattice)) as [inv Hinv];
      [now rewrite det3_transpose |].
    rewrite Hinv in Hwithout. discriminate. }
  destruct (self_loops_outputs argsort coordinates lattice d sort_distance
              Hsort Hdet Hne Hd) as (wo & wi & Ewo & Ewi & H).
  rewrite Ewo in Hwithout. rewrite Ewi in Hwith.
  injection Hwithout as <-. injection Hwith as <-. exact H.
Qed.

Lemma range_neighbour_lattice_self_loops_witness :
  exists without_loops with_loops : neighbours,
    range_neighbour_lattice insertion_argsort [(0, 0, 0)] mat_id (Some 4)
      false true = ret without_loops /\
    range_neighbour_lattice insertion_argsort [(0, 0, 0)] mat_id (Some 4)
      true true = ret with_loops /\
    (forall e, In e (entries without_loops) -> is_self_loop e = false) /\
    (forall i, (i < length [(0, 0, 0)])%nat ->
       filter (fun e => Nat.eqb (e_center e) i && is_self_loop e) (entries with_loops) =
       [(i, i, ivec_zero, 0)]) /\
    Permutation (filter (fun e => negb (is_self_loop e)) (entries with_loops))
                (entries without_loops) /\
    (forall i k, (i < length [(0, 0, 0)])%nat -> k <> ivec_zero ->
       vnorm (vec_mat (ivec_R k) mat_id) <= 4 ->
       In (i, i, k, vnorm (vec_mat (ivec_R k) mat_id)) (entries without_loops) /\
       In (i, i, k, vnorm (vec_mat (ivec_R k) mat_id)) (entries with_loops)).
Proof.
  destruct (range_neighbour_lattice_returns insertion_argsort [(0, 0, 0)] mat_id 4
              false true mat_id_det) as [without_loops Hwithout];
    [left; discriminate |].
  destruct (range_neighbour_lattice_returns insertion_argsort [(0, 0, 0)] mat_id 4
              true true mat_id_det) as [with_loops Hwith];
    [left; discriminate |].
  exists without_loops, with_loops.
  split; [exact Hwithout |]. split; [exact Hwith |].
  apply (range_neighbour_lattice_self_loops insertion_argsort
           [(0, 0, 0)] mat_id 4 true without_loops with_loops).
  - exact insertion_argsort_ok.
  - lra.
  - exact Hwithout.
  - exact Hwith.
Defined.

Lemma concat_all_nil {A : Type} (l : list (list A)) :
  (forall x, In x l -> x = []) -> concat l = [].
Proof.
  induction l as [| x l IH]; simpl; intros H; [reflexivity |].
  rewrite (H x) by now left. apply IH. intros y Hy. apply H. now right.
Qed.

(** A negative cutoff empties the output, also with [self_loops]: the
    self entries of distance 0 pass the last filter only when
    [0 <= max_distance]. *)
Lemma range_neighbour_lattice_negative_cutoff
    (argsort : list R -> list nat) (coordinates : list vec3) (lattice : mat3)
    (d : R) (self_loops sort_distance : bool) :
  argsort_spec argsort -> det3 lattice <> 0 ->
  coordinates <> [] \/ self_loops = true -> d < 0 ->
  range_neighbour_lattice argsort coordinates lattice (Some d)
    self_loops sort_distance = ret ([], [], []).
Proof.
  intros Hsort Hdet Hne Hd.
  destruct (inv3_regular (transpose lattice)) as [inv Hinv];
    [now rewrite det3_transpose |].
  rewrite (range_neighbour_lattice_rows argsort coordinates lattice inv d
             self_loops sort_distance Hinv Hne).
  cbv zeta. rewrite concat_all_nil; [reflexivity |].
  intros row Hrow. unfold neighbour_rows in Hrow.
  apply in_map_iff in Hrow as [[i xi] [<- _]].
  destruct (row_output argsort sort_distance d _) as [| e row] eqn:E; [reflexivity |].
  assert (He : In e (e :: row)) by now left.
  rewrite <- E in He. apply (row_output_in argsort Hsort) in He as [He Hle].
  apply candidates_dist_nonneg in He. lra.
Qed.

(** C9 fails as stated in float64, in its last part.  One atom at
    x = 1.23 in the cubic cell of constant 3, with [max_distance = 3]: the
    atom and its own image (1, 0, 0) are a lattice vector of length 3
    apart, within the cutoff, but the displacement is computed as
    (1.23 + 3) - 1.23 = 3.0000000000000004 and the pair is in neither
    output, with or without [self_loops]. *)
Lemma range_neighbour_lattice_image_pair_dropped :
  PrimFloat.leb
    (F64.vnorm (F64.vec_mat (F64.ivec_F (1, 0, 0)%Z) (F64.cubic_lattice 3)))
    3%float = true /\
  (exists out : F64.neighbours,
     F64.range_neighbour_lattice F64.inv_diagonal F64.insertion_argsort
       F64.off_origin (F64.cubic_lattice 3) (Some 3%float) false true = ret out /\
     forall dist, ~ In (0%nat, 0%nat, (1, 0, 0)%Z, dist) (F64.entries out)) /\
  (exists out : F64.neighbours,
     F64.range_neighbour_lattice F64.inv_diagonal F64.insertion_argsort
       F64.off_origin (F64.cubic_lattice 3) (Some 3%float) true true = ret out /\
     forall dist, ~ In (0%nat, 0%nat, (1, 0, 0)%Z, dist) (F64.entries out)).
Proof.
  split; [vm_compute; reflexivity |]. split.
  - exists ([(0, 0); (0, 0); (0, 0); (0, 0); (0, 0)]%nat,
            [(0, 0, -1); (-1, 0, 0); (0, -1, 0); (0, 1, 0); (0, 0, 1)]%Z,
            [3; 3; 3; 3; 3]%float).
    split; [vm_compute; reflexivity |].
    intros dist H. cbn in H.
    repeat (destruct H as [H | H]; [discriminate H |]). exact H.
  - exists ([(0, 0); (0, 0); (0, 0); (0, 0); (0, 0); (0, 0)]%nat,
            [(0, 0, 0); (0, 0, -1); (-1, 0, 0); (0, -1, 0); (0, 1, 0); (0, 0, 1)]%Z,
            [0; 3; 3; 3; 3; 3]%float).
    split; [vm_compute; reflexivity |].
    intros dist H. cbn in H.
    repeat (destruct H as [H | H]; [discriminate H |]). exact H.
Qed.

(** ** One atom in a simple cubic lattice *)

Lemma sqrt3_bounds : 1.7 < sqrt 3 < 1.8.
Proof.
  pose proof (sqrt_pos 3) as H0.
  pose proof (sqrt_sqrt 3 ltac:(lra)) as H1. split; nra.
Qed.

Lemma norm_sq_nonneg (k : ivec3) : (0 <= norm_sq k)%Z.
Proof. destruct k as [[x y] z]. unfold norm_sq. nia. Qed.

Section Cubic.

Variable a : R.
Hypothesis a_pos : 0 < a.

Lemma cubic_image_norm (k : ivec3) :
  vnorm (vec_mat (ivec_R k) (cubic_lattice a)) = a * sqrt (IZR (norm_sq k)).
Proof.
  pose proof (norm_sq_nonneg k) as Hn. apply IZR_le in Hn.
  pose proof (sqrt_pos (IZR (norm_sq k))) as Hs.
  pose proof (sqrt_sqrt _ Hn) as Hss.
  destruct k as [[x y] z].
  cbv [vnorm vec_mat ivec_R cubic_lattice vadd vscale].
  apply sqrt_lem_1.
  - nra.
  - nra.
  - replace (a * sqrt (IZR (norm_sq (x, y, z))) * (a * sqrt (IZR (norm_sq (x, y, z)))))
      with (a * a * (sqrt (IZR (norm_sq (x, y, z))) * sqrt (IZR (norm_sq (x, y, z)))))
      by ring.
    rewrite Hss. unfold norm_sq. rewrite !plus_IZR, !mult_IZR. ring.
Qed.

Lemma cubic_max_radius : max_radius_cell (cubic_lattice a) = a * sqrt 3 / 2.
Proof.
  pose proof sqrt3_bounds as Hb.
  pose proof (sqrt_sqrt 3 ltac:(lra)) as Hss.
  assert (H : forall x y z : R,
             x * x = a * a / 4 -> y * y = a * a / 4 -> z * z = a * a / 4 ->
             vnorm (x, y, z) = a * sqrt 3 / 2).
  { intros x y z Hx Hy Hz. unfold vnorm. apply sqrt_lem_1; nra. }
  cbv [max_radius_cell cubic_lattice vsub vscale vadd].
  rewrite !H by field.
  assert (Hm : forall y : R, Rmax y y = y) by (intros; apply Rmax_left, Rle_refl).
  now rewrite !Hm.
Qed.

Lemma cubic_reach : lattice_reach (cubic_lattice a) (1.1 * a) = a * (1.1 + sqrt 3 / 2).
Proof. unfold lattice_reach. rewrite cubic_max_radius. field. Qed.

Lemma sqrt_IZR_le (n m : Z) : (0 <= n <= m)%Z -> sqrt (IZR n) <= sqrt (IZR m).
Proof. intros [_ H]. apply sqrt_le_1_alt. now apply IZR_le. Qed.

Lemma cubic_prune (k : ivec3) :
  Rleb (vnorm (vec_mat (ivec_R k) (cubic_lattice a)))
       (lattice_reach (cubic_lattice a) (1.1 * a)) =
  (norm_sq k <=? 3)%Z.
Proof.
  rewrite cubic_image_norm, cubic_reach.
  pose proof sqrt3_bounds as Hb. pose proof (norm_sq_nonneg k) as Hn.
  destruct (Z.leb_spec (norm_sq k) 3) as [H | H].
  - apply Rleb_true.
    pose proof (sqrt_IZR_le (norm_sq k) 3 ltac:(lia)) as Hs. nra.
  - apply Rleb_false.
    pose proof (sqrt_IZR_le 4 (norm_sq k) ltac:(lia)) as Hs.
    replace (sqrt 4) with 2 in Hs by (symmetry; apply sqrt_lem_1; lra). nra.
Qed.

Lemma cubic_cut (k : ivec3) :
  Rleb (a * sqrt (IZR (norm_sq k))) (1.1 * a) = (norm_sq k <=? 1)%Z.
Proof.
  pose proof (norm_sq_nonneg k) as Hn.
  destruct (Z.leb_spec (norm_sq k) 1) as [H | H].
  - apply Rleb_true.
    pose proof (sqrt_IZR_le (norm_sq k) 1 ltac:(lia)) as Hs.
    rewrite sqrt_1 in Hs. nra.
  - apply Rleb_false.
    pose proof (sqrt_IZR_le 2 (norm_sq k) ltac:(lia)) as Hs.
    pose proof (sqrt_pos 2) as H0. pose proof (sqrt_sqrt 2 ltac:(lra)) as H2.
    assert (1.1 < sqrt 2) by nra. nra.
Qed.

Variable inv : mat3.
Hypothesis inv_ok : inv3 (transpose (cubic_lattice a)) = ret inv.

Lemma cubic_inverse_row_sums : abs_row_sums inv = (/ a, / a, / a).
Proof.
  pose proof (inv3_correct _ _ (1, 0, 0) inv_ok) as E0.
  pose proof (inv3_correct _ _ (0, 1, 0) inv_ok) as E1.
  pose proof (inv3_correct _ _ (0, 0, 1) inv_ok) as E2.
  destruct inv as [[[[i00 i01] i02] [[i10 i11] i12]] [[i20 i21] i22]].
  cbv [mat_vec vdot transpose cubic_lattice] in E0, E1, E2.
  injection E0 as A0 A1 A2. injection E1 as B0 B1 B2. injection E2 as C0 C1 C2.
  assert (Hinv : 0 < / a) by now apply Rinv_0_lt_compat.
  assert (Ha : a * / a = 1) by (apply Rinv_r; lra).
  assert (i00 = / a) by nra. assert (i01 = 0) by nra. assert (i02 = 0) by nra.
  assert (i10 = 0) by nra. assert (i11 = / a) by nra. assert (i12 = 0) by nra.
  assert (i20 = 0) by nra. assert (i21 = 0) by nra. assert (i22 = / a) by nra.
  subst. unfold abs_row_sums. rewrite Rabs_R0, (Rabs_pos_eq (/ a)) by lra.
  f_equal; [f_equal |]; ring.
Qed.

Lemma cubic_bounding_box :
  bounding_box (cubic_lattice a) inv (1.1 * a) = (2, 2, 2)%Z.
Proof.
  unfold bounding_box. rewrite cubic_inverse_row_sums, cubic_reach.
  pose proof sqrt3_bounds as Hb.
  assert (H : Zceil (a * (1.1 + sqrt 3 / 2) * / a) = 2%Z).
  { replace (a * (1.1 + sqrt 3 / 2) * / a) with (1.1 + sqrt 3 / 2) by (field; lra).
    apply Zceil_eq. simpl. lra. }
  unfold vscale, ceil_vec. now rewrite H.
Qed.

Lemma cubic_images :
  filter (fun k => (norm_sq k <=? 1)%Z) (lattice_images (cubic_lattice a) inv (1.1 * a)) =
  face_images.
Proof.
  unfold lattice_images. cbv zeta. rewrite cubic_bounding_box.
  rewrite (filter_ext _ _ cubic_prune). reflexivity.
Qed.

Lemma cubic_candidates :
  filter (fun e => Rleb (e_dist e) (1.1 * a))
    (candidates false (cubic_lattice a) (lattice_images (cubic_lattice a) inv (1.1 * a))
       [(0, 0, 0)] 0 (0, 0, 0)) =
  face_neighbours a.
Proof.
  unfold candidates, center_candidates, center_kept, image_candidates, indexed.
  cbn [length seq combine filter orb fst snd Nat.eqb negb map flat_map app].
  rewrite app_nil_r, filter_map_swap. cbn [e_dist snd].
  rewrite (filter_ext _ (fun k => (norm_sq k <=? 1)%Z)).
  2:{ intros k. rewrite vnorm_shift_back, cubic_image_norm. apply cubic_cut. }
  rewrite cubic_images. unfold face_neighbours. apply map_ext_in. intros k Hk.
  rewrite vnorm_shift_back, cubic_image_norm.
  assert (Hn : norm_sq k = 1%Z).
  { simpl in Hk. repeat (destruct Hk as [<- | Hk]; [reflexivity |]). contradiction. }
  rewrite Hn, sqrt_1. f_equal. ring.
Qed.

End Cubic.

(** C1: one atom at the origin of a simple cubic lattice of constant [a],
    a cutoff of 1.1 a and no self loops: the search returns exactly the
    six face images of the atom itself, each at distance [a] (in the order
    of the grid when the rows are not sorted). *)
Theorem range_neighbour_lattice_simple_cubic
    (argsort : list R -> list nat) (a : R) (sort_distance : bool) :
  argsort_spec argsort ->
  0 < a ->
  exists l : list entry,
    range_neighbour_lattice argsort [(0, 0, 0)] (cubic_lattice a) (Some (1.1 * a))
      false sort_distance = ret (of_entries l) /\
    Permutation l (face_neighbours a) /\
    length l = 6%nat /\
    Forall (fun e => e_dist e = a) l /\
    (sort_distance = false -> l = face_neighbours a).
Proof.
  intros Hsort Ha.
  destruct (inv3_regular (transpose (cubic_lattice a))) as [inv Hinv].
  { rewrite det3_transpose. unfold det3, cubic_lattice.
    replace (a * (a * a - 0 * 0) - 0 * (0 * a - 0 * 0) + 0 * (0 * 0 - a * 0))
      with (a * a * a) by ring.
    apply Rgt_not_eq. repeat apply Rmult_lt_0_compat; exact Ha. }
  set (cands := candidates false (cubic_lattice a)
                  (lattice_images (cubic_lattice a) inv (1.1 * a))
                  [(0, 0, 0)] 0 (0, 0, 0)).
  exists (row_output argsort sort_distance (1.1 * a) cands).
  assert (Hp : Permutation (row_output argsort sort_distance (1.1 * a) cands)
                           (face_neighbours a)).
  { rewrite <- (cubic_candidates a Ha inv Hinv). now apply row_output_permutation. }
  split; [| split; [exact Hp | split; [| split]]].
  - rewrite (range_neighbour_lattice_rows argsort [(0, 0, 0)] (cubic_lattice a) inv
               (1.1 * a) false sort_distance Hinv) by (left; discriminate).
    cbv zeta. unfold neighbour_rows, indexed.
    cbn [length seq combine map concat fst snd]. rewrite app_nil_r. reflexivity.
  - now rewrite (Permutation_length Hp).
  - apply Forall_forall. intros e He. apply (Permutation_in _ Hp) in He.
    unfold face_neighbours in He. apply in_map_iff in He as [k [<- _]]. reflexivity.
  - intros ->. unfold row_output, row_sorted.
    apply (cubic_candidates a Ha inv Hinv).
Qed.

Lemma range_neighbour_lattice_simple_cubic_witness :
  exists l : list entry,
    range_neighbour_lattice insertion_argsort [(0, 0, 0)] (cubic_lattice 3) (Some (1.1 * 3))
      false true = ret (of_entries l) /\
    Permutation l (face_neighbours 3) /\
    length l = 6%nat /\
    Forall (fun e => e_dist e = 3) l /\
    (true = false -> l = face_neighbours 3).
Proof.
  apply (range_neighbour_lattice_simple_cubic insertion_argsort 3 true).
  - exact insertion_argsort_ok.
  - lra.
Defined.

(** * Further properties *)

(** Splits an equation between tuples into its components. *)
Ltac tuple_eq :=
  repeat match goal with
         | |- (_, _) = (_, _) => apply f_equal2
         end.

(** ** make_rotation_matrix on an axis that is not zero *)

Lemma vnorm_pos (v : vec3) : v <> vzero -> 0 < vnorm v.
Proof.
  intros Hv. destruct (Rle_lt_or_eq_dec _ _ (vnorm_nonneg v)) as [H | H]; [exact H |].
  exfalso. apply Hv. now apply vnorm_zero_inv.
Qed.

Lemma vnorm_sqr (v : vec3) : vnorm v * vnorm v = vdot v v.
Proof.
  destruct v as [[a b] c]. unfold vnorm, vdot. apply sqrt_sqrt. nra.
Qed.

Lemma direction_unit (v : vec3) : v <> vzero -> vdot (direction v) (direction v) = 1.
Proof.
  intros Hv. pose proof (vnorm_pos v Hv) as Hn. pose proof (vnorm_sqr v) as Hs.
  destruct v as [[a b] c]. unfold direction. set (n := vnorm (a, b, c)) in *.
  unfold vdot in *.
  replace (a / n * (a / n) + b / n * (b / n) + c / n * (c / n))
    with ((a * a + b * b + c * c) / (n * n)) by (field; lra).
  rewrite <- Hs. field. lra.
Qed.

Lemma direction_scale (v : vec3) : v <> vzero -> vscale (vnorm v) (direction v) = v.
Proof.
  intros Hv. pose proof (vnorm_pos v Hv) as Hn.
  destruct v as [[a b] c]. unfold direction, vscale.
  set (n := vnorm (a, b, c)) in *. f_equal; [f_equal |]; field; lra.
Qed.

Lemma make_rotation_matrix_entries (vector : vec3) (angle : R) :
  vector <> vzero ->
  make_rotation_matrix vector angle =
  ret (lift_mat (rotation_entries (direction vector) (angle / 180 * PI))).
Proof.
  intros Hv. pose proof (vnorm_pos vector Hv) as Hn.
  destruct vector as [[v0 v1] v2].
  unfold make_rotation_matrix, direction, rotation_entries, lift_mat, lift_vec.
  change (sqrt (v0 * v0 + v1 * v1 + v2 * v2)) with (vnorm (v0, v1, v2)).
  set (n := vnorm (v0, v1, v2)) in *.
  unfold fdiv. rewrite (Rsign_pos n Hn).
  unfold fsq, fsub, fadd, fmul, fopp, ret.
  repeat match goal with
         | |- inr _ = inr _ => apply f_equal
         | |- (_, _) = (_, _) => apply f_equal2
         | |- Fin _ = Fin _ => apply f_equal
         end; field; lra.
Qed.

Section Rodrigues.

Variables d0 d1 d2 : R.
Hypothesis unit_axis : d0 * d0 + d1 * d1 + d2 * d2 = 1.

Lemma rotation_entries_orthogonal (theta : R) :
  mat_mul (transpose (rotation_entries (d0, d1, d2) theta))
          (rotation_entries (d0, d1, d2) theta) = mat_id.
Proof.
  pose proof (sin2_cos2 theta) as Hsc. unfold Rsqr in Hsc.
  unfold rotation_entries, transpose, mat_mul, vec_mat, vadd, vscale, mat_id.
  set (c := cos theta) in *. set (s := sin theta) in *.
  tuple_eq; nsatz.
Qed.

Lemma rotation_entries_det (theta : R) :
  det3 (rotation_entries (d0, d1, d2) theta) = 1.
Proof.
  pose proof (sin2_cos2 theta) as Hsc. unfold Rsqr in Hsc.
  unfold rotation_entries, det3.
  set (c := cos theta) in *. set (s := sin theta) in *. nsatz.
Qed.

Lemma rotation_entries_axis (theta : R) :
  mat_vec (rotation_entries (d0, d1, d2) theta) (d0, d1, d2) = (d0, d1, d2).
Proof.
  unfold rotation_entries, mat_vec, vdot.
  set (c := cos theta). set (s := sin theta).
  f_equal; [f_equal |]; nsatz.
Qed.

Lemma rotation_entries_compose (alpha beta : R) :
  mat_mul (rotation_entries (d0, d1, d2) alpha) (rotation_entries (d0, d1, d2) beta) =
  rotation_entries (d0, d1, d2) (alpha + beta).
Proof.
  pose proof (sin2_cos2 alpha) as Ha. pose proof (sin2_cos2 beta) as Hb.
  unfold Rsqr in Ha, Hb.
  unfold rotation_entries, mat_mul, vec_mat, vadd, vscale.
  rewrite cos_plus, sin_plus.
  set (ca := cos alpha) in *. set (sa := sin alpha) in *.
  set (cb := cos beta) in *. set (sb := sin beta) in *.
  tuple_eq; nsatz.
Qed.

End Rodrigues.

Lemma mat_vec_scale (m : mat3) (k : R) (v : vec3) :
  mat_vec m (vscale k v) = vscale k (mat_vec m v).
Proof.
  destruct m as [[[[a b] c] [[d e] f]] [[g h] i]], v as [[x y] z].
  unfold mat_vec, vscale, vdot. f_equal; [f_equal |]; ring.
Qed.

Lemma rotation_entries_zero (d : vec3) : rotation_entries d 0 = mat_id.
Proof.
  destruct d as [[d0 d1] d2]. unfold rotation_entries, mat_id.
  rewrite cos_0, sin_0. tuple_eq; ring.
Qed.

Lemma rotation_entries_opp (d : vec3) (theta : R) :
  rotation_entries d (- theta) = transpose (rotation_entries d theta).
Proof.
  destruct d as [[d0 d1] d2]. unfold rotation_entries, transpose.
  rewrite cos_neg, sin_neg. tuple_eq; ring.
Qed.

Lemma z_axis_nonzero : (0, 0, 1) <> vzero.
Proof. unfold vzero. intros H. injection H as H. lra. Qed.

(** X1: on an axis that is not the zero vector the function returns a
    matrix of finite entries that is a proper rotation about the axis: it
    is orthogonal, has determinant 1 and leaves the axis fixed. *)
Theorem make_rotation_matrix_proper_rotation (vector : vec3) (angle : R) :
  vector <> vzero ->
  exists m : mat3,
    make_rotation_matrix vector angle = ret (lift_mat m) /\
    mat_mul (transpose m) m = mat_id /\
    det3 m = 1 /\
    mat_vec m vector = vector.
Proof.
  intros Hv. exists (rotation_entries (direction vector) (angle / 180 * PI)).
  split; [now apply make_rotation_matrix_entries |].
  pose proof (direction_unit vector Hv) as Hu.
  pose proof (direction_scale vector Hv) as Hs.
  destruct (direction vector) as [[d0 d1] d2] eqn:Ed. unfold vdot in Hu.
  split; [now apply rotation_entries_orthogonal |].
  split; [now apply rotation_entries_det |].
  rewrite <- Hs. rewrite mat_vec_scale. f_equal.
  now apply rotation_entries_axis.
Qed.

Lemma make_rotation_matrix_proper_rotation_witness :
  exists m : mat3,
    make_rotation_matrix (0, 0, 1) 90 = ret (lift_mat m) /\
    mat_mul (transpose m) m = mat_id /\
    det3 m = 1 /\
    mat_vec m (0, 0, 1) = (0, 0, 1).
Proof.
  apply (make_rotation_matrix_proper_rotation (0, 0, 1) 90).
  exact z_axis_nonzero.
Defined.

(** X2: rotations about one axis compose by adding their angles: the
    product of the matrices for the angles [alpha] and [beta] is the matrix
    for [alpha + beta]. *)
Theorem make_rotation_matrix_compose (vector : vec3) (alpha beta : R) :
  vector <> vzero ->
  exists ma mb mab : mat3,
    make_rotation_matrix vector alpha = ret (lift_mat ma) /\
    make_rotation_matrix vector beta = ret (lift_mat mb) /\
    make_rotation_matrix vector (alpha + beta) = ret (lift_mat mab) /\
    mat_mul ma mb = mab.
Proof.
  intros Hv.
  exists (rotation_entries (direction vector) (alpha / 180 * PI)),
         (rotation_entries (direction vector) (beta / 180 * PI)),
         (rotation_entries (direction vector) ((alpha + beta) / 180 * PI)).
  repeat split; try now apply make_rotation_matrix_entries.
  pose proof (direction_unit vector Hv) as Hu.
  destruct (direction vector) as [[d0 d1] d2]. unfold vdot in Hu.
  rewrite (rotation_entries_compose d0 d1 d2 Hu). f_equal. field.
Qed.

Lemma make_rotation_matrix_compose_witness :
  exists ma mb mab : mat3,
    make_rotation_matrix (0, 0, 1) 30 = ret (lift_mat ma) /\
    make_rotation_matrix (0, 0, 1) 60 = ret (lift_mat mb) /\
    make_rotation_matrix (0, 0, 1) (30 + 60) = ret (lift_mat mab) /\
    mat_mul ma mb = mab.
Proof.
  apply (make_rotation_matrix_compose (0, 0, 1) 30 60).
  exact z_axis_nonzero.
Defined.

(** X3: the angle 0 gives the identity matrix, and the opposite angle gives
    the transposed matrix, which by X1 is the inverse rotation. *)
Theorem make_rotation_matrix_identity_inverse (vector : vec3) (angle : R) :
  vector <> vzero ->
  make_rotation_matrix vector 0 = ret (lift_mat mat_id) /\
  exists m : mat3,
    make_rotation_matrix vector angle = ret (lift_mat m) /\
    make_rotation_matrix vector (- angle) = ret (lift_mat (transpose m)).
Proof.
  intros Hv. split.
  - rewrite make_rotation_matrix_entries by assumption.
    replace (0 / 180 * PI) with 0 by field. now rewrite rotation_entries_zero.
  - exists (rotation_entries (direction vector) (angle / 180 * PI)).
    split; [now apply make_rotation_matrix_entries |].
    rewrite make_rotation_matrix_entries by assumption.
    replace (- angle / 180 * PI) with (- (angle / 180 * PI)) by field.
    now rewrite rotation_entries_opp.
Qed.

Lemma make_rotation_matrix_identity_inverse_witness :
  make_rotation_matrix (0, 0, 1) 0 = ret (lift_mat mat_id) /\
  exists m : mat3,
    make_rotation_matrix (0, 0, 1) 90 = ret (lift_mat m) /\
    make_rotation_matrix (0, 0, 1) (- 90) = ret (lift_mat (transpose m)).
Proof.
  apply (make_rotation_matrix_identity_inverse (0, 0, 1) 90).
  exact z_axis_nonzero.
Defined.

(** ** The Coulomb decoder on well-formed matrices *)

Lemma fdiv_fin (a b : R) : b <> 0 -> fdiv (Fin a) (Fin b) = Fin (a / b).
Proof.
  intros Hb. unfold fdiv, Rsign.
  destruct (total_order_T b 0) as [[H | H] | H]; try reflexivity. contradiction.
Qed.

Lemma fmul_comm (x y : npfloat) : fmul x y = fmul y x.
Proof.
  destruct x, y; simpl; try reflexivity. now rewrite Rmult_comm.
Qed.

Lemma recovered_charge_positive (C : matrix R) (i : nat) :
  0 < nth i (nth i C []) 0 ->
  exists r, 0 < r /\ recovered_charge C i = Fin r.
Proof.
  intros H. unfold recovered_charge, np_power. rewrite Rsign_pos by lra.
  eexists. split; [| reflexivity]. unfold Rpower. apply exp_pos.
Qed.

Lemma recovered_charge_encoded (C : matrix R) (i : nat) (z : Z) :
  (0 < z)%Z ->
  nth i (nth i C []) 0 = Rpower (IZR z) 2.4 / 2 ->
  recovered_charge C i = Fin (IZR z).
Proof.
  intros Hz HC. unfold recovered_charge, np_power. rewrite HC.
  replace (2 * (Rpower (IZR z) 2.4 / 2)) with (Rpower (IZR z) 2.4) by field.
  rewrite Rsign_pos by (unfold Rpower; apply exp_pos).
  rewrite Rpower_mult. replace (2.4 * (1 / 2.4)) with 1 by lra.
  rewrite Rpower_1 by (apply IZR_lt; exact Hz). reflexivity.
Qed.

Lemma decoder_charges_length (n : nat) (C : matrix R) (uc : R) :
  square n C ->
  length (snd (coulomb_matrix_to_inverse_distance_proton C uc)) = n.
Proof.
  intros Hsq. unfold coulomb_matrix_to_inverse_distance_proton. cbv zeta. cbn [snd].
  rewrite (recovered_charges n C Hsq). now rewrite !length_map, length_seq.
Qed.

(** X4: decoding inverts the encoding.  When the diagonal holds
    [Z_i^2.4 / 2] for integer charges [Z_i >= 1] and the entry (i, j)
    holds [Z_i Z_j w_ij], the decoder returns exactly the charges [Z_i]
    and the matrix of the [w_ij / unit_conversion], with a zero diagonal. *)
Theorem coulomb_decode_encoded
    (n : nat) (C : matrix R) (unit_conversion : R) (zs : list Z) (w : nat -> nat -> R) :
  square n C -> length zs = n -> unit_conversion <> 0 ->
  (forall i, (i < n)%nat ->
     (1 <= nth i zs 0 <= int_max)%Z /\
     nth i (nth i C []) 0 = Rpower (IZR (nth i zs 0%Z)) 2.4 / 2) ->
  (forall i j, (i < n)%nat -> (j < n)%nat -> i <> j ->
     nth j (nth i C []) 0 = IZR (nth i zs 0%Z) * IZR (nth j zs 0%Z) * w i j) ->
  let (inv_dist, z) := coulomb_matrix_to_inverse_distance_proton C unit_conversion in
  z = zs /\
  forall i j, (i < n)%nat -> (j < n)%nat ->
    nth j (nth i inv_dist []) NaN =
    Fin (if Nat.eqb i j then 0 else w i j / unit_conversion).
Proof.
  intros Hsq Hlen Huc Hdiag Hoff.
  pose proof (decoder_charges_length n C unit_conversion Hsq) as Hl.
  pose proof (fun i => decoder_charge n C unit_conversion i Hsq) as Hc.
  pose proof (fun a b => decoder_entry n C unit_conversion a b Hsq) as He.
  destruct (coulomb_matrix_to_inverse_distance_proton C unit_conversion) as [inv_dist z].
  cbn [fst snd] in *.
  assert (Hrc : forall i, (i < n)%nat -> recovered_charge C i = Fin (IZR (nth i zs 0%Z))).
  { intros i Hi. destruct (Hdiag i Hi) as [Hz HC].
    apply recovered_charge_encoded; [lia | exact HC]. }
  split.
  - apply (nth_ext _ _ 0%Z 0%Z); [lia |]. intros i Hi. rewrite Hl in Hi.
    rewrite (Hc i Hi), (Hrc i Hi).
    destruct (Hdiag i Hi) as [Hz _].
    rewrite astype_int_round; rewrite round_half_even_IZR; [reflexivity |].
    unfold int_min. lia.
  - intros i j Hi Hj. rewrite (He i j Hi Hj).
    destruct (Nat.eqb_spec i j) as [-> | Hij].
    + rewrite fdiv_fin by assumption. f_equal. field. assumption.
    + rewrite (Hrc i Hi), (Hrc j Hj). cbn [fmul].
      destruct (Hdiag i Hi) as [Hzi _]. destruct (Hdiag j Hj) as [Hzj _].
      assert (0 < IZR (nth i zs 0%Z)) by (apply IZR_lt; lia).
      assert (0 < IZR (nth j zs 0%Z)) by (apply IZR_lt; lia).
      rewrite fdiv_fin by nra. rewrite fdiv_fin by assumption.
      rewrite (Hoff i j Hi Hj Hij). f_equal. field. repeat split; lra.
Qed.

(** X5: the decoder keeps symmetry: for a symmetric N x N Coulomb matrix
    the decoded inverse-distance matrix is symmetric, special values
    included. *)
Theorem coulomb_decode_symmetric
    (n : nat) (C : matrix R) (unit_conversion : R) :
  square n C ->
  (forall i j, (i < n)%nat -> (j < n)%nat ->
     nth j (nth i C []) 0 = nth i (nth j C []) 0) ->
  forall i j, (i < n)%nat -> (j < n)%nat ->
    nth j (nth i (fst (coulomb_matrix_to_inverse_distance_proton C unit_conversion)) []) NaN =
    nth i (nth j (fst (coulomb_matrix_to_inverse_distance_proton C unit_conversion)) []) NaN.
Proof.
  intros Hsq Hsym i j Hi Hj.
  rewrite (decoder_entry n C unit_conversion i j Hsq Hi Hj).
  rewrite (decoder_entry n C unit_conversion j i Hsq Hj Hi).
  rewrite (Nat.eqb_sym j i), (Hsym i j Hi Hj).
  now rewrite (fmul_comm (recovered_charge C j)).
Qed.

(** X6: with a positive diagonal and a unit conversion that is not zero
    the decoder divides by no zero: every entry of the decoded matrix is a
    finite number. *)
Theorem coulomb_decode_finite
    (n : nat) (C : matrix R) (unit_conversion : R) :
  square n C -> unit_conversion <> 0 ->
  (forall i, (i < n)%nat -> 0 < nth i (nth i C []) 0) ->
  forall i j, (i < n)%nat -> (j < n)%nat ->
    is_finite
      (nth j (nth i (fst (coulomb_matrix_to_inverse_distance_proton C unit_conversion)) [])
           NaN) = true.
Proof.
  intros Hsq Huc Hpos i j Hi Hj.
  rewrite (decoder_entry n C unit_conversion i j Hsq Hi Hj).
  destruct (recovered_charge_positive C i (Hpos i Hi)) as (ri & Hri & ->).
  destruct (recovered_charge_positive C j (Hpos j Hj)) as (rj & Hrj & ->).
  cbn [fmul]. destruct (Nat.eqb i j).
  - now rewrite fdiv_fin.
  - rewrite fdiv_fin by nra. now rewrite fdiv_fin.
Qed.

Lemma coulomb_h2_square : square 2 coulomb_h2.
Proof. apply square_intro; reflexivity. Qed.

Lemma lt_2_cases (i : nat) : (i < 2)%nat -> i = 0%nat \/ i = 1%nat.
Proof. lia. Qed.

Lemma coulomb_decode_encoded_witness :
  let (inv_dist, z) := coulomb_matrix_to_inverse_distance_proton coulomb_h2 1 in
  z = [1; 1]%Z /\
  forall i j, (i < 2)%nat -> (j < 2)%nat ->
    nth j (nth i inv_dist []) NaN =
    Fin (if Nat.eqb i j then 0 else (fun _ _ => 1 / 2) i j / 1).
Proof.
  apply (coulomb_decode_encoded 2 coulomb_h2 1 [1; 1]%Z (fun _ _ => 1 / 2)).
  - exact coulomb_h2_square.
  - reflexivity.
  - lra.
  - intros i Hi. destruct (lt_2_cases i Hi) as [-> | ->]; cbn [nth coulomb_h2];
      (split; [unfold int_max; lia | reflexivity]).
  - intros i j Hi Hj Hij.
    destruct (lt_2_cases i Hi) as [-> | ->], (lt_2_cases j Hj) as [-> | ->];
      try contradiction; cbn [nth coulomb_h2]; lra.
Defined.

Lemma coulomb_decode_symmetric_witness :
  nth 1 (nth 0 (fst (coulomb_matrix_to_inverse_distance_proton coulomb_h2 1)) []) NaN =
  nth 0 (nth 1 (fst (coulomb_matrix_to_inverse_distance_proton coulomb_h2 1)) []) NaN.
Proof.
  apply (coulomb_decode_symmetric 2 coulomb_h2 1).
  - exact coulomb_h2_square.
  - intros i j Hi Hj.
    destruct (lt_2_cases i Hi) as [-> | ->], (lt_2_cases j Hj) as [-> | ->];
      reflexivity.
  - lia.
  - lia.
Defined.

Lemma coulomb_decode_finite_witness :
  is_finite
    (nth 1 (nth 0 (fst (coulomb_matrix_to_inverse_distance_proton coulomb_h2 1)) [])
         NaN) = true.
Proof.
  apply (coulomb_decode_finite 2 coulomb_h2 1).
  - exact coulomb_h2_square.
  - lra.
  - intros i Hi. destruct (lt_2_cases i Hi) as [-> | ->]; cbn [nth coulomb_h2];
      (assert (0 < Rpower 1 2.4) by (unfold Rpower; apply exp_pos); lra).
  - lia.
  - lia.
Defined.

(** ** Rigid motions *)

Lemma transpose_involutive (m : mat3) : transpose (transpose m) = m.
Proof. now destruct m as [[[[a b] c] [[d e] f]] [[g h] i]]. Qed.

Lemma mat_vec_mul (m n : mat3) (x : vec3) :
  mat_vec (mat_mul m n) x = mat_vec m (mat_vec n x).
Proof.
  destruct m as [[[[a b] c] [[d e] f]] [[g h] i]].
  destruct n as [[[[a' b'] c'] [[d' e'] f']] [[g' h'] i']], x as [[x y] z].
  unfold mat_vec, mat_mul, vec_mat, vadd, vscale, vdot. tuple_eq; ring.
Qed.

Lemma mat_vec_sub (m : mat3) (x y : vec3) :
  mat_vec m (vsub x y) = vsub (mat_vec m x) (mat_vec m y).
Proof.
  destruct m as [[[[a b] c] [[d e] f]] [[g h] i]], x as [[x0 x1] x2], y as [[y0 y1] y2].
  unfold mat_vec, vsub, vdot. tuple_eq; ring.
Qed.

Lemma mat_vec_add (m : mat3) (x y : vec3) :
  mat_vec m (vadd x y) = vadd (mat_vec m x) (mat_vec m y).
Proof.
  destruct m as [[[[a b] c] [[d e] f]] [[g h] i]], x as [[x0 x1] x2], y as [[y0 y1] y2].
  unfold mat_vec, vadd, vdot. tuple_eq; ring.
Qed.

Lemma mat_vec_zero (m : mat3) : mat_vec m vzero = vzero.
Proof.
  destruct m as [[[[a b] c] [[d e] f]] [[g h] i]].
  unfold mat_vec, vzero, vdot. tuple_eq; ring.
Qed.

Lemma mat_vec_id (x : vec3) : mat_vec mat_id x = x.
Proof. destruct x as [[x y] z]. unfold mat_vec, mat_id, vdot. tuple_eq; ring. Qed.

Lemma isometry_of_columns (m : mat3) (x : vec3) :
  mat_mul (transpose m) m = mat_id -> vnorm (mat_vec m x) = vnorm x.
Proof.
  destruct m as [[[[a b] c] [[d e] f]] [[g h] i]], x as [[x y] z].
  unfold mat_mul, transpose, vec_mat, vadd, vscale, mat_id.
  intros [= H1 H2 H3 H4 H5 H6 H7 H8 H9].
  unfold mat_vec, vdot, vnorm. f_equal. nsatz.
Qed.

Lemma isometry_of_rows (m : mat3) (x : vec3) :
  mat_mul m (transpose m) = mat_id -> vnorm (mat_vec (transpose m) x) = vnorm x.
Proof.
  intros H. apply isometry_of_columns. now rewrite transpose_involutive.
Qed.

Lemma negate_last_row_rows (vt : mat3) :
  mat_mul vt (transpose vt) = mat_id ->
  mat_mul (negate_last_row vt) (transpose (negate_last_row vt)) = mat_id.
Proof.
  destruct vt as [[[[a b] c] [[d e] f]] [[g h] i]].
  unfold negate_last_row, mat_mul, transpose, vec_mat, vadd, vscale, mat_id.
  intros [= H1 H2 H3 H4 H5 H6 H7 H8 H9]. tuple_eq; nsatz.
Qed.

Lemma det3_negate_last_row (u vt : mat3) :
  det3 (mat_mul (transpose (negate_last_row vt)) (transpose u)) =
  - det3 (mat_mul (transpose vt) (transpose u)).
Proof.
  destruct u as [[[[a b] c] [[d e] f]] [[g h] i]].
  destruct vt as [[[[a' b'] c'] [[d' e'] f']] [[g' h'] i']].
  unfold negate_last_row, mat_mul, transpose, vec_mat, vadd, vscale, det3. ring.
Qed.

Lemma vsub_shift (p q c : vec3) : vsub (vadd p c) (vadd q c) = vsub p q.
Proof.
  destruct p as [[p0 p1] p2], q as [[q0 q1] q2], c as [[c0 c1] c2].
  unfold vsub, vadd. tuple_eq; ring.
Qed.

Lemma vsub_centered (p q c : vec3) : vsub (vsub p c) (vsub q c) = vsub p q.
Proof.
  destruct p as [[p0 p1] p2], q as [[q0 q1] q2], c as [[c0 c1] c2].
  unfold vsub. tuple_eq; ring.
Qed.

(** sums over a cloud *)

Lemma vsum_map_sub (a : list vec3) (c : vec3) :
  vsum (map (fun p => vsub p c) a) = vsub (vsum a) (vscale (INR (length a)) c).
Proof.
  induction a as [| p a IH].
  - destruct c as [[c0 c1] c2]. cbn [map vsum fold_right length INR].
    unfold vzero, vsub, vscale. tuple_eq; ring.
  - cbn [map length]. rewrite S_INR. unfold vsum in *. cbn [fold_right]. rewrite IH.
    destruct p as [[p0 p1] p2], c as [[c0 c1] c2],
      (fold_right vadd vzero a) as [[s0 s1] s2].
    unfold vadd, vsub, vscale. tuple_eq; ring.
Qed.

Lemma vsum_map_affine (m : mat3) (c : vec3) (a : list vec3) :
  vsum (map (fun p => vadd (mat_vec m p) c) a) =
  vadd (mat_vec m (vsum a)) (vscale (INR (length a)) c).
Proof.
  induction a as [| p a IH].
  - cbn [map vsum fold_right length INR]. rewrite mat_vec_zero.
    destruct c as [[c0 c1] c2]. unfold vzero, vadd, vscale. tuple_eq; ring.
  - cbn [map length]. rewrite S_INR. unfold vsum in *. cbn [fold_right].
    rewrite IH, mat_vec_add.
    destruct (mat_vec m p) as [[p0 p1] p2], c as [[c0 c1] c2],
      (mat_vec m (fold_right vadd vzero a)) as [[s0 s1] s2].
    unfold vadd, vscale. tuple_eq; ring.
Qed.

Lemma centered_sum_zero (a : list vec3) :
  (1 <= length a)%nat -> vsum (map (fun p => vsub p (centroid a)) a) = vzero.
Proof.
  intros Hn. rewrite vsum_map_sub. unfold centroid.
  assert (Hpos : 0 < INR (length a)) by (apply lt_0_INR; lia).
  destruct (vsum a) as [[s0 s1] s2]. unfold vsub, vscale, vzero.
  tuple_eq; field; lra.
Qed.

Lemma centroid_affine_centered (m : mat3) (c : vec3) (a : list vec3) :
  (1 <= length a)%nat ->
  centroid (map (fun p => vadd (mat_vec m p) c)
                (map (fun p => vsub p (centroid a)) a)) = c.
Proof.
  intros Hn. unfold centroid at 1. rewrite vsum_map_affine, !length_map.
  rewrite (centered_sum_zero a Hn), mat_vec_zero.
  assert (Hpos : 0 < INR (length a)) by (apply lt_0_INR; lia).
  destruct c as [[c0 c1] c2]. unfold vadd, vscale, vzero. tuple_eq; field; lra.
Qed.

(** the three shapes of what [rigid_transform] returns *)
Lemma rigid_transform_result
    (svd : mat3 -> mat3 * vec3 * mat3) (a b : list vec3) (correct_reflection : bool) :
  length a = length b ->
  exists (h : mat3) (out : list msg) (r : mat3),
    cross_covariance (map (fun p => vsub p (centroid a)) a)
                     (map (fun p => vsub p (centroid b)) b) = ret h /\
    rigid_transform svd a b correct_reflection =
      ret (out,
           (map (fun p => vadd (mat_vec r p) (centroid b))
                (map (fun p => vsub p (centroid a)) a),
            r,
            vsub (centroid b) (mat_vec r (centroid a)))) /\
    let '(u, s, vt) := svd h in
    let r0 := mat_mul (transpose vt) (transpose u) in
    (r = r0 /\ (correct_reflection = false \/ 0 <= det3 r0)) \/
    (r = mat_mul (transpose (negate_last_row vt)) (transpose u) /\
     correct_reflection = true /\ det3 r0 < 0).
Proof.
  intros Hlen. unfold rigid_transform.
  destruct (cross_covariance_same_length
              (map (fun p => vsub p (centroid a)) a)
              (map (fun p => vsub p (centroid b)) b)) as [h Hh].
  { now rewrite !length_map. }
  exists h. rewrite Hh. cbn [bind ret].
  destruct (svd h) as [[u s] vt].
  destruct (Rltb (det3 (mat_mul (transpose vt) (transpose u))) 0) eqn:E;
    [destruct correct_reflection |].
  - eexists _, _. split; [reflexivity |]. split; [reflexivity |].
    right. unfold Rltb in E. destruct (Rlt_dec _ 0); [auto | discriminate].
  - eexists _, _. split; [reflexivity |]. split; [reflexivity |]. left. auto.
  - eexists _, _. split; [reflexivity |]. split; [reflexivity |]. left.
    split; [reflexivity |]. right.
    unfold Rltb in E. destruct (Rlt_dec _ 0); [discriminate | lra].
Qed.

Lemma svd_diagonal_orthogonal : svd_orthogonal svd_diagonal.
Proof.
  intros [[[[a b] c] [[d e] f]] [[g h] i]]. unfold svd_diagonal.
  assert (H : orthogonal mat_id).
  { split; unfold mat_id, transpose, mat_mul, vec_mat, vadd, vscale; tuple_eq; ring. }
  split; exact H.
Qed.

(** X7: the aligned cloud has the centroid of B, whatever rotation the
    decomposition gives: the alignment always matches the centres. *)
Theorem rigid_transform_centroid
    (svd : mat3 -> mat3 * vec3 * mat3) (a b : list vec3) (correct_reflection : bool) :
  (1 <= length a)%nat -> length a = length b ->
  exists (out : list msg) (bout : list vec3) (r : mat3) (t : vec3),
    rigid_transform svd a b correct_reflection = ret (out, (bout, r, t)) /\
    length bout = length a /\
    centroid bout = centroid b.
Proof.
  intros Hn Hlen.
  destruct (rigid_transform_result svd a b correct_reflection Hlen)
    as (h & out & r & _ & Hr & _).
  eexists out, _, r, _. split; [exact Hr |]. split.
  - now rewrite !length_map.
  - now apply centroid_affine_centered.
Qed.

Lemma rigid_transform_centroid_witness :
  exists (out : list msg) (bout : list vec3) (r : mat3) (t : vec3),
    rigid_transform svd_diagonal cloud_a cloud_b false =
      ret (out, (bout, r, t)) /\
    length bout = length cloud_a /\
    centroid bout = centroid cloud_b.
Proof.
  apply (rigid_transform_centroid svd_diagonal
           cloud_a cloud_b false).
  - simpl. lia.
  - reflexivity.
Defined.

(** X8: with [correct_reflection] the returned matrix never has a negative
    determinant: when the first product has one, the sign of the last row
    of vt is flipped, which flips the sign of the determinant. *)
Theorem rigid_transform_no_reflection
    (svd : mat3 -> mat3 * vec3 * mat3) (a b : list vec3) :
  length a = length b ->
  exists (out : list msg) (bout : list vec3) (r : mat3) (t : vec3),
    rigid_transform svd a b true = ret (out, (bout, r, t)) /\
    0 <= det3 r.
Proof.
  intros Hlen.
  destruct (rigid_transform_result svd a b true Hlen) as (h & out & r & _ & Hr & Hcase).
  eexists out, _, r, _. split; [exact Hr |].
  destruct (svd h) as [[u s] vt]. cbv zeta in Hcase.
  destruct Hcase as [[-> [Hc | Hd]] | (-> & _ & Hd)].
  - discriminate.
  - exact Hd.
  - rewrite det3_negate_last_row. lra.
Qed.

Lemma rigid_transform_no_reflection_witness :
  exists (out : list msg) (bout : list vec3) (r : mat3) (t : vec3),
    rigid_transform svd_diagonal cloud_a cloud_b true =
      ret (out, (bout, r, t)) /\
    0 <= det3 r.
Proof.
  apply (rigid_transform_no_reflection svd_diagonal
           cloud_a cloud_b).
  reflexivity.
Defined.

(** X9: when the factors of the decomposition are orthogonal, the
    alignment is rigid: the distance between any two points of the aligned
    cloud is the distance between the two points of A they come from, also
    after a corrected reflection. *)
Theorem rigid_transform_isometry
    (svd : mat3 -> mat3 * vec3 * mat3) (a b : list vec3) (correct_reflection : bool) :
  svd_orthogonal svd -> length a = length b ->
  exists (out : list msg) (bout : list vec3) (r : mat3) (t : vec3),
    rigid_transform svd a b correct_reflection = ret (out, (bout, r, t)) /\
    forall k l, (k < length a)%nat -> (l < length a)%nat ->
      vnorm (vsub (nth k bout vzero) (nth l bout vzero)) =
      vnorm (vsub (nth k a vzero) (nth l a vzero)).
Proof.
  intros Hsvd Hlen.
  destruct (rigid_transform_result svd a b correct_reflection Hlen)
    as (h & out & r & _ & Hr & Hcase).
  eexists out, _, r, _. split; [exact Hr |].
  assert (Hiso : forall x, vnorm (mat_vec r x) = vnorm x).
  { specialize (Hsvd h). destruct (svd h) as [[u s] vt].
    destruct Hsvd as [[Hu _] [Hvt _]]. cbv zeta in Hcase.
    intros x. destruct Hcase as [[-> _] | (-> & _ & _)]; rewrite mat_vec_mul.
    - rewrite (isometry_of_rows vt) by assumption. now apply isometry_of_rows.
    - rewrite (isometry_of_rows (negate_last_row vt))
        by now apply negate_last_row_rows.
      now apply isometry_of_rows. }
  intros k l Hk Hl.
  rewrite !(nth_map_in _ _ _ vzero) by (rewrite ?length_map; assumption).
  rewrite vsub_shift, <- mat_vec_sub, Hiso. now rewrite vsub_centered.
Qed.

Lemma rigid_transform_isometry_witness :
  exists (out : list msg) (bout : list vec3) (r : mat3) (t : vec3),
    rigid_transform svd_diagonal cloud_a cloud_b false =
      ret (out, (bout, r, t)) /\
    forall k l, (k < length cloud_a)%nat ->
                (l < length cloud_a)%nat ->
      vnorm (vsub (nth k bout vzero) (nth l bout vzero)) =
      vnorm (vsub (nth k cloud_a vzero)
                  (nth l cloud_a vzero)).
Proof.
  apply (rigid_transform_isometry svd_diagonal
           cloud_a cloud_b false).
  - exact svd_diagonal_orthogonal.
  - reflexivity.
Defined.

(** ** rotate_to_principle_axis *)

Lemma rotate_to_principle_axis_result
    (svd : mat3 -> mat3 * vec3 * mat3) (coord : list vec3) :
  exists u s vh,
    svd (scatter_matrix (map (fun p => vsub p (centroid coord)) coord)) = (u, s, vh) /\
    rotate_to_principle_axis svd coord =
    (vh, map (fun p => vadd (mat_vec vh p) (centroid coord))
             (map (fun p => vsub p (centroid coord)) coord)).
Proof.
  unfold rotate_to_principle_axis. cbv zeta.
  destruct (svd _) as [[u s] vh]. exists u, s, vh.
  split; [reflexivity |]. now rewrite map_map.
Qed.

(** X10: the rotated cloud keeps the number of points and the centroid of
    the input ("centered before SVD but shifted back at the output"),
    whatever the decomposition returns. *)
Theorem rotate_to_principle_axis_centroid
    (svd : mat3 -> mat3 * vec3 * mat3) (coord : list vec3) :
  (1 <= length coord)%nat ->
  let (r, rotated) := rotate_to_principle_axis svd coord in
  length rotated = length coord /\ centroid rotated = centroid coord.
Proof.
  intros Hn.
  destruct (rotate_to_principle_axis_result svd coord) as (u & s & vh & _ & ->).
  split.
  - now rewrite !length_map.
  - now apply centroid_affine_centered.
Qed.

Lemma rotate_to_principle_axis_centroid_witness :
  let (r, rotated) := rotate_to_principle_axis svd_diagonal cloud_c in
  length rotated = length cloud_c /\
  centroid rotated = centroid cloud_c.
Proof.
  apply (rotate_to_principle_axis_centroid svd_diagonal cloud_c).
  simpl. lia.
Defined.

(** X11: when the factors of the decomposition are orthogonal, the returned
    matrix R and the centroid undo the rotation: applying the transpose of
    R about the centroid to the rotated cloud gives back the input, and
    the rotated cloud has the pairwise distances of the input. *)
Theorem rotate_to_principle_axis_round_trip
    (svd : mat3 -> mat3 * vec3 * mat3) (coord : list vec3) :
  svd_orthogonal svd ->
  let (r, rotated) := rotate_to_principle_axis svd coord in
  map (fun q => vadd (mat_vec (transpose r) (vsub q (centroid coord))) (centroid coord))
      rotated = coord /\
  forall k l, (k < length coord)%nat -> (l < length coord)%nat ->
    vnorm (vsub (nth k rotated vzero) (nth l rotated vzero)) =
    vnorm (vsub (nth k coord vzero) (nth l coord vzero)).
Proof.
  intros Hsvd.
  destruct (rotate_to_principle_axis_result svd coord) as (u & s & vh & Hs & ->).
  specialize (Hsvd (scatter_matrix (map (fun p => vsub p (centroid coord)) coord))).
  rewrite Hs in Hsvd. destruct Hsvd as [_ [_ Hvh]].
  split.
  - rewrite !map_map.
    transitivity (map (fun p : vec3 => p) coord); [| apply map_id].
    apply map_ext. intros p.
    assert (Hz : forall x c : vec3, vsub (vadd x c) c = x).
    { intros [[x0 x1] x2] [[c0 c1] c2]. unfold vsub, vadd. tuple_eq; ring. }
    assert (Hb : forall x c : vec3, vadd (vsub x c) c = x).
    { intros [[x0 x1] x2] [[c0 c1] c2]. unfold vsub, vadd. tuple_eq; ring. }
    rewrite Hz, <- mat_vec_mul, Hvh, mat_vec_id. apply Hb.
  - intros k l Hk Hl.
    rewrite !(nth_map_in _ _ _ vzero) by (rewrite ?length_map; assumption).
    rewrite vsub_shift, <- mat_vec_sub, (isometry_of_columns vh) by assumption.
    now rewrite vsub_centered.
Qed.

Lemma rotate_to_principle_axis_round_trip_witness :
  let (r, rotated) := rotate_to_principle_axis svd_diagonal cloud_c in
  map (fun q => vadd (mat_vec (transpose r) (vsub q (centroid cloud_c)))
                     (centroid cloud_c))
      rotated = cloud_c /\
  forall k l, (k < length cloud_c)%nat ->
              (l < length cloud_c)%nat ->
    vnorm (vsub (nth k rotated vzero) (nth l rotated vzero)) =
    vnorm (vsub (nth k cloud_c vzero)
                (nth l cloud_c vzero)).
Proof.
  apply (rotate_to_principle_axis_round_trip svd_diagonal cloud_c).
  exact svd_diagonal_orthogonal.
Defined.

(** ** What the neighbour search returns *)

Lemma vec_mat_zero (lattice : mat3) : vec_mat (ivec_R ivec_zero) lattice = vzero.
Proof.
  destruct lattice as [[[[a b] c] [[d e] f]] [[g h] i]].
  unfold vec_mat, ivec_R, ivec_zero, vadd, vscale, vzero. tuple_eq; ring.
Qed.

Lemma displacement_center (lattice : mat3) (xi xj : vec3) :
  displacement lattice xi xj ivec_zero = vsub xj xi.
Proof.
  unfold displacement. rewrite vec_mat_zero.
  destruct xi as [[a b] c], xj as [[x y] z]. unfold vsub, vadd, vzero. tuple_eq; ring.
Qed.

Lemma candidates_in (self_loops : bool) (lattice : mat3) (images : list ivec3)
    (coordinates : list vec3) (i : nat) (xi : vec3) (e : entry) :
  ~ In ivec_zero images ->
  In e (candidates self_loops lattice images coordinates i xi) <->
  exists j xj k,
    nth_error coordinates j = Some xj /\
    e = (i, j, k, vnorm (displacement lattice xi xj k)) /\
    ((k = ivec_zero /\ (self_loops = true \/ i <> j)) \/ In k images).
Proof.
  intros Hz. unfold candidates. rewrite in_app_iff. split.
  - intros [He | He].
    + apply center_candidates_in in He as (j & xj & Hj & Hk & ->).
      exists j, xj, ivec_zero. rewrite displacement_center.
      split; [now apply indexed_in |]. split; [reflexivity | now left].
    + apply image_candidates_in in He as (j & xj & k & Hj & Hk & ->).
      exists j, xj, k. split; [now apply indexed_in |]. split; [reflexivity | now right].
  - intros (j & xj & k & Hj & -> & [[-> Hk] | Hk]).
    + left. apply center_candidates_in. exists j, xj.
      split; [now apply indexed_in |]. split; [exact Hk |].
      now rewrite displacement_center.
    + right. apply image_candidates_in. exists j, xj, k.
      split; [now apply indexed_in |]. split; [exact Hk | reflexivity].
Qed.

Lemma lattice_images_nonzero (lattice inv : mat3) (d : R) :
  ~ In ivec_zero (lattice_images lattice inv d).
Proof. intros H. apply lattice_images_in in H as (_ & Hz & _). now apply Hz. Qed.

Lemma neighbour_rows_spec
    (argsort : list R -> list nat) (coordinates : list vec3) (lattice inv : mat3)
    (d : R) (self_loops sort_distance : bool) (e : entry) :
  argsort_spec argsort ->
  In e (concat (neighbour_rows argsort coordinates lattice inv d
                  self_loops sort_distance)) <->
  exists i j xi xj k,
    nth_error coordinates i = Some xi /\
    nth_error coordinates j = Some xj /\
    e = (i, j, k, vnorm (displacement lattice xi xj k)) /\
    vnorm (displacement lattice xi xj k) <= d /\
    ((k = ivec_zero /\ (self_loops = true \/ i <> j)) \/
     In k (lattice_images lattice inv d)).
Proof.
  intros Hsort. rewrite (neighbour_rows_in argsort _ _ _ _ _ _ _ Hsort). split.
  - intros (i & xi & Hi & He & Hd).
    apply candidates_in in He as (j & xj & k & Hj & -> & Hk);
      [| apply lattice_images_nonzero].
    exists i, j, xi, xj, k. repeat split; try assumption. now apply indexed_in.
  - intros (i & j & xi & xj & k & Hi & Hj & -> & Hd & Hk).
    exists i, xi. split; [now apply indexed_in |]. split; [| exact Hd].
    apply candidates_in; [apply lattice_images_nonzero |].
    exists j, xj, k. auto.
Qed.

(** X12: every entry returned is a true neighbour: both indices are nodes
    of the cell, the distance is the length of the displacement from node
    i to the image of node j, it is at most [max_distance], and a pair of
    a node with itself in the central image only occurs with
    [self_loops].  The three output arrays have one length. *)
Theorem range_neighbour_lattice_sound
    (argsort : list R -> list nat) (coordinates : list vec3) (lattice : mat3)
    (d : R) (self_loops sort_distance : bool) :
  argsort_spec argsort ->
  det3 lattice <> 0 ->
  coordinates <> [] \/ self_loops = true ->
  exists l : list entry,
    range_neighbour_lattice argsort coordinates lattice (Some d)
      self_loops sort_distance = ret (of_entries l) /\
    forall i j k dist, In (i, j, k, dist) l ->
      exists xi xj,
        nth_error coordinates i = Some xi /\
        nth_error coordinates j = Some xj /\
        dist = vnorm (displacement lattice xi xj k) /\
        dist <= d /\
        (i = j -> k = ivec_zero -> self_loops = true).
Proof.
  intros Hsort Hdet Hne.
  destruct (inv3_regular (transpose lattice)) as [inv Hinv];
    [now rewrite det3_transpose |].
  eexists. split; [apply range_neighbour_lattice_rows; eassumption |].
  intros i j k dist He.
  apply (neighbour_rows_spec argsort _ _ _ _ _ _ _ Hsort) in He
    as (i' & j' & xi & xj & k' & Hi & Hj & [= -> -> -> ->] & Hd & Hk).
  exists xi, xj. repeat split; try assumption.
  intros -> ->. destruct Hk as [[_ [Hs | Hs]] | Hk].
  - exact Hs.
  - contradiction.
  - now apply lattice_images_nonzero in Hk.
Qed.

Lemma range_neighbour_lattice_sound_witness :
  exists l : list entry,
    range_neighbour_lattice insertion_argsort [(0, 0, 0)] mat_id (Some 4)
      false true = ret (of_entries l) /\
    forall i j k dist, In (i, j, k, dist) l ->
      exists xi xj,
        nth_error [(0, 0, 0)] i = Some xi /\
        nth_error [(0, 0, 0)] j = Some xj /\
        dist = vnorm (displacement mat_id xi xj k) /\
        dist <= 4 /\
        (i = j -> k = ivec_zero -> false = true).
Proof.
  apply (range_neighbour_lattice_sound insertion_argsort [(0, 0, 0)] mat_id 4 false true).
  - exact insertion_argsort_ok.
  - exact mat_id_det.
  - left. discriminate.
Defined.

(** the triangle inequality in three dimensions *)

Lemma vdot_cauchy_schwarz (u v : vec3) : vdot u v <= vnorm u * vnorm v.
Proof.
  pose proof (vnorm_nonneg u) as Hu. pose proof (vnorm_nonneg v) as Hv.
  pose proof (vnorm_sqr u) as Su. pose proof (vnorm_sqr v) as Sv.
  destruct (Rle_lt_dec (vdot u v) 0) as [Hneg | Hpos]; [nra |].
  assert (Hsq : vdot u v * vdot u v <= (vnorm u * vnorm v) * (vnorm u * vnorm v)).
  { replace (vnorm u * vnorm v * (vnorm u * vnorm v))
      with ((vnorm u * vnorm u) * (vnorm v * vnorm v)) by ring.
    rewrite Su, Sv. destruct u as [[a b] c], v as [[x y] z]. unfold vdot.
    pose proof (Rle_0_sqr (a * y - b * x)). pose proof (Rle_0_sqr (a * z - c * x)).
    pose proof (Rle_0_sqr (b * z - c * y)). unfold Rsqr in *. nra. }
  apply Rsqr_incr_0; unfold Rsqr; nra.
Qed.

Lemma vnorm_triangle (u v : vec3) : vnorm (vadd u v) <= vnorm u + vnorm v.
Proof.
  pose proof (vnorm_nonneg u) as Hu. pose proof (vnorm_nonneg v) as Hv.
  pose proof (vnorm_nonneg (vadd u v)) as Huv.
  pose proof (vnorm_sqr u) as Su. pose proof (vnorm_sqr v) as Sv.
  pose proof (vnorm_sqr (vadd u v)) as Suv.
  pose proof (vdot_cauchy_schwarz u v) as Hcs.
  assert (Hexp : vdot (vadd u v) (vadd u v) = vdot u u + 2 * vdot u v + vdot v v).
  { destruct u as [[a b] c], v as [[x y] z]. unfold vdot, vadd. ring. }
  apply Rsqr_incr_0; unfold Rsqr; nra.
Qed.

Lemma lattice_images_within_reach (lattice inv : mat3) (d : R) (k : ivec3) :
  inv3 (transpose lattice) = ret inv ->
  k <> ivec_zero ->
  vnorm (vec_mat (ivec_R k) lattice) <= lattice_reach lattice d ->
  In k (lattice_images lattice inv d).
Proof.
  intros Hinv Hk Hreach. apply lattice_images_in.
  split; [| split; assumption].
  pose proof (inv3_correct _ _ (ivec_R k) Hinv) as Hc.
  rewrite mat_vec_transpose in Hc.
  remember (vec_mat (ivec_R k) lattice) as v eqn:Ev. clear Ev.
  pose proof (vnorm_nonneg v) as Hv.
  apply mesh_grid_list_in. unfold bounding_box.
  destruct inv as [[[[a b] c] [[e f] g]] [[h i] j]], k as [[k0 k1] k2].
  cbv [mat_vec vdot ivec_R] in Hc. injection Hc as H0 H1 H2.
  pose proof (vdot_bound a b c v) as B0.
  pose proof (vdot_bound e f g v) as B1.
  pose proof (vdot_bound h i j v) as B2.
  cbv [vdot] in B0, B1, B2.
  rewrite H0 in B0. rewrite H1 in B1. rewrite H2 in B2.
  pose proof (Rabs_pos a). pose proof (Rabs_pos b). pose proof (Rabs_pos c).
  pose proof (Rabs_pos e). pose proof (Rabs_pos f). pose proof (Rabs_pos g).
  pose proof (Rabs_pos h). pose proof (Rabs_pos i). pose proof (Rabs_pos j).
  cbv [abs_row_sums vscale ceil_vec ivec_opp fst snd].
  repeat split; apply Zceil_abs_bound; nra.
Qed.

Lemma image_norm_bound (lattice : mat3) (xi xj : vec3) (k : ivec3) :
  vnorm (vec_mat (ivec_R k) lattice) <=
  vnorm (displacement lattice xi xj k) + vnorm (vsub xj xi).
Proof.
  replace (vec_mat (ivec_R k) lattice)
    with (vadd (displacement lattice xi xj k) (vsub xi xj)).
  - rewrite (vnorm_vsub_sym xj xi). apply vnorm_triangle.
  - unfold displacement. destruct (vec_mat (ivec_R k) lattice) as [[s0 s1] s2].
    destruct xi as [[a b] c], xj as [[x y] z]. unfold vadd, vsub. tuple_eq; ring.
Qed.

(** X13, in exact arithmetic: the search finds every pair within the
    cutoff whose two atoms are no further apart than [max_radius_cell]: for such nodes i and j and any
    image k (other than the pair of a node with itself in the central
    image, unless [self_loops]) at a distance of at most [max_distance],
    the entry (i, j, k) with that distance is in the output.  Pairs in the
    central image need no condition on the atoms. *)
Theorem range_neighbour_lattice_complete
    (argsort : list R -> list nat) (coordinates : list vec3) (lattice : mat3)
    (d : R) (self_loops sort_distance : bool) :
  argsort_spec argsort ->
  det3 lattice <> 0 ->
  coordinates <> [] \/ self_loops = true ->
  exists l : list entry,
    range_neighbour_lattice argsort coordinates lattice (Some d)
      self_loops sort_distance = ret (of_entries l) /\
    forall i j xi xj k,
      nth_error coordinates i = Some xi ->
      nth_error coordinates j = Some xj ->
      (i = j -> k = ivec_zero -> self_loops = true) ->
      vnorm (displacement lattice xi xj k) <= d ->
      (k = ivec_zero \/ vnorm (vsub xj xi) <= max_radius_cell lattice) ->
      In (i, j, k, vnorm (displacement lattice xi xj k)) l.
Proof.
  intros Hsort Hdet Hne.
  destruct (inv3_regular (transpose lattice)) as [inv Hinv];
    [now rewrite det3_transpose |].
  eexists. split; [apply range_neighbour_lattice_rows; eassumption |].
  intros i j xi xj k Hi Hj Hself Hd Hclose.
  apply (neighbour_rows_spec argsort _ _ _ _ _ _ _ Hsort).
  exists i, j, xi, xj, k. repeat split; try assumption.
  destruct (ivec_eqb k ivec_zero) eqn:Ek.
  - apply ivec_eqb_eq in Ek. subst k. left. split; [reflexivity |].
    destruct (Nat.eq_dec i j) as [E | E]; [left; now apply Hself | now right].
  - right. assert (Hk : k <> ivec_zero).
    { intros ->. unfold ivec_eqb, ivec_zero in Ek. discriminate. }
    destruct Hclose as [-> | Hclose]; [contradiction |].
    apply lattice_images_within_reach; try assumption.
    pose proof (image_norm_bound lattice xi xj k). unfold lattice_reach. lra.
Qed.

Lemma range_neighbour_lattice_complete_witness :
  exists l : list entry,
    range_neighbour_lattice insertion_argsort [(0, 0, 0)] mat_id (Some 4)
      false true = ret (of_entries l) /\
    forall i j xi xj k,
      nth_error [(0, 0, 0)] i = Some xi ->
      nth_error [(0, 0, 0)] j = Some xj ->
      (i = j -> k = ivec_zero -> false = true) ->
      vnorm (displacement mat_id xi xj k) <= 4 ->
      (k = ivec_zero \/ vnorm (vsub xj xi) <= max_radius_cell mat_id) ->
      In (i, j, k, vnorm (displacement mat_id xi xj k)) l.
Proof.
  apply (range_neighbour_lattice_complete insertion_argsort [(0, 0, 0)] mat_id 4 false true).
  - exact insertion_argsort_ok.
  - exact mat_id_det.
  - left. discriminate.
Defined.

(** ** No pair is returned twice *)

Lemma nodup_flat_map {A B : Type} (f : A -> list B) (l : list A) :
  NoDup l ->
  (forall x, In x l -> NoDup (f x)) ->
  (forall x y z, In x l -> In y l -> In z (f x) -> In z (f y) -> x = y) ->
  NoDup (flat_map f l).
Proof.
  induction 1 as [| x l Hx Hl IH]; intros Hf Hsep; simpl; [constructor |].
  apply NoDup_app.
  - apply Hf. now left.
  - apply IH.
    + intros y Hy. apply Hf. now right.
    + intros y y' z Hy Hy'. apply Hsep; now right.
  - intros z Hz Hz'. apply in_flat_map in Hz' as [y [Hy Hzy]].
    assert (x = y) by (apply (Hsep x y z); auto; [now left | now right]).
    subst y. contradiction.
Qed.

Lemma nodup_map_in {A B : Type} (f : A -> B) (l : list A) :
  (forall x y, In x l -> In y l -> f x = f y -> x = y) ->
  NoDup l -> NoDup (map f l).
Proof.
  intros Hinj. induction 1 as [| x l Hx Hl IH]; simpl; constructor.
  - intros H. apply in_map_iff in H as [y [E Hy]].
    assert (y = x) by (apply Hinj; auto; [now right | now left]).
    now subst y.
  - apply IH. intros y y' Hy Hy'. apply Hinj; now right.
Qed.

Lemma filter_keys_nodup {K E : Type} (key : E -> K) (keep : E -> bool) :
  forall es : list E, NoDup (map key es) -> NoDup (map key (filter keep es)).
Proof.
  intros es. induction es as [| e es IH]; simpl; intros H; [constructor |].
  inversion H as [| ? ? He Hes]; subst.
  destruct (keep e); simpl; [| now apply IH]. constructor; [| now apply IH].
  intros Hin. apply He. apply in_map_iff in Hin as [y [E0 Hy]].
  apply in_map_iff. exists y. split; [exact E0 |]. now apply filter_In in Hy.
Qed.

Lemma arange_nodup (i j : Z) : NoDup (arange i j).
Proof.
  unfold arange. apply nodup_map_in; [| apply seq_NoDup].
  intros x y _ _ H. lia.
Qed.

Lemma mesh_grid_list_nodup (bl br : ivec3) : NoDup (mesh_grid_list bl br).
Proof.
  destruct bl as [[l0 l1] l2], br as [[r0 r1] r2]. unfold mesh_grid_list.
  apply nodup_flat_map; [apply arange_nodup | |].
  - intros z _. apply nodup_flat_map; [apply arange_nodup | |].
    + intros x _. apply nodup_map_in; [| apply arange_nodup].
      intros y y' _ _ [= ->]. reflexivity.
    + intros x x' k _ _ Hk Hk'.
      apply in_map_iff in Hk as [y [<- _]]. apply in_map_iff in Hk' as [y' [[= -> _] _]].
      reflexivity.
  - intros z z' k _ _ Hk Hk'.
    apply in_flat_map in Hk as [x [_ Hk]]. apply in_map_iff in Hk as [y [<- _]].
    apply in_flat_map in Hk' as [x' [_ Hk']].
    apply in_map_iff in Hk' as [y' [[= _ _ ->] _]]. reflexivity.
Qed.

Lemma lattice_images_nodup (lattice inv : mat3) (d : R) :
  NoDup (lattice_images lattice inv d).
Proof.
  unfold lattice_images. cbv zeta. do 2 apply NoDup_filter. apply mesh_grid_list_nodup.
Qed.

Lemma indexed_nodup (coordinates : list vec3) : NoDup (indexed coordinates).
Proof.
  apply (NoDup_map_inv fst). rewrite indexed_fst. apply seq_NoDup.
Qed.

Lemma indexed_fst_injective (coordinates : list vec3) (ix jx : nat * vec3) :
  In ix (indexed coordinates) -> In jx (indexed coordinates) ->
  fst ix = fst jx -> ix = jx.
Proof.
  destruct ix as [i x], jx as [j y]. cbn [fst]. intros Hi Hj <-.
  apply indexed_in in Hi, Hj. congruence.
Qed.

Section Keys.

Variables (coordinates : list vec3) (lattice inv : mat3) (d : R) (self_loops : bool).

Let imgs := lattice_images lattice inv d.

Lemma candidates_keys_nodup (i : nat) (xi : vec3) :
  NoDup (map e_key (candidates self_loops lattice imgs coordinates i xi)).
Proof.
  unfold candidates. rewrite map_app. apply NoDup_app.
  - unfold center_candidates. rewrite map_map. unfold e_key. cbn [fst].
    apply nodup_map_in.
    + intros jx jx' Hj Hj' [= E]. unfold center_kept in Hj, Hj'.
      apply filter_In in Hj as [Hj _]. apply filter_In in Hj' as [Hj' _].
      now apply (indexed_fst_injective coordinates).
    + unfold center_kept. apply NoDup_filter, indexed_nodup.
  - unfold image_candidates. rewrite map_flat_map.
    apply nodup_flat_map; [apply indexed_nodup | |].
    + intros jx _. rewrite map_map. unfold e_key. cbn [fst].
      apply nodup_map_in; [| apply lattice_images_nodup].
      intros k k' _ _ [= ->]. reflexivity.
    + intros jx jx' z Hj Hj' Hz Hz'. rewrite map_map in Hz, Hz'.
      apply in_map_iff in Hz as [k [<- _]]. apply in_map_iff in Hz' as [k' [E _]].
      unfold e_key in E. cbn [fst] in E. injection E as E _.
      now apply (indexed_fst_injective coordinates).
  - intros z Hz Hz'. unfold center_candidates in Hz. rewrite map_map in Hz.
    apply in_map_iff in Hz as [jx [<- _]].
    unfold image_candidates in Hz'. rewrite map_flat_map in Hz'.
    apply in_flat_map in Hz' as [jx' [_ Hz']]. rewrite map_map in Hz'.
    apply in_map_iff in Hz' as [k [E Hk]]. unfold e_key in E. cbn [fst] in E.
    injection E as _ E. subst k. now apply lattice_images_nonzero in Hk.
Qed.

Lemma within_cutoff_keys_nodup :
  NoDup (map e_key (within_cutoff coordinates lattice inv d self_loops)).
Proof.
  unfold within_cutoff. rewrite map_flat_map. fold imgs.
  apply nodup_flat_map; [apply indexed_nodup | |].
  - intros [i xi] _. cbn [fst snd]. apply filter_keys_nodup, candidates_keys_nodup.
  - intros ix iy z Hx Hy Hz Hz'.
    apply (indexed_fst_injective coordinates); try assumption.
    apply in_map_iff in Hz as [e [<- He]]. apply in_map_iff in Hz' as [e' [E He']].
    apply filter_In in He as [He _]. apply filter_In in He' as [He' _].
    pose proof (candidates_center self_loops lattice imgs coordinates (fst ix) (snd ix)) as C.
    pose proof (candidates_center self_loops lattice imgs coordinates (fst iy) (snd iy)) as C'.
    rewrite Forall_forall in C, C'. rewrite <- (C e He), <- (C' e' He').
    unfold e_center, e_key in *. now rewrite E.
Qed.

End Keys.

(** X14: no pair is returned twice: the triples (central node, neighbour
    node, image) of the output entries are pairwise different. *)
Theorem range_neighbour_lattice_no_duplicates
    (argsort : list R -> list nat) (coordinates : list vec3) (lattice : mat3)
    (d : R) (self_loops sort_distance : bool) :
  argsort_spec argsort ->
  det3 lattice <> 0 ->
  coordinates <> [] \/ self_loops = true ->
  exists l : list entry,
    range_neighbour_lattice argsort coordinates lattice (Some d)
      self_loops sort_distance = ret (of_entries l) /\
    NoDup (map e_key l).
Proof.
  intros Hsort Hdet Hne.
  destruct (inv3_regular (transpose lattice)) as [inv Hinv];
    [now rewrite det3_transpose |].
  eexists. split; [apply range_neighbour_lattice_rows; eassumption |].
  apply (Permutation_NoDup
           (l := map e_key (within_cutoff coordinates lattice inv d self_loops))).
  - apply Permutation_map. symmetry. now apply neighbour_rows_permutation.
  - apply within_cutoff_keys_nodup.
Qed.

Lemma range_neighbour_lattice_no_duplicates_witness :
  exists l : list entry,
    range_neighbour_lattice insertion_argsort [(0, 0, 0)] mat_id (Some 4)
      false true = ret (of_entries l) /\
    NoDup (map e_key l).
Proof.
  apply (range_neighbour_lattice_no_duplicates insertion_argsort
           [(0, 0, 0)] mat_id 4 false true).
  - exact insertion_argsort_ok.
  - exact mat_id_det.
  - left. discriminate.
Defined.

(** X15: [sort_distance] changes the order only: the outputs with and
    without sorting hold the same entries, each as often. *)
Theorem range_neighbour_lattice_sort_permutes
    (argsort : list R -> list nat) (coordinates : list vec3) (lattice : mat3)
    (d : R) (self_loops : bool) :
  argsort_spec argsort ->
  det3 lattice <> 0 ->
  coordinates <> [] \/ self_loops = true ->
  exists sorted unsorted : list entry,
    range_neighbour_lattice argsort coordinates lattice (Some d)
      self_loops true = ret (of_entries sorted) /\
    range_neighbour_lattice argsort coordinates lattice (Some d)
      self_loops false = ret (of_entries unsorted) /\
    Permutation sorted unsorted.
Proof.
  intros Hsort Hdet Hne.
  destruct (inv3_regular (transpose lattice)) as [inv Hinv];
    [now rewrite det3_transpose |].
  eexists _, _. split; [apply range_neighbour_lattice_rows; eassumption |].
  split; [apply range_neighbour_lattice_rows; eassumption |].
  rewrite (neighbour_rows_permutation argsort Hsort coordinates lattice inv d
             self_loops true).
  symmetry. now apply neighbour_rows_permutation.
Qed.

Lemma range_neighbour_lattice_sort_permutes_witness :
  exists sorted unsorted : list entry,
    range_neighbour_lattice insertion_argsort [(0, 0, 0)] mat_id (Some 4)
      false true = ret (of_entries sorted) /\
    range_neighbour_lattice insertion_argsort [(0, 0, 0)] mat_id (Some 4)
      false false = ret (of_entries unsorted) /\
    Permutation sorted unsorted.
Proof.
  apply (range_neighbour_lattice_sort_permutes insertion_argsort
           [(0, 0, 0)] mat_id 4 false).
  - exact insertion_argsort_ok.
  - exact mat_id_det.
  - left. discriminate.
Defined.

(** ** Moving the atoms, growing the cutoff *)

Lemma indexed_map (f : vec3 -> vec3) (coordinates : list vec3) :
  indexed (map f coordinates) =
  map (fun ix => (fst ix, f (snd ix))) (indexed coordinates).
Proof.
  unfold indexed. rewrite length_map. generalize 0%nat as s.
  induction coordinates as [| x l IH]; intros s; simpl; [reflexivity |].
  now rewrite IH.
Qed.

Lemma candidates_translate (self_loops : bool) (lattice : mat3) (images : list ivec3)
    (coordinates : list vec3) (t : vec3) (i : nat) (xi : vec3) :
  candidates self_loops lattice images (map (fun x => vadd x t) coordinates)
    i (vadd xi t) =
  candidates self_loops lattice images coordinates i xi.
Proof.
  unfold candidates, center_candidates, center_kept, image_candidates.
  rewrite indexed_map, filter_map_swap, map_map, flat_map_map_in. cbn [fst snd].
  f_equal.
  - apply map_ext. intros jx. now rewrite vsub_shift.
  - apply flat_map_ext. intros jx. apply map_ext. intros k. do 2 f_equal.
    destruct (snd jx) as [[x y] z], (vec_mat (ivec_R k) lattice) as [[s0 s1] s2].
    destruct xi as [[a b] c], t as [[t0 t1] t2]. unfold vsub, vadd. tuple_eq; ring.
Qed.

Lemma neighbour_rows_translate
    (argsort : list R -> list nat) (coordinates : list vec3) (lattice inv : mat3)
    (d : R) (self_loops sort_distance : bool) (t : vec3) :
  neighbour_rows argsort (map (fun x => vadd x t) coordinates) lattice inv d
    self_loops sort_distance =
  neighbour_rows argsort coordinates lattice inv d self_loops sort_distance.
Proof.
  unfold neighbour_rows. rewrite indexed_map, map_map. apply map_ext. intros ix.
  cbn [fst snd]. now rewrite candidates_translate.
Qed.

(** X16: only relative positions matter: moving all atoms by one vector
    changes nothing in what the call returns or raises. *)
Theorem range_neighbour_lattice_translation
    (argsort : list R -> list nat) (coordinates : list vec3) (lattice : mat3)
    (max_distance : option R) (self_loops sort_distance : bool) (t : vec3) :
  range_neighbour_lattice argsort (map (fun x => vadd x t) coordinates) lattice
    max_distance self_loops sort_distance =
  range_neighbour_lattice argsort coordinates lattice
    max_distance self_loops sort_distance.
Proof.
  destruct (Req_dec_T (det3 lattice) 0) as [Hdet | Hdet].
  - now rewrite !range_neighbour_lattice_singular.
  - destruct max_distance as [d |]; [| now rewrite !range_neighbour_lattice_none].
    destruct coordinates as [| x coordinates].
    + reflexivity.
    + destruct (inv3_regular (transpose lattice)) as [inv Hinv];
        [now rewrite det3_transpose |].
      rewrite !(range_neighbour_lattice_rows argsort _ lattice inv d
                  self_loops sort_distance Hinv)
        by (left; discriminate).
      now rewrite neighbour_rows_translate.
Qed.

Lemma lattice_reach_monotone (lattice : mat3) (d1 d2 : R) :
  d1 <= d2 -> lattice_reach lattice d1 <= lattice_reach lattice d2.
Proof. unfold lattice_reach. lra. Qed.

Lemma lattice_images_monotone (lattice inv : mat3) (d1 d2 : R) (k : ivec3) :
  inv3 (transpose lattice) = ret inv -> d1 <= d2 ->
  In k (lattice_images lattice inv d1) -> In k (lattice_images lattice inv d2).
Proof.
  intros Hinv Hd Hk. apply lattice_images_in in Hk as (_ & Hz & Hn).
  apply lattice_images_within_reach; try assumption.
  pose proof (lattice_reach_monotone lattice d1 d2 Hd). lra.
Qed.

(** X17: a larger cutoff only adds neighbours: every entry returned for
    [max_distance = d1] is returned for every [d2 >= d1]. *)
Theorem range_neighbour_lattice_cutoff_monotone
    (argsort : list R -> list nat) (coordinates : list vec3) (lattice : mat3)
    (d1 d2 : R) (self_loops sort_distance : bool) :
  argsort_spec argsort ->
  det3 lattice <> 0 ->
  coordinates <> [] \/ self_loops = true ->
  d1 <= d2 ->
  exists l1 l2 : list entry,
    range_neighbour_lattice argsort coordinates lattice (Some d1)
      self_loops sort_distance = ret (of_entries l1) /\
    range_neighbour_lattice argsort coordinates lattice (Some d2)
      self_loops sort_distance = ret (of_entries l2) /\
    forall e, In e l1 -> In e l2.
Proof.
  intros Hsort Hdet Hne Hd.
  destruct (inv3_regular (transpose lattice)) as [inv Hinv];
    [now rewrite det3_transpose |].
  eexists _, _. split; [apply range_neighbour_lattice_rows; eassumption |].
  split; [apply range_neighbour_lattice_rows; eassumption |].
  intros e He.
  apply (neighbour_rows_spec argsort _ _ _ _ _ _ _ Hsort) in He
    as (i & j & xi & xj & k & Hi & Hj & -> & Hle & Hk).
  apply (neighbour_rows_spec argsort _ _ _ _ _ _ _ Hsort).
  exists i, j, xi, xj, k. repeat split; try assumption; [lra |].
  destruct Hk as [Hk | Hk]; [now left | right].
  now apply (lattice_images_monotone lattice inv d1 d2).
Qed.

Lemma range_neighbour_lattice_cutoff_monotone_witness :
  exists l1 l2 : list entry,
    range_neighbour_lattice insertion_argsort [(0, 0, 0)] mat_id (Some 1)
      false true = ret (of_entries l1) /\
    range_neighbour_lattice insertion_argsort [(0, 0, 0)] mat_id (Some 4)
      false true = ret (of_entries l2) /\
    forall e, In e l1 -> In e l2.
Proof.
  apply (range_neighbour_lattice_cutoff_monotone insertion_argsort
           [(0, 0, 0)] mat_id 1 4 false true).
  - exact insertion_argsort_ok.
  - exact mat_id_det.
  - left. discriminate.
  - lra.
Defined.

(** X18: a cell without atoms: with [self_loops] the call returns three
    empty arrays; without it, it raises ValueError, because the reshape in
    [remove_self_loops] asks for the shape (0, -1, ...). *)
Theorem range_neighbour_lattice_no_atoms
    (argsort : list R -> list nat) (lattice : mat3) (d : R) (sort_distance : bool) :
  det3 lattice <> 0 ->
  range_neighbour_lattice argsort [] lattice (Some d) true sort_distance =
    ret ([], [], []) /\
  range_neighbour_lattice argsort [] lattice (Some d) false sort_distance =
    raise ValueError.
Proof.
  intros Hdet.
  destruct (inv3_regular (transpose lattice)) as [inv Hinv];
    [now rewrite det3_transpose |].
  split.
  - rewrite (range_neighbour_lattice_rows argsort [] lattice inv d true
               sort_distance Hinv) by now right.
    reflexivity.
  - unfold range_neighbour_lattice. rewrite Hinv. reflexivity.
Qed.

Lemma range_neighbour_lattice_no_atoms_witness :
  range_neighbour_lattice insertion_argsort [] mat_id (Some 4) true true =
    ret ([], [], []) /\
  range_neighbour_lattice insertion_argsort [] mat_id (Some 4) false true =
    raise ValueError.
Proof.
  apply (range_neighbour_lattice_no_atoms insertion_argsort mat_id 4 true).
  exact mat_id_det.
Defined.

(** X19: the search is not complete for atoms that are further apart than
    [max_radius_cell].  In a cubic cell of constant a, the atoms at
    x = 0.05 a and x = 0.95 a and the cutoff 0.1 a: the image (-1, 0, 0)
    of the second atom is at distance 0.1 a from the first, within the
    cutoff, but the output has no entry for it, since the image is pruned
    (its shift has length a > 0.1 a + max_radius_cell). *)
Theorem range_neighbour_lattice_misses_neighbour
    (argsort : list R -> list nat) (a : R) (sort_distance : bool) :
  argsort_spec argsort ->
  0 < a ->
  exists l : list entry,
    range_neighbour_lattice argsort (face_pair a) (cubic_lattice a) (Some (0.1 * a))
      false sort_distance = ret (of_entries l) /\
    vnorm (displacement (cubic_lattice a) (0.05 * a, 0, 0) (0.95 * a, 0, 0)
             (-1, 0, 0)%Z) <= 0.1 * a /\
    forall dist, ~ In (0%nat, 1%nat, (-1, 0, 0)%Z, dist) l.
Proof.
  intros Hsort Ha.
  assert (Hdet : det3 (cubic_lattice a) <> 0).
  { unfold det3, cubic_lattice.
    replace (a * (a * a - 0 * 0) - 0 * (0 * a - 0 * 0) + 0 * (0 * 0 - a * 0))
      with (a * a * a) by ring.
    apply Rgt_not_eq. repeat apply Rmult_lt_0_compat; exact Ha. }
  destruct (inv3_regular (transpose (cubic_lattice a))) as [inv Hinv];
    [now rewrite det3_transpose |].
  eexists. split; [| split].
  - apply range_neighbour_lattice_rows; [eassumption | left; discriminate].
  - cbv [displacement cubic_lattice vec_mat ivec_R vadd vscale vsub vnorm].
    right. apply sqrt_lem_1; [nra | lra | nra].
  - intros dist He.
    apply (neighbour_rows_spec argsort _ _ _ _ _ _ _ Hsort) in He
      as (i & j & xi & xj & k & _ & _ & [= _ _ <-] & _ & [[Hk _] | Hk]).
    + discriminate Hk.
    + apply lattice_images_in in Hk as (_ & _ & Hn).
      rewrite (cubic_image_norm a Ha) in Hn.
      unfold lattice_reach in Hn. rewrite (cubic_max_radius a Ha) in Hn.
      change (norm_sq (-1, 0, 0)%Z) with 1%Z in Hn. rewrite sqrt_1 in Hn.
      pose proof sqrt3_bounds. nra.
Qed.

Lemma range_neighbour_lattice_misses_neighbour_witness :
  exists l : list entry,
    range_neighbour_lattice insertion_argsort (face_pair 1) (cubic_lattice 1)
      (Some (0.1 * 1)) false true = ret (of_entries l) /\
    vnorm (displacement (cubic_lattice 1) (0.05 * 1, 0, 0) (0.95 * 1, 0, 0)
             (-1, 0, 0)%Z) <= 0.1 * 1 /\
    forall dist, ~ In (0%nat, 1%nat, (-1, 0, 0)%Z, dist) l.
Proof.
  apply (range_neighbour_lattice_misses_neighbour insertion_argsort 1 true).
  - exact insertion_argsort_ok.
  - lra.
Defined.

(** ** coordinates_from_distance_matrix *)

Lemma rsum_app (l1 l2 : list R) : rsum (l1 ++ l2) = rsum l1 + rsum l2.
Proof.
  induction l1 as [| x l1 IH]; simpl; [ring |]. unfold rsum in *. simpl. rewrite IH. ring.
Qed.

Lemma rsum_map_plus {A : Type} (f g : A -> R) (l : list A) :
  rsum (map (fun x => f x + g x) l) = rsum (map f l) + rsum (map g l).
Proof.
  induction l as [| x l IH]; unfold rsum in *; simpl; [ring |]. rewrite IH. ring.
Qed.

Lemma rsum_map_scale {A : Type} (c : R) (f : A -> R) (l : list A) :
  rsum (map (fun x => c * f x) l) = c * rsum (map f l).
Proof.
  induction l as [| x l IH]; unfold rsum in *; simpl; [ring |]. rewrite IH. ring.
Qed.

Lemma rsum_map_const {A : Type} (c : R) (l : list A) :
  rsum (map (fun _ => c) l) = INR (length l) * c.
Proof.
  induction l as [| x l IH]; [simpl; unfold rsum; simpl; ring |].
  cbn [map length]. rewrite S_INR. unfold rsum in *. cbn [fold_right]. rewrite IH. ring.
Qed.

Lemma rsum_map_zero {A : Type} (f : A -> R) (l : list A) :
  (forall x, In x l -> f x = 0) -> rsum (map f l) = 0.
Proof.
  induction l as [| x l IH]; intros H; unfold rsum in *; simpl; [reflexivity |].
  rewrite IH by (intros y Hy; apply H; now right). rewrite (H x) by now left. ring.
Qed.

Lemma rsum_map_ext_in {A : Type} (f g : A -> R) (l : list A) :
  (forall x, In x l -> f x = g x) -> rsum (map f l) = rsum (map g l).
Proof. intros H. f_equal. now apply map_ext_in. Qed.

Lemma rsum_vdot (s : vec3) (x : list vec3) :
  rsum (map (fun p => vdot p s) x) = vdot (vsum x) s.
Proof.
  induction x as [| p x IH]; unfold rsum, vsum in *; simpl.
  - destruct s as [[a b] c]. unfold vdot, vzero. ring.
  - rewrite IH. destruct p as [[p0 p1] p2], s as [[a b] c],
      (fold_right vadd vzero x) as [[s0 s1] s2]. unfold vdot, vadd. ring.
Qed.

Lemma vdot_sub_expand (p q : vec3) :
  vdot (vsub p q) (vsub p q) = vdot p p - 2 * vdot p q + vdot q q.
Proof.
  destruct p as [[a b] c], q as [[x y] z]. unfold vdot, vsub. ring.
Qed.

Lemma vdot_comm (p q : vec3) : vdot p q = vdot q p.
Proof. destruct p as [[a b] c], q as [[x y] z]. unfold vdot. ring. Qed.

Lemma map_via_index {A B : Type} (d : A) (f : A -> B) (l : list A) :
  map f l = map (fun k => f (nth k l d)) (seq 0 (length l)).
Proof.
  transitivity (map f (map (fun k => nth k l d) (seq 0 (length l)))).
  - now rewrite map_nth_all.
  - apply map_map.
Qed.

(** the entries of the squared distance matrix of a cloud *)

Section Cloud.

Variable x : list vec3.
Let n := length x.
Let sq (a b : nat) : R :=
  vdot (vsub (nth a x vzero) (nth b x vzero)) (vsub (nth a x vzero) (nth b x vzero)).

Lemma distance_matrix_square : square n (distance_matrix x).
Proof.
  unfold distance_matrix, n. split; [now rewrite length_map |].
  apply Forall_forall. intros row Hrow. apply in_map_iff in Hrow as [xa [<- _]].
  now rewrite length_map.
Qed.

Lemma squared_distances :
  map (map (fun d => d * d)) (distance_matrix x) =
  map (fun a => map (fun b => sq a b) (seq 0 n)) (seq 0 n).
Proof.
  unfold distance_matrix, sq, n. rewrite map_map.
  rewrite (map_via_index vzero). apply map_ext. intros a.
  rewrite map_map. rewrite (map_via_index vzero). apply map_ext. intros b.
  apply vnorm_sqr.
Qed.

Lemma double_center_entry (f : nat -> R) (g : nat -> nat -> R) (a b : nat) :
  (a < n)%nat -> (b < n)%nat ->
  nth b (nth a (double_center (map f (seq 0 n))
                  (map (fun a => map (fun b => g a b) (seq 0 n)) (seq 0 n))) []) 0 =
  (f b + f a - g a b) / 2.
Proof.
  intros Ha Hb. unfold double_center.
  rewrite (nth_zip_with _ _ _ _ 0 []) by (rewrite !length_map, length_seq; lia).
  rewrite !nth_map_seq by lia.
  rewrite (nth_zip_with _ _ _ _ 0 0) by (rewrite !length_map, length_seq; lia).
  now rewrite !nth_map_seq by lia.
Qed.

Lemma row_sum_squares (a : nat) :
  rsum (map (fun b => sq a b) (seq 0 n)) =
  INR n * vdot (nth a x vzero) (nth a x vzero)
  - 2 * vdot (nth a x vzero) (vsum x)
  + rsum (map (fun p => vdot p p) x).
Proof.
  unfold sq. set (xa := nth a x vzero).
  transitivity (rsum (map (fun p => vdot (vsub xa p) (vsub xa p)) x)).
  { now rewrite (map_via_index vzero (fun p => vdot (vsub xa p) (vsub xa p))). }
  rewrite (rsum_map_ext_in _ (fun p => (vdot xa xa + (-2) * vdot p xa) + vdot p p)).
  2:{ intros p _. rewrite vdot_sub_expand, (vdot_comm xa p). ring. }
  rewrite !rsum_map_plus, rsum_map_scale, rsum_map_const, rsum_vdot.
  rewrite (vdot_comm (vsum x) xa). fold n. ring.
Qed.

Lemma total_sum_squares :
  rsum (map (fun a => rsum (map (fun b => sq a b) (seq 0 n))) (seq 0 n)) =
  2 * INR n * rsum (map (fun p => vdot p p) x) - 2 * vdot (vsum x) (vsum x).
Proof.
  rewrite (rsum_map_ext_in _ _ _ (fun a _ => row_sum_squares a)).
  set (q := rsum (map (fun p => vdot p p) x)).
  transitivity (rsum (map (fun p => (INR n * vdot p p + (-2) * vdot p (vsum x)) + q) x)).
  { rewrite (map_via_index vzero
               (fun p => INR n * vdot p p + -2 * vdot p (vsum x) + q)).
    fold n. apply rsum_map_ext_in. intros a _. ring. }
  rewrite !rsum_map_plus, !rsum_map_scale, rsum_map_const, rsum_vdot. fold n q. ring.
Qed.

End Cloud.

Lemma py_index_bound (n : nat) (c : Z) (j : nat) :
  py_index n c = Some j -> (j < n)%nat.
Proof.
  unfold py_index.
  destruct ((0 <=? c) && (c <? Z.of_nat n))%Z eqn:E1.
  - intros [= <-]. apply andb_true_iff in E1 as [H1 H2].
    apply Z.leb_le in H1. apply Z.ltb_lt in H2. lia.
  - destruct ((- Z.of_nat n <=? c) && (c <? 0))%Z eqn:E2; [| discriminate].
    intros [= <-]. apply andb_true_iff in E2 as [H1 H2].
    apply Z.leb_le in H1. apply Z.ltb_lt in H2. lia.
Qed.

Lemma py_index_out_of_range (n : nat) (c : Z) :
  (c < - Z.of_nat n \/ Z.of_nat n <= c)%Z -> py_index n c = None.
Proof.
  intros H. unfold py_index.
  destruct ((0 <=? c) && (c <? Z.of_nat n))%Z eqn:E1.
  - apply andb_true_iff in E1 as [H1 H2].
    apply Z.leb_le in H1. apply Z.ltb_lt in H2. lia.
  - destruct ((- Z.of_nat n <=? c) && (c <? 0))%Z eqn:E2; [| reflexivity].
    apply andb_true_iff in E2 as [H1 H2].
    apply Z.leb_le in H1. apply Z.ltb_lt in H2. lia.
Qed.

Lemma gram_center (xa xb o : vec3) :
  (vdot (vsub xb o) (vsub xb o) + vdot (vsub xa o) (vsub xa o)
   - vdot (vsub xa xb) (vsub xa xb)) / 2 =
  vdot (vsub xa o) (vsub xb o).
Proof.
  destruct xa as [[a0 a1] a2], xb as [[b0 b1] b2], o as [[o0 o1] o2].
  unfold vdot, vsub. field.
Qed.

Lemma double_center_square (n : nat) (a : list R) (di2 : matrix R) :
  length a = n -> square n di2 -> square n (double_center a di2).
Proof.
  intros Ha [Hl Hr]. unfold double_center. split.
  - rewrite length_zip_with. lia.
  - apply Forall_forall. intros row Hrow. unfold zip_with in Hrow at 1.
    apply in_map_iff in Hrow as [[da r] [<- Hin]]. apply in_combine_r in Hin.
    rewrite Forall_forall in Hr. cbn [fst snd].
    rewrite length_zip_with, (Hr r Hin). lia.
Qed.

Lemma column_of_table (n : nat) (g : nat -> nat -> R) (j : nat) :
  (j < n)%nat ->
  column j (map (fun a => map (fun b => g a b) (seq 0 n)) (seq 0 n)) =
  map (fun a => g a j) (seq 0 n).
Proof.
  intros Hj. unfold column. rewrite map_map. apply map_ext. intros a.
  now rewrite nth_map_seq.
Qed.

Lemma table_square (n : nat) (g : nat -> nat -> R) :
  square n (map (fun a => map (fun b => g a b) (seq 0 n)) (seq 0 n)).
Proof.
  split; [now rewrite length_map, length_seq |].
  apply Forall_forall. intros row Hrow. apply in_map_iff in Hrow as [a [<- _]].
  now rewrite length_map, length_seq.
Qed.

Lemma mat_m_gram (x : list vec3) (use_center : option Z) (o : vec3) :
  center_point x use_center = Some o ->
  exists m : matrix R,
    mat_m (distance_matrix x) use_center = inr m /\
    square (length x) m /\
    forall a b, (a < length x)%nat -> (b < length x)%nat ->
      nth b (nth a m []) 0 =
      vdot (vsub (nth a x vzero) o) (vsub (nth b x vzero) o).
Proof.
  intros Ho. unfold mat_m. cbv zeta.
  rewrite (square_ncols _ _ (distance_matrix_square x)), squared_distances.
  destruct use_center as [c |]; cbn [center_point] in Ho.
  - destruct (py_index (length x) c) as [j |] eqn:Ej; [| discriminate].
    injection Ho as <-. pose proof (py_index_bound _ c j Ej) as Hj.
    rewrite column_of_table by assumption.
    eexists. split; [reflexivity |]. split.
    + apply double_center_square; [now rewrite length_map, length_seq |].
      apply table_square.
    + intros a b Ha Hb. rewrite double_center_entry by assumption.
      apply gram_center.
  - destruct (Nat.eqb (length x) 0) eqn:En; [discriminate |]. injection Ho as <-.
    apply Nat.eqb_neq in En. rewrite !map_map.
    eexists. split; [reflexivity |]. split.
    + apply double_center_square; [now rewrite length_map, length_seq |].
      apply table_square.
    + intros a b Ha Hb. rewrite double_center_entry by assumption.
      rewrite total_sum_squares, !row_sum_squares.
      assert (Hn : 0 < INR (length x)) by (apply lt_0_INR; lia).
      set (q := rsum (map (fun p => vdot p p) x)).
      unfold centroid.
      destruct (vsum x) as [[s0 s1] s2], (nth a x vzero) as [[a0 a1] a2],
        (nth b x vzero) as [[b0 b1] b2].
      unfold vdot, vsub, vscale. field. lra.
Qed.

(** X20: for the distance matrix of a cloud, the matrix handed to the
    decomposition is the Gram matrix of the cloud about the centre: its
    entry (a, b) is the scalar product of [x_a - o] and [x_b - o], where o
    is the centroid ([use_center = None]) or the atom [use_center]. *)
Theorem mat_m_is_gram_matrix (x : list vec3) (use_center : option Z) (o : vec3) :
  center_point x use_center = Some o ->
  exists m : matrix R,
    mat_m (distance_matrix x) use_center = inr m /\
    square (length x) m /\
    forall a b, (a < length x)%nat -> (b < length x)%nat ->
      nth b (nth a m []) 0 =
      vdot (vsub (nth a x vzero) o) (vsub (nth b x vzero) o).
Proof.
  intros Ho. destruct (mat_m_gram x use_center o Ho) as (m & Hm & Hsq & Hg).
  exists m. split; [exact Hm |]. split; [exact Hsq |].
  intros a b Ha Hb. now apply Hg.
Qed.

Lemma mat_m_is_gram_matrix_witness :
  exists m : matrix R,
    mat_m (distance_matrix two_atoms) None = inr m /\
    square (length two_atoms) m /\
    forall a b, (a < length two_atoms)%nat -> (b < length two_atoms)%nat ->
      nth b (nth a m []) 0 =
      vdot (vsub (nth a two_atoms vzero) (centroid two_atoms))
           (vsub (nth b two_atoms vzero) (centroid two_atoms)).
Proof.
  apply (mat_m_is_gram_matrix two_atoms None (centroid two_atoms)).
  reflexivity.
Defined.

(** X21: the calls that raise before the decomposition: with
    [use_center = None] a matrix without columns raises ZeroDivisionError
    (the factor 1 / 2 / dim_in), and an index [use_center] outside
    [-N, N) raises IndexError; indices from -N to -1 count from the end. *)
Theorem coordinates_from_distance_matrix_raises
    (svd : matrix R -> matrix R * list R * matrix R)
    (distance : matrix R) (use_center : option Z) (dim : nat) :
  match use_center with
  | None => ncols distance = 0%nat
  | Some c => (c < - Z.of_nat (ncols distance) \/ Z.of_nat (ncols distance) <= c)%Z
  end ->
  coordinates_from_distance_matrix svd distance use_center dim =
  inl (match use_center with None => ZeroDivisionError | Some _ => IndexError end).
Proof.
  unfold coordinates_from_distance_matrix, mat_m. cbv zeta.
  destruct use_center as [c |]; intros H.
  - now rewrite py_index_out_of_range.
  - now rewrite H.
Qed.

Lemma coordinates_from_distance_matrix_raises_witness :
  coordinates_from_distance_matrix svd_two_atoms (distance_matrix two_atoms)
    (Some 2%Z) 3 = inl IndexError.
Proof.
  apply (coordinates_from_distance_matrix_raises svd_two_atoms
           (distance_matrix two_atoms) (Some 2%Z) 3).
  right. simpl. lia.
Defined.

(** the product with the diagonal matrix of the roots *)

Lemma rsum_indicator (c : nat -> R) (j s n : nat) :
  (s <= j < s + n)%nat ->
  rsum (map (fun i => if Nat.eqb i j then c i else 0) (seq s n)) = c j.
Proof.
  revert s. induction n as [| n IH]; intros s Hj; [lia |].
  cbn [seq map]. unfold rsum in *. cbn [fold_right].
  destruct (Nat.eqb_spec s j) as [-> | Hne].
  - rewrite (rsum_map_zero (fun i => if Nat.eqb i j then c i else 0)); [ring |].
    intros i Hi. apply in_seq in Hi.
    destruct (Nat.eqb_spec i j); [lia | reflexivity].
  - rewrite IH by lia. ring.
Qed.

Lemma zip_with_seq (row : list R) (f : nat -> R) (n : nat) :
  length row = n ->
  zip_with Rmult row (map f (seq 0 n)) = map (fun i => nth i row 0 * f i) (seq 0 n).
Proof.
  intros <-. rewrite <- (map_nth_all 0 row) at 1. now rewrite zip_with_map.
Qed.

Lemma sqrt_diag_ncols (s : list R) : ncols (map (map sqrt) (np_diag s)) = length s.
Proof.
  unfold ncols, np_diag. destruct (length s) as [| n] eqn:E; [reflexivity |].
  set (F := fun i : nat =>
              map (fun j : nat => if Nat.eqb i j then nth i s 0 else 0) (seq 0 (S n))).
  rewrite <- cons_seq. cbn [map hd]. unfold F.
  now rewrite !length_map, length_seq.
Qed.

Lemma sqrt_diag_column (s : list R) (j : nat) :
  (j < length s)%nat ->
  column j (map (map sqrt) (np_diag s)) =
  map (fun i => if Nat.eqb i j then sqrt (nth i s 0) else 0) (seq 0 (length s)).
Proof.
  intros Hj. unfold column, np_diag. rewrite !map_map. apply map_ext. intros i.
  rewrite map_map, nth_map_seq by assumption.
  destruct (Nat.eqb i j); [reflexivity | apply sqrt_0].
Qed.

Lemma matmul_sqrt_diag (u : matrix R) (s : list R) :
  Forall (fun row => length row = length s) u ->
  matmul u (map (map sqrt) (np_diag s)) =
  map (fun row => map (fun j => nth j row 0 * sqrt (nth j s 0)) (seq 0 (length s))) u.
Proof.
  intros Hu. unfold matmul. rewrite sqrt_diag_ncols. apply map_ext_in. intros row Hrow.
  rewrite Forall_forall in Hu. specialize (Hu row Hrow).
  apply map_ext_in. intros j Hj. apply in_seq in Hj.
  rewrite sqrt_diag_column by lia. rewrite zip_with_seq by assumption.
  rewrite (rsum_map_ext_in _ (fun i => if Nat.eqb i j
                                         then nth i row 0 * sqrt (nth i s 0) else 0)).
  2:{ intros i _. destruct (Nat.eqb i j); ring. }
  apply (rsum_indicator (fun i => nth i row 0 * sqrt (nth i s 0))). lia.
Qed.

Lemma firstn_seq_min (dim s n : nat) :
  firstn dim (seq s n) = seq s (Nat.min dim n).
Proof.
  revert s n. induction dim as [| dim IH]; intros s [| n]; simpl; try reflexivity.
  now rewrite IH.
Qed.

Lemma firstn_map_seq {A : Type} (f : nat -> A) (dim n : nat) :
  firstn dim (map f (seq 0 n)) = map f (seq 0 (Nat.min dim n)).
Proof. now rewrite firstn_map, firstn_seq_min. Qed.

Lemma rsum_truncate (f : nat -> R) (dim n : nat) :
  (forall k, (dim <= k < n)%nat -> f k = 0) ->
  rsum (map f (seq 0 (Nat.min dim n))) = rsum (map f (seq 0 n)).
Proof.
  intros Hz. destruct (Nat.le_gt_cases n dim) as [H | H].
  - now rewrite Nat.min_r.
  - remember (n - dim)%nat as e eqn:He.
    assert (Hn : n = (dim + e)%nat) by lia. subst n. clear He.
    rewrite Nat.min_l by lia.
    rewrite seq_app, map_app, rsum_app.
    rewrite (rsum_map_zero f (seq (0 + dim) e)); [ring |].
    intros k Hk. apply in_seq in Hk. apply Hz. lia.
Qed.

(** X22: the reconstruction is a round trip on distances.  For the
    distance matrix of a cloud, when the decomposition of [mat_m] is
    [u diag(s) u^T] with singular values that are not negative and vanish
    from position [dim] on, the function returns N rows of min(dim, N)
    coordinates whose pairwise distances are the distances of the cloud. *)
Theorem coordinates_from_distance_matrix_round_trip
    (svd : matrix R -> matrix R * list R * matrix R)
    (x : list vec3) (use_center : option Z) (dim : nat)
    (o : vec3) (m u v : matrix R) (s : list R) :
  center_point x use_center = Some o ->
  mat_m (distance_matrix x) use_center = inr m ->
  svd m = (u, s, v) ->
  decomposes (length x) dim m u s ->
  exists out : matrix R,
    coordinates_from_distance_matrix svd (distance_matrix x) use_center dim = inr out /\
    length out = length x /\
    forall a b, (a < length x)%nat -> (b < length x)%nat ->
      length (nth a out []) = Nat.min dim (length x) /\
      row_distance (nth a out []) (nth b out []) =
      vnorm (vsub (nth a x vzero) (nth b x vzero)).
Proof.
  intros Ho Hm Hsvd (Hu & Hs & Hpos & Hzero & Hdec).
  destruct (mat_m_gram x use_center o Ho) as (m' & Hm' & _ & Hgram).
  rewrite Hm in Hm'. injection Hm' as <-.
  set (n := length x) in *. pose proof Hu as [Hul Hur].
  unfold coordinates_from_distance_matrix. rewrite Hm, Hsvd.
  rewrite matmul_sqrt_diag by (rewrite Hs; exact Hur). rewrite Hs, map_map.
  eexists. split; [reflexivity |]. split; [now rewrite length_map |].
  intros a b Ha Hb.
  rewrite !(nth_map_in _ _ _ []) by lia. rewrite !firstn_map_seq.
  split; [now rewrite length_map, length_seq |].
  unfold row_distance. rewrite zip_with_map.
  set (ua := nth a u []). set (ub := nth b u []).
  rewrite (rsum_map_ext_in _
             (fun k => (nth k ua 0 * nth k s 0 * nth k ua 0
                        + (-2) * (nth k ua 0 * nth k s 0 * nth k ub 0))
                       + nth k ub 0 * nth k s 0 * nth k ub 0)).
  2:{ intros k Hk. apply in_seq in Hk.
      assert (Hsk : sqrt (nth k s 0) * sqrt (nth k s 0) = nth k s 0)
        by (apply sqrt_sqrt, Hpos; lia).
      set (r := sqrt (nth k s 0)) in *. rewrite <- Hsk. ring. }
  rewrite rsum_truncate.
  2:{ intros k Hk. rewrite (Hzero k Hk). ring. }
  rewrite !rsum_map_plus, rsum_map_scale. unfold ua, ub.
  rewrite !Hdec, !Hgram by assumption.
  unfold vnorm, vdot, vsub.
  destruct (nth a x vzero) as [[a0 a1] a2], (nth b x vzero) as [[b0 b1] b2],
    o as [[o0 o1] o2].
  f_equal. ring.
Qed.

Lemma two_atoms_mat_m :
  mat_m (distance_matrix two_atoms) (Some 0%Z) = inr two_atoms_mat.
Proof. reflexivity. Qed.

Lemma two_atoms_decomposes :
  decomposes 2 3 two_atoms_mat [[0; 1]; [1; 0]] [4; 0].
Proof.
  assert (H0 : vnorm (0 - 0, 0 - 0, 0 - 0) = 0).
  { unfold vnorm. replace ((0 - 0) * (0 - 0) + (0 - 0) * (0 - 0) + (0 - 0) * (0 - 0))
      with 0 by ring. apply sqrt_0. }
  assert (H1 : vnorm (0 - 2, 0 - 0, 0 - 0) = 2).
  { unfold vnorm. apply sqrt_lem_1; lra. }
  assert (H2 : vnorm (2 - 0, 0 - 0, 0 - 0) = 2).
  { unfold vnorm. apply sqrt_lem_1; lra. }
  assert (H3 : vnorm (2 - 2, 0 - 0, 0 - 0) = 0).
  { unfold vnorm. replace ((2 - 2) * (2 - 2) + (0 - 0) * (0 - 0) + (0 - 0) * (0 - 0))
      with 0 by ring. apply sqrt_0. }
  split; [apply square_intro; reflexivity |]. split; [reflexivity |].
  split; [| split].
  - intros k Hk. destruct (lt_2_cases k Hk) as [-> | ->]; simpl; lra.
  - intros k Hk. lia.
  - intros a b Ha Hb.
    destruct (lt_2_cases a Ha) as [-> | ->], (lt_2_cases b Hb) as [-> | ->];
      cbn [seq map nth rsum fold_right two_atoms_mat double_center column zip_with
           combine distance_matrix two_atoms vsub fst snd];
      rewrite ?H0, ?H1, ?H2, ?H3; lra.
Qed.

Lemma coordinates_from_distance_matrix_round_trip_witness :
  exists out : matrix R,
    coordinates_from_distance_matrix svd_two_atoms (distance_matrix two_atoms)
      (Some 0%Z) 3 = inr out /\
    length out = length two_atoms /\
    forall a b, (a < length two_atoms)%nat -> (b < length two_atoms)%nat ->
      length (nth a out []) = Nat.min 3 (length two_atoms) /\
      row_distance (nth a out []) (nth b out []) =
      vnorm (vsub (nth a two_atoms vzero) (nth b two_atoms vzero)).
Proof.
  apply (coordinates_from_distance_matrix_round_trip svd_two_atoms two_atoms
           (Some 0%Z) 3 (0, 0, 0) two_atoms_mat [[0; 1]; [1; 0]] [[0; 1]; [1; 0]] [4; 0]).
  - reflexivity.
  - exact two_atoms_mat_m.
  - reflexivity.
  - exact two_atoms_decomposes.
Defined.
